(** * electron-bus: a shallow embedding of [src/MessageEnvelope.js] and
    [src/ElectronBus.js], and the properties of the bus stated over it.

    The JavaScript heap, the [Map]/[Set] objects of the channel registry,
    promises, timers and the calls into user callbacks are modelled
    explicitly; every function of the two classes keeps its name. *)

From Stdlib Require Import ZArith NArith Ascii String Lia.
From stdpp Require Import base option list gmap strings.

Open Scope string_scope.
Open Scope list_scope.
Open Scope Z_scope.
Open Scope nat_scope.

(** ** JavaScript values *)

(** Numbers are integers or [NaN]; objects live in the heap and are
    designated by their address, so that two references are the same
    reference exactly when the addresses are equal. *)
Inductive val : Type :=
| VUndefined
| VNull
| VBool (b : bool)
| VNum (n : Z)
| VNaN
| VStr (s : string)
| VRef (l : nat).

#[global] Instance val_eq_dec : EqDecision val.
Proof. solve_decision. Defined.

(** [Boolean(v)]. *)
Definition truthy (v : val) : bool :=
  match v with
  | VUndefined | VNull | VNaN => false
  | VBool b => b
  | VNum n => negb (n =? 0)%Z
  | VStr s => negb (bool_decide (s = ""))
  | VRef _ => true
  end.

(** [a === b]. *)
Definition strict_eq (a b : val) : bool :=
  match a with
  | VNaN => false
  | _ => bool_decide (a = b)
  end.

(** A plain object: its own enumerable properties in insertion order. *)
Abbreviation obj := (list (string * val)) (only parsing).

Fixpoint get_own (o : obj) (k : string) : val :=
  match o with
  | [] => VUndefined
  | (k', v) :: o' => if decide (k = k') then v else get_own o' k
  end.

Fixpoint set_own (o : obj) (k : string) (v : val) : obj :=
  match o with
  | [] => [(k, v)]
  | (k', v') :: o' =>
      if decide (k = k') then (k', v) :: o' else (k', v') :: set_own o' k v
  end.

(** The heap: object [l] is the [l]-th allocated one. *)
Abbreviation heap_t := (list (list (string * val))) (only parsing).

Definition alloc (h : heap_t) (o : obj) : heap_t * val :=
  (h ++ [o], VRef (length h)).

(** The outcome of an expression that may throw. *)
Inductive completion (A : Type) : Type :=
| Normal (a : A)
| Throw (msg : string).
Arguments Normal {A} a.
Arguments Throw {A} msg.

(** [o.k]: a [TypeError] on [null] and [undefined], the own property of
    an object, [undefined] on the other primitives (the only property the
    source reads off an arbitrary value is [type], which no primitive
    wrapper defines). *)
Definition get_prop (h : heap_t) (o : val) (k : string) : completion val :=
  match o with
  | VUndefined | VNull => Throw "TypeError"
  | VRef l => Normal (from_option (fun ob => get_own ob k) VUndefined (h !! l))
  | _ => Normal VUndefined
  end.

(** ** MessageEnvelope.js *)

Module MessageEnvelope.

(** [static get TYPE()] *)
Definition TYPE : string := "electron-bus--message-envelope".

(** [constructor(channel, payload, returnChannel)]: the four properties
    defined on [this], in order. *)
Definition constructor (channel payload returnChannel : val) : obj :=
  [("type", VStr TYPE); ("channel", channel); ("payload", payload);
   ("returnChannel", returnChannel)].

(** [new MessageEnvelope(channel, payload, returnChannel)] *)
Definition new (h : heap_t) (channel payload returnChannel : val)
  : heap_t * val :=
  alloc h (constructor channel payload returnChannel).

(** [Boolean(o && o.type && o.type === MessageEnvelope.TYPE)]; [&&]
    yields its left operand when that is falsy and does not evaluate
    the right one. *)
Definition isEnvelope (h : heap_t) (o : val) : completion bool :=
  if truthy o then
    match get_prop h o "type" with
    | Throw e => Throw e
    | Normal t =>
        if truthy t then
          match get_prop h o "type" with
          | Throw e => Throw e
          | Normal t' => Normal (truthy (VBool (strict_eq t' (VStr TYPE))))
          end
        else Normal (truthy t)
    end
  else Normal (truthy o).



End MessageEnvelope.

(** ** lodash.clonedeep *)

(** [clone(value)] as [baseClone] does it for plain objects and arrays:
    the copy of an object is allocated and recorded in the [stack] cache
    before its properties are cloned and assigned one by one, so shared
    and cyclic structure is preserved.  The source heap [h0] is only
    read; the state of a run is the list of the copies made so far, the
    [i]-th of them being object [length h0 + i] of the resulting heap,
    and the [stack], which maps a source object to its copy.  Every
    level of the recursion that uses fuel records a source object not
    yet in the [stack], so [S (length h)] is enough fuel for [clone]. *)
Abbreviation clone_state := (list (list (string * val)) * list (nat * nat))%type (only parsing).

Fixpoint stack_get (stack : list (nat * nat)) (l : nat) : option nat :=
  match stack with
  | [] => None
  | (k, l') :: stack' => if decide (l = k) then Some l' else stack_get stack' l
  end.

Definition assignValue (h0 : heap_t) (st : clone_state)
    (target : nat) (k : string) (v : val) : clone_state :=
  (alter (fun o => set_own o k v) (target - length h0) st.1, st.2).

(** The loop of [baseClone] over the properties of the source object:
    [assignValue(result, key, baseClone(subValue, ...))]. *)
Fixpoint clone_props (rec : clone_state → val → option (clone_state * val))
    (h0 : heap_t) (target : nat) (st : clone_state) (ps : obj)
  : option clone_state :=
  match ps with
  | [] => Some st
  | (k, sub) :: ps' =>
      match rec st sub with
      | None => None
      | Some (st', sub') =>
          clone_props rec h0 target (assignValue h0 st' target k sub') ps'
      end
  end.

Fixpoint baseClone (fuel : nat) (h0 : heap_t) (st : clone_state) (v : val)
  : option (clone_state * val) :=
  match v with
  | VRef l =>
      match stack_get st.2 l with
      | Some l' => Some (st, VRef l')
      | None =>
          match h0 !! l with
          | None => Some (st, v)
          | Some props =>
              match fuel with
              | O => None
              | S fuel' =>
                  let l' := length h0 + length st.1 in
                  match clone_props (baseClone fuel' h0) h0 l'
                          (st.1 ++ [[]], (l, l') :: st.2) props with
                  | Some st' => Some (st', VRef l')
                  | None => None
                  end
              end
          end
      end
  | _ => Some (st, v)
  end.

Definition clone (h : heap_t) (v : val) : option (heap_t * val) :=
  match baseClone (S (length h)) h ([], []) v with
  | Some (st, v') => Some (h ++ st.1, v')
  | None => None
  end.

(** Deep equality down to depth [n]: equal primitives, or objects with
    the same keys in the same order holding deeply equal values. *)
Fixpoint deep_equal (n : nat) (h1 : heap_t) (v1 : val) (h2 : heap_t) (v2 : val)
  : Prop :=
  match v1, v2 with
  | VRef l1, VRef l2 =>
      match n with
      | O => True
      | S n' =>
          ∃ o1 o2, h1 !! l1 = Some o1 ∧ h2 !! l2 = Some o2 ∧
            Forall2 (fun p1 p2 =>
              p1.1 = p2.1 ∧ deep_equal n' h1 p1.2 h2 p2.2) o1 o2
      end
  | VRef _, _ | _, VRef _ => False
  | _, _ => v1 = v2
  end.

(** Well-formed heaps: keys occur once per object, references point to
    allocated objects. *)
Definition val_ok (h : heap_t) (v : val) : Prop :=
  match v with VRef l => l < length h | _ => True end.

Definition obj_ok (h : heap_t) (o : obj) : Prop :=
  NoDup o.*1 ∧ Forall (fun p => val_ok h p.2) o.

Definition heap_ok (h : heap_t) : Prop := Forall (obj_ok h) h.

(** ** ElectronBus.js: the channel registry *)

(** A function value is known by its identity: a function of the
    program using the bus, or the closure [response => {...}] that the
    [n]-th call of [dispatch] created. *)
Inductive callback : Type :=
| User (f : nat)
| Responder (n : nat).

#[global] Instance callback_eq_dec : EqDecision callback.
Proof. solve_decision. Defined.

(** The [[SetData]] list of a [Set]: [add] appends, [delete] leaves a
    hole, an iterator walks the list by index and skips the holes, so a
    loop over a set sees what is added and removed while it runs. *)
Abbreviation set_data := (list (option callback)) (only parsing).

Definition set_elements (d : set_data) : list callback := omap id d.
Definition set_size (d : set_data) : nat := length (set_elements d).
Definition set_has (d : set_data) (cb : callback) : bool :=
  bool_decide (cb ∈ set_elements d).
Definition set_add (d : set_data) (cb : callback) : set_data :=
  if set_has d cb then d else d ++ [Some cb].
Definition set_delete (d : set_data) (cb : callback) : set_data :=
  (fun e => if decide (e = Some cb) then None else e) <$> d.

Fixpoint first_entry (d : set_data) (idx : nat) : option (callback * nat) :=
  match d with
  | [] => None
  | Some cb :: _ => Some (cb, S idx)
  | None :: d' => first_entry d' (S idx)
  end.

(** The iterator's [next()] at position [idx]: the entry found and the
    position after it. *)
Definition next_entry (d : set_data) (idx : nat) : option (callback * nat) :=
  first_entry (drop idx d) idx.

(** [this.channels]: a [Map] from channel name to a [Set] object; the
    set objects live in [sets] and are designated by their index. *)
Record Registry : Type := mkRegistry {
  sets : list set_data;
  channels : gmap string nat
}.

Definition subscribers (r : Registry) (channel : string) : list callback :=
  match channels r !! channel with
  | Some sid => set_elements (default [] (sets r !! sid))
  | None => []
  end.

(** The subscription object [{unsubscribe: _ => this.unsubscribe(channel, callback)}]. *)
Record subscription : Type := mkSubscription {
  sub_channel : string;
  sub_callback : callback
}.

Definition subscribe (r : Registry) (channel : string) (cb : callback)
  : Registry * subscription :=
  let r1 :=
    match channels r !! channel with
    | None => mkRegistry (sets r ++ [[]]) (<[channel := length (sets r)]> (channels r))
    | Some _ => r
    end in
  let r2 :=
    match channels r1 !! channel with
    | Some sid => mkRegistry (alter (fun d => set_add d cb) sid (sets r1)) (channels r1)
    | None => r1
    end in
  (r2, mkSubscription channel cb).

Definition unsubscribe (r : Registry) (channel : string) (cb : callback)
  : Registry :=
  match channels r !! channel with
  | None => r
  | Some sid =>
      let sets' := alter (fun d => set_delete d cb) sid (sets r) in
      if decide (set_size (default [] (sets' !! sid)) = 0)
      then mkRegistry sets' (delete channel (channels r))
      else mkRegistry sets' (channels r)
  end.

(** [subscription.unsubscribe()] *)
Definition sub_unsubscribe (r : Registry) (s : subscription) : Registry :=
  unsubscribe r (sub_channel s) (sub_callback s).

(** The registry operations as a program would issue them in sequence. *)
Inductive registry_op : Type :=
| OpSubscribe (channel : string) (cb : callback)
| OpUnsubscribe (channel : string) (cb : callback).

Definition apply_op (r : Registry) (op : registry_op) : Registry :=
  match op with
  | OpSubscribe c cb => (subscribe r c cb).1
  | OpUnsubscribe c cb => unsubscribe r c cb
  end.

Definition apply_ops (r : Registry) (ops : list registry_op) : Registry :=
  foldl apply_op r ops.

Definition empty_registry : Registry := mkRegistry [] ∅.

(** The subscriptions a sequence of operations leaves, read off the
    operations alone: the pairs subscribed and not unsubscribed since. *)
Definition spec_apply_op (s : list (string * callback)) (op : registry_op)
  : list (string * callback) :=
  match op with
  | OpSubscribe c cb => if bool_decide ((c, cb) ∈ s) then s else s ++ [(c, cb)]
  | OpUnsubscribe c cb => filter (fun p => p ≠ (c, cb)) s
  end.

Definition spec_subscriptions (ops : list registry_op) : list (string * callback) :=
  foldl spec_apply_op [] ops.

(** ** ElectronBus.js: promises, timers, remotes *)

Inductive settlement : Type :=
| Pending
| Resolved (v : val)
| Rejected (msg : string).

(** One record per call of [dispatch]: the promise it returns and the
    variables of its executor that the two closures capture. *)
Record activation : Type := mkActivation {
  result : settlement;
  returnChannel : val;
  returnPath : option subscription;
  timer : nat
}.

(** A timer set by [setTimeout]: timer [i] has the handle [S i], so that
    the initial value [0] of [timer] designates none. *)
Record timer_slot : Type := mkSlot {
  delay : val;
  owner : nat;
  armed : bool
}.

(** A member of [this.remotes]. *)
Inductive endpoint : Type :=
| IpcRenderer
| WebContents (id : nat).

#[global] Instance endpoint_eq_dec : EqDecision endpoint.
Proof. solve_decision. Defined.

(** What may be passed to [attach] and to the constructor. *)
Inductive remote_arg : Type :=
| BrowserWindow (webContents : nat)
| Plain (v : val).

(** [options] of [dispatch], destructured: an absent field is [undefined]. *)
Record options : Type := mkOptions {
  waiting : val;
  timeout : val
}.

(** What the bus does that can be seen from outside, in order. *)
Inductive event : Type :=
| EvCall (cb : callback) (arg : val) (rc : val)
| EvSend (r : endpoint) (message : val)
| EvSettle (n : nat) (s : settlement)
| EvTimeout (i : nat)
| EvUncaught (msg : string).

Record World : Type := mkWorld {
  heap : heap_t;
  registry : Registry;
  remotes : list endpoint;
  listeners : nat;
  calls : list activation;
  timers : list timer_slot;
  draws : nat;
  trace : list event
}.

Definition with_heap (h : heap_t) (w : World) : World :=
  mkWorld h (registry w) (remotes w) (listeners w) (calls w) (timers w) (draws w) (trace w).
Definition with_registry (r : Registry) (w : World) : World :=
  mkWorld (heap w) r (remotes w) (listeners w) (calls w) (timers w) (draws w) (trace w).
Definition with_remotes (rs : list endpoint) (w : World) : World :=
  mkWorld (heap w) (registry w) rs (listeners w) (calls w) (timers w) (draws w) (trace w).
Definition with_listeners (k : nat) (w : World) : World :=
  mkWorld (heap w) (registry w) (remotes w) k (calls w) (timers w) (draws w) (trace w).
Definition with_calls (cs : list activation) (w : World) : World :=
  mkWorld (heap w) (registry w) (remotes w) (listeners w) cs (timers w) (draws w) (trace w).
Definition with_timers (ts : list timer_slot) (w : World) : World :=
  mkWorld (heap w) (registry w) (remotes w) (listeners w) (calls w) ts (draws w) (trace w).
Definition with_draws (k : nat) (w : World) : World :=
  mkWorld (heap w) (registry w) (remotes w) (listeners w) (calls w) (timers w) k (trace w).
Definition log (w : World) (e : event) : World :=
  mkWorld (heap w) (registry w) (remotes w) (listeners w) (calls w) (timers w) (draws w)
          (trace w ++ [e]).

(** How running a piece of code ends. *)
Inductive outcome : Type :=
| Done (w : World)
| Threw (w : World) (msg : string)
| OutOfFuel.

(** ** The code of the subscribers *)

(** A subscriber is a list of statements over its two parameters, the
    value it is handed and the return channel.  It acts on the bus
    through the methods of the bus: [bus.subscribe(c, f)],
    [bus.unsubscribe(c, f)] and [bus.dispatch(c, e, o)], where the
    channel is a literal or the return channel and [f] is the [f]-th
    user function; besides these it assigns [target.k = e] and throws. *)
Inductive chan : Type :=
| ChLit (s : string)
| ChReturn.

Inductive expr : Type :=
| ELit (v : val)
| EArg
| EGet (e : expr) (k : string).

Inductive action : Type :=
| ASubscribe (c : chan) (f : nat)
| AUnsubscribe (c : chan) (f : nat)
| ADispatch (c : chan) (e : expr) (o : options)
| ASet (target : expr) (k : string) (e : expr)
| AThrow (msg : string).

Fixpoint eval (h : heap_t) (arg : val) (e : expr) : completion val :=
  match e with
  | ELit v => Normal v
  | EArg => Normal arg
  | EGet e' k =>
      match eval h arg e' with
      | Normal v => get_prop h v k
      | Throw m => Throw m
      end
  end.

(** The channel a statement names; one that names its [returnChannel]
    parameter is guarded by [typeof returnChannel === "string"]. *)
Definition chan_name (c : chan) (rc : val) : option string :=
  match c with
  | ChLit s => Some s
  | ChReturn => match rc with VStr s => Some s | _ => None end
  end.

(** ** [Number.prototype.toString(36)] *)

Definition digit36 (d : N) : ascii :=
  default "0"%char
    (String.get (N.to_nat d) "0123456789abcdefghijklmnopqrstuvwxyz").

Fixpoint toString36_digits (fuel : nat) (n : N) (acc : string) : string :=
  match fuel with
  | O => acc
  | S fuel' =>
      let acc' := String (digit36 (n mod 36)) acc in
      if (n / 36 =? 0)%N then acc' else toString36_digits fuel' (n / 36) acc'
  end.

Definition toString36 (n : N) : string :=
  toString36_digits (S (N.to_nat (N.log2 n))) n "".

(** ** ElectronBus.js: the class *)

Module ElectronBus.

(** [static get CHANNEL()] *)
Definition CHANNEL : string := "electron-bus--message".

Definition set_result (s : settlement) (a : activation) : activation :=
  mkActivation s (returnChannel a) (returnPath a) (timer a).
Definition set_returnChannel (v : val) (a : activation) : activation :=
  mkActivation (result a) v (returnPath a) (timer a).
Definition set_returnPath (s : subscription) (a : activation) : activation :=
  mkActivation (result a) (returnChannel a) (Some s) (timer a).
Definition set_timer (t : nat) (a : activation) : activation :=
  mkActivation (result a) (returnChannel a) (returnPath a) t.
Definition disarm (s : timer_slot) : timer_slot :=
  mkSlot (delay s) (owner s) false.

(** [resolve(v)] and [reject(e)] of the [n]-th promise: the first one
    settles it, the later ones do nothing. *)
Definition settle (w : World) (n : nat) (s : settlement) : World :=
  match calls w !! n with
  | Some a =>
      match result a with
      | Pending => log (with_calls (<[n := set_result s a]> (calls w)) w) (EvSettle n s)
      | _ => w
      end
  | None => w
  end.

(** [setTimeout(callback, d)] for the timer callback of activation [n];
    the handle returned is [S (length (timers w))]. *)
Definition setTimeout (w : World) (n : nat) (d : val) : World :=
  with_timers (timers w ++ [mkSlot d n true]) w.

Definition clearTimeout (w : World) (t : nat) : World :=
  match t with
  | O => w
  | S i => with_timers (alter disarm i (timers w)) w
  end.

(** [returnPath.unsubscribe()] inside the closures of activation [n]. *)
Definition returnPath_unsubscribe (w : World) (n : nat) : World :=
  match calls w !! n with
  | Some a =>
      match returnPath a with
      | Some s => with_registry (sub_unsubscribe (registry w) s) w
      | None => w
      end
  | None => w
  end.

(** [response => { clearTimeout(timer); returnPath.unsubscribe(); resolve(response); }] *)
Definition responder (w : World) (n : nat) (response : val) : World :=
  let w1 := clearTimeout w (from_option timer 0 (calls w !! n)) in
  let w2 := returnPath_unsubscribe w1 n in
  settle w2 n (Resolved response).

(** [_ => { returnPath.unsubscribe(); reject(new Error("Time out")); }] *)
Definition on_timeout (w : World) (n : nat) : World :=
  let w1 := returnPath_unsubscribe w n in
  settle w1 n (Rejected "Time out").

(** The platform runs the callback of timer [i], if it is still set. *)
Definition fire (w : World) (i : nat) : World :=
  match timers w !! i with
  | Some s =>
      if armed s
      then on_timeout (log (with_timers (alter disarm i (timers w)) w) (EvTimeout i)) (owner s)
      else w
  | None => w
  end.

(** [remote.send(ElectronBus.CHANNEL, message)] for every remote;
    [send] of [ipcRenderer] and of a [webContents] queues the message
    and returns. *)
Definition relay (w : World) (channel : string) (payload rc : val) : World :=
  foldl (fun w r =>
           let '(h, message) := MessageEnvelope.new (heap w) (VStr channel) payload rc in
           log (with_heap h w) (EvSend r message))
        w (remotes w).

Section Code.

(** The environment: the code of the user functions, the successive
    values of [parseInt(Number.MAX_SAFE_INTEGER * Math.random(), 10)],
    and [process.type === "renderer"]. *)
Variable behaviour : nat → list action.
Variable random : nat → N.
Variable isRenderer : bool.

(** [isBrowserWindow(w)]: the renderer's [electron] module has no
    [BrowserWindow]. *)
Definition isBrowserWindow (a : remote_arg) : bool :=
  negb isRenderer && match a with BrowserWindow _ => true | Plain _ => false end.

Definition remotes_add (w : World) (r : endpoint) : World :=
  if bool_decide (r ∈ remotes w) then w else with_remotes (remotes w ++ [r]) w.

(** [attach(remote)] *)
Definition attach (w : World) (remote : remote_arg) : completion World :=
  if isBrowserWindow remote then
    match remote with
    | BrowserWindow wc =>
        let w1 := remotes_add w (WebContents wc) in
        Normal (with_listeners (S (listeners w1)) w1)
    | Plain _ => Normal w
    end
  else Throw "Remote must be an instance of BrowserWindow".

(** [constructor(remote)] *)
Definition constructor (remote : remote_arg) : completion World :=
  let w := mkWorld [] empty_registry [] 0 [] [] 0 [] in
  if isRenderer then
    let w1 := remotes_add w IpcRenderer in
    Normal (with_listeners (S (listeners w1)) w1)
  else if match remote with BrowserWindow _ => true | Plain v => truthy v end
  then attach w remote
  else Normal w.

(** The executor of the promise of [dispatch], up to the local
    dispatch: either the return channel, its subscription and the
    timer are set up, or the promise is resolved. *)
Definition prepare (w : World) (channel : string) (o : options) : World :=
  let n := length (calls w) in
  let w := with_calls (calls w ++ [mkActivation Pending VUndefined None 0]) w in
  if truthy (waiting o) then
    let rc := channel +:+ "-" +:+ toString36 (random (draws w)) in
    let w := with_draws (S (draws w)) w in
    let w := with_calls (alter (set_returnChannel (VStr rc)) n (calls w)) w in
    let '(r, s) := subscribe (registry w) rc (Responder n) in
    let w := with_registry r w in
    let w := with_calls (alter (set_returnPath s) n (calls w)) w in
    let t := S (length (timers w)) in
    let w := setTimeout w n (if truthy (timeout o) then timeout o else VNum 15000) in
    with_calls (alter (set_timer t) n (calls w)) w
  else settle w n (Resolved VUndefined).

Section Loop.

(** The loop of [localDispatch], defined below by recursion on its
    fuel; the code that reaches it through a callback is written
    over it first. *)
Variable loop : World → nat → nat → val → val → outcome.

(** [async localDispatch(channel, payload, returnChannel)]: what a
    callback throws rejects the promise returned, which no caller
    looks at. *)
Definition localDispatch_with (w : World) (channel : string)
    (payload rc : val) : outcome :=
  match channels (registry w) !! channel with
  | None => Done w
  | Some sid =>
      match loop w sid 0 payload rc with
      | Threw w' msg => Done (log w' (EvUncaught msg))
      | o => o
      end
  end.

(** [dispatch(channel, payload, options)]; the promise returned is
    the one of activation [length (calls w)]. *)
Definition dispatch_with (w : World) (channel : string) (payload : val)
    (o : options) : outcome :=
  let n := length (calls w) in
  let w := prepare w channel o in
  let rc := from_option returnChannel VUndefined (calls w !! n) in
  match localDispatch_with w channel payload rc with
  | Done w' => Done (relay w' channel payload rc)
  | o => o
  end.

Definition act_with (w : World) (a : action) (arg rc : val) : outcome :=
  match a with
  | ASubscribe c f =>
      match chan_name c rc with
      | Some ch => Done (with_registry (subscribe (registry w) ch (User f)).1 w)
      | None => Done w
      end
  | AUnsubscribe c f =>
      match chan_name c rc with
      | Some ch => Done (with_registry (unsubscribe (registry w) ch (User f)) w)
      | None => Done w
      end
  | ADispatch c e o =>
      match eval (heap w) arg e with
      | Throw m => Threw w m
      | Normal v =>
          match chan_name c rc with
          | Some ch => dispatch_with w ch v o
          | None => Done w
          end
      end
  | ASet target k e =>
      match eval (heap w) arg target with
      | Throw m => Threw w m
      | Normal t =>
          match eval (heap w) arg e with
          | Throw m => Threw w m
          | Normal v =>
              match t with
              | VRef l => Done (with_heap (alter (fun ob => set_own ob k v) l (heap w)) w)
              | VUndefined | VNull => Threw w "TypeError"
              | _ => Done w
              end
          end
      end
  | AThrow m => Threw w m
  end.

Fixpoint run_with (w : World) (acts : list action) (arg rc : val) : outcome :=
  match acts with
  | [] => Done w
  | a :: rest =>
      match act_with w a arg rc with
      | Done w' => run_with w' rest arg rc
      | o => o
      end
  end.

(** [callback(arg, rc)] *)
Definition invoke_with (w : World) (cb : callback) (arg rc : val) : outcome :=
  match cb with
  | Responder n => Done (responder w n arg)
  | User f => run_with w (behaviour f) arg rc
  end.

(** [onRemoteMessage(ignore, data)]; the registry is keyed by
    strings, so a channel that is no string has no subscribers. *)
Definition onRemoteMessage_with (w : World) (data : val) : outcome :=
  match MessageEnvelope.isEnvelope (heap w) data with
  | Throw m => Threw w m
  | Normal false => Done w
  | Normal true =>
      match get_prop (heap w) data "channel",
            get_prop (heap w) data "payload",
            get_prop (heap w) data "returnChannel" with
      | Normal (VStr channel), Normal payload, Normal rc =>
          localDispatch_with w channel payload rc
      | Normal _, Normal _, Normal _ => Done w
      | _, _, _ => Threw w "TypeError"
      end
  end.

End Loop.

(** [for (const callback of this.channels.get(channel)) callback(clone(payload), returnChannel);]
    over the set object [sid], the iterator being at [idx]. *)
Fixpoint for_of (fuel : nat) (w : World) (sid idx : nat) (payload rc : val)
  : outcome :=
  match fuel with
  | O => OutOfFuel
  | S fuel' =>
      match next_entry (default [] (sets (registry w) !! sid)) idx with
      | None => Done w
      | Some (cb, idx') =>
          match clone (heap w) payload with
          | None => OutOfFuel
          | Some (h, arg) =>
              match invoke_with (for_of fuel') (log (with_heap h w) (EvCall cb arg rc))
                                cb arg rc with
              | Done w' => for_of fuel' w' sid idx' payload rc
              | o => o
              end
          end
      end
  end.

Definition localDispatch (fuel : nat) := localDispatch_with (for_of fuel).
Definition dispatch (fuel : nat) := dispatch_with (for_of fuel).
Definition invoke (fuel : nat) := invoke_with (for_of fuel).
Definition run (fuel : nat) := run_with (for_of fuel).
Definition onRemoteMessage (fuel : nat) := onRemoteMessage_with (for_of fuel).

(** What happens to a bus: the program runs statements against it,
    attaches a remote, creates an object; the platform runs a timer
    or delivers a message to the listeners registered on the
    internal channel. *)
Inductive input : Type :=
| IRun (acts : list action)
| IAttach (remote : remote_arg)
| IAlloc (o : obj)
| ITimer (i : nat)
| IMessage (data : val).

Fixpoint deliver (fuel : nat) (w : World) (data : val) (k : nat) : outcome :=
  match k with
  | O => Done w
  | S k' =>
      match onRemoteMessage fuel w data with
      | Done w' => deliver fuel w' data k'
      | o => o
      end
  end.

Definition step (fuel : nat) (w : World) (i : input) : outcome :=
  match i with
  | IRun acts => run fuel w acts VUndefined VUndefined
  | IAttach remote =>
      match attach w remote with
      | Normal w' => Done w'
      | Throw m => Threw w m
      end
  | IAlloc o => Done (with_heap (alloc (heap w) o).1 w)
  | ITimer i => Done (fire w i)
  | IMessage data => deliver fuel w data (listeners w)
  end.

Definition world_of (o : outcome) : option World :=
  match o with
  | Done w | Threw w _ => Some w
  | OutOfFuel => None
  end.

Inductive reachable : World → Prop :=
| reachable_new remote w :
    constructor remote = Normal w → reachable w
| reachable_step w fuel i w' :
    reachable w → world_of (step fuel w i) = Some w' → reachable w'.

(** [w'] is reached from [w] by zero or more inputs. *)
Inductive steps (w : World) : World → Prop :=
| steps_refl : steps w w
| steps_step w1 fuel i w2 :
    steps w w1 → world_of (step fuel w1 i) = Some w2 → steps w w2.

End Code.

(** The state of the [n]-th promise, and whether the timer with handle
    [t] is set. *)
Definition promise (w : World) (n : nat) : settlement :=
  from_option result Pending (calls w !! n).

Definition timer_set (w : World) (t : nat) : bool :=
  match t with
  | O => false
  | S i => from_option armed false (timers w !! i)
  end.

End ElectronBus.

(** ** Invariants *)

(** The registry a bus can be in: every channel of the map designates a
    set object that has a member, no two channels share a set object,
    and a set object that has a member is the set of some channel. *)
Record registry_ok (r : Registry) : Prop := mkRegistryOk {
  ok_live : ∀ c sid, channels r !! c = Some sid →
            ∃ d, sets r !! sid = Some d ∧ set_elements d ≠ [];
  ok_inj : ∀ c1 c2 sid, channels r !! c1 = Some sid →
           channels r !! c2 = Some sid → c1 = c2;
  ok_attached : ∀ sid d cb, sets r !! sid = Some d → Some cb ∈ d →
                ∃ c, channels r !! c = Some sid
}.

(** The subscribers of a channel among a list of subscriptions. *)
Definition spec_subscribers (s : list (string * callback)) (channel : string)
  : list callback :=
  omap (fun p => if decide (p.1 = channel) then Some p.2 else None) s.

(** Callback [cb] is a member of set object [sid]. *)
Definition live (r : Registry) (sid : nat) (cb : callback) : Prop :=
  ∃ d, sets r !! sid = Some d ∧ Some cb ∈ d.

(** Counting events in a trace. *)
Fixpoint count (p : event → bool) (tr : list event) : nat :=
  match tr with
  | [] => 0
  | e :: tr' => (if p e then 1 else 0) + count p tr'
  end.

(** Promise [n] changes from pending to settled. *)
Definition is_settle (n : nat) (e : event) : bool :=
  match e with EvSettle m _ => bool_decide (m = n) | _ => false end.
(** The response path of activation [n] runs: its closure is called. *)
Definition is_response (n : nat) (e : event) : bool :=
  match e with EvCall (Responder m) _ _ => bool_decide (m = n) | _ => false end.
(** The timeout path runs: the callback of timer [i] is called. *)
Definition is_timeout (i : nat) (e : event) : bool :=
  match e with EvTimeout j => bool_decide (j = i) | _ => false end.

Definition settled (s : settlement) : bool :=
  match s with Pending => false | _ => true end.

(** Which of the two paths of activation [n], with timer [i], has run,
    as the state of the promise tells: none while it is pending, the
    response path alone once it is resolved, the timeout path alone once
    it is rejected, and then with the time-out error. *)
Definition paths_ran (tr : list event) (n i : nat) (s : settlement) : Prop :=
  match s with
  | Pending => count (is_response n) tr = 0 ∧ count (is_timeout i) tr = 0
  | Resolved _ => count (is_response n) tr = 1 ∧ count (is_timeout i) tr = 0
  | Rejected m =>
      m = "Time out" ∧ count (is_response n) tr = 0 ∧ count (is_timeout i) tr = 1
  end.

(** The state of the [n]-th call of [dispatch].  One that does not wait
    resolved with [undefined] at once.  One that waits owns its return
    channel, its closure and its timer; while it is pending the timer is
    set and the closure is subscribed to the return channel, and neither
    path has run; once it is settled the timer is off and exactly one of
    the two paths has run. *)
Definition activation_ok (w : World) (n : nat) (a : activation) : Prop :=
  count (is_settle n) (trace w) = (if settled (result a) then 1 else 0) ∧
  match returnPath a with
  | None =>
      returnChannel a = VUndefined ∧ result a = Resolved VUndefined ∧
      count (is_response n) (trace w) = 0
  | Some s =>
      ∃ rc i slot,
        s = mkSubscription rc (Responder n) ∧ returnChannel a = VStr rc ∧
        timer a = S i ∧ timers w !! i = Some slot ∧ owner slot = n ∧
        paths_ran (trace w) n i (result a) ∧
        armed slot = negb (settled (result a)) ∧
        (result a = Pending →
         ∃ sid, channels (registry w) !! rc = Some sid ∧
                live (registry w) sid (Responder n))
  end.

(** What holds of every world a bus can be in. *)
Record bus_ok (w : World) : Prop := mkBusOk {
  bus_registry : registry_ok (registry w);
  bus_responders : ∀ sid n, live (registry w) sid (Responder n) →
      ∃ a rc, calls w !! n = Some a ∧ result a = Pending ∧
              returnPath a = Some (mkSubscription rc (Responder n)) ∧
              channels (registry w) !! rc = Some sid;
  bus_calls : ∀ n a, calls w !! n = Some a → activation_ok w n a;
  bus_timers : ∀ i s, timers w !! i = Some s →
      ∃ a, calls w !! owner s = Some a ∧ timer a = S i ∧ is_Some (returnPath a);
  bus_fresh_calls : ∀ n, (length (calls w) ≤ n)%nat →
      count (is_settle n) (trace w) = 0 ∧ count (is_response n) (trace w) = 0;
  bus_fresh_timers : ∀ i, (length (timers w) ≤ i)%nat →
      count (is_timeout i) (trace w) = 0
}.

(** What running code may change from world [w] to world [w']: it
    attaches no remote, it leaves the settings of existing timers and
    the variables of existing activations as they are, a timer that is
    off stays off, a settled promise stays as settled, the trace grows,
    and what is sent is sent to the remotes. *)
Record extends (w w' : World) : Prop := mkExtends {
  ext_remotes : remotes w' = remotes w;
  ext_listeners : listeners w' = listeners w;
  ext_timers : ∀ i s, timers w !! i = Some s →
      ∃ s', timers w' !! i = Some s' ∧ delay s' = delay s ∧
            owner s' = owner s ∧ (armed s' = true → armed s = true);
  ext_calls : ∀ n a, calls w !! n = Some a →
      ∃ a', calls w' !! n = Some a' ∧ returnChannel a' = returnChannel a ∧
            returnPath a' = returnPath a ∧ timer a' = timer a ∧
            (settled (result a) = true → result a' = result a);
  ext_trace : ∃ new, trace w' = trace w ++ new ∧
      ∀ r m, EvSend r m ∈ new → r ∈ remotes w
}.

(** The guarantee a piece of code run from [w] gives when it ends. *)
Definition post (w : World) (o : outcome) : Prop :=
  match o with
  | Done w' | Threw w' _ => bus_ok w' ∧ extends w w'
  | OutOfFuel => True
  end.

Definition loop_ok (loop : World → nat → nat → val → val → outcome) : Prop :=
  ∀ w sid idx payload rc, bus_ok w → post w (loop w sid idx payload rc).

(** Two traces in which every promise settled, and every path ran, the
    same number of times. *)
Definition same_counts (tr tr' : list event) : Prop :=
  (∀ n, count (is_settle n) tr' = count (is_settle n) tr) ∧
  (∀ n, count (is_response n) tr' = count (is_response n) tr) ∧
  (∀ i, count (is_timeout i) tr' = count (is_timeout i) tr).

(** What both closures of activation [n] do once they run, [i] being
    its timer: the timer is off, the closure is unsubscribed, and then
    the promise is settled. *)
Definition finish (w : World) (n i : nat) (s : settlement) : World :=
  ElectronBus.settle
    (ElectronBus.returnPath_unsubscribe
       (with_timers (alter ElectronBus.disarm i (timers w)) w) n) n s.

(** The event with which a path of activation [n] with timer [i]
    starts, and the state in which the path leaves the promise. *)
Definition path_event (n i : nat) (e : event) (s : settlement) : Prop :=
  (e = EvTimeout i ∧ s = Rejected "Time out") ∨
  (∃ arg rc, e = EvCall (Responder n) arg rc ∧ s = Resolved arg).

(** The return channel and the delay of the request that the next
    waiting [dispatch] on [channel] opens. *)
Definition next_returnChannel (random : nat → N) (w : World) (channel : string)
  : string :=
  channel +:+ "-" +:+ toString36 (random (draws w)).

Definition deadline (o : options) : val :=
  if truthy (timeout o) then timeout o else VNum 15000.

(** What every input leaves as it is: the settings of the timers, the
    variables of the activations, a timer that is off, a promise that is
    settled. *)
Definition persists (w w' : World) : Prop :=
  (∀ i s, timers w !! i = Some s →
      ∃ s', timers w' !! i = Some s' ∧ delay s' = delay s ∧
            owner s' = owner s ∧ (armed s' = true → armed s = true)) ∧
  (∀ n a, calls w !! n = Some a →
      ∃ a', calls w' !! n = Some a' ∧ returnChannel a' = returnChannel a ∧
            returnPath a' = returnPath a ∧ timer a' = timer a ∧
            (settled (result a) = true → result a' = result a)).

(** The sends of one [dispatch] to the remotes [rs], the first envelope
    being object [l] of the heap. *)
Definition relay_events (l : nat) (rs : list endpoint) : list event :=
  imap (fun k r => EvSend r (VRef (l + k))) rs.

(** ** The copies [clone] makes *)

(** The copy of a value under the cache [stack]. *)
Definition rename (stack : list (nat * nat)) (v : val) : val :=
  match v with
  | VRef l => match stack_get stack l with Some l' => VRef l' | None => v end
  | _ => v
  end.

Definition rename_props (stack : list (nat * nat)) (o : list (string * val))
  : list (string * val) :=
  (fun kv => (kv.1, rename stack kv.2)) <$> o.

(** The states [baseClone] goes through: an object is cached once, the
    objects cached are objects of the source heap, and the [k]-th object
    cached has the [k]-th copy. *)
Record clone_good (h0 : list (list (string * val)))
    (st : list (list (string * val)) * list (nat * nat)) : Prop := mkCloneGood {
  good_keys : NoDup (st.2.*1);
  good_valid : ∀ l, l ∈ st.2.*1 → l < length h0;
  good_copies : st.2.*2 = reverse (seq (length h0) (length st.1))
}.

(** Every reference among the properties is cached. *)
Definition closed_props (stack : list (nat * nat)) (o : list (string * val))
  : Prop :=
  ∀ k y, (k, VRef y) ∈ o → is_Some (stack_get stack y).

(** The copy [l'] of object [l] is finished. *)
Definition complete (h0 : list (list (string * val)))
    (st : list (list (string * val)) * list (nat * nat)) (l l' : nat) : Prop :=
  ∃ props, h0 !! l = Some props ∧
           st.1 !! (l' - length h0) = Some (rename_props st.2 props) ∧
           closed_props st.2 props.

(** What one call of [baseClone] on a value does to the state. *)
Definition clone_step (h0 : list (list (string * val)))
    (st : list (list (string * val)) * list (nat * nat)) (v : val)
    (st' : list (list (string * val)) * list (nat * nat)) (v' : val) : Prop :=
  clone_good h0 st' ∧
  (∃ added, st'.2 = added ++ st.2 ∧
     ∀ l l', (l, l') ∈ added →
             length h0 + length st.1 ≤ l' ∧ complete h0 st' l l') ∧
  length st.1 ≤ length st'.1 ∧
  (∀ j, j < length st.1 → st'.1 !! j = st.1 !! j) ∧
  v' = rename st'.2 v ∧
  (∀ l, v = VRef l → is_Some (stack_get st'.2 l)).

Definition rec_ok (h0 : list (list (string * val)))
    (rec : list (list (string * val)) * list (nat * nat) → val →
           option ((list (list (string * val)) * list (nat * nat)) * val)) : Prop :=
  ∀ st v st' v', clone_good h0 st → val_ok h0 v →
                 rec st v = Some (st', v') → clone_step h0 st v st' v'.

(** [h1] is [h] followed by a fresh deep copy of [payload], which [arg]
    designates: nothing of [h] is changed, the copy is deeply equal to
    the payload, it is a new reference when the payload is one, and the
    objects of the copy refer to objects of the copy only. *)
Definition fresh_copy (h : list (list (string * val))) (payload : val)
    (h1 : list (list (string * val))) (arg : val) : Prop :=
  (∃ fresh, h1 = h ++ fresh) ∧
  (∀ n, deep_equal n h payload h1 arg) ∧
  match payload with
  | VRef _ => ∃ l', arg = VRef l' ∧ length h ≤ l' < length h1
  | _ => arg = payload
  end ∧
  (∀ l o, length h ≤ l → h1 !! l = Some o →
     ∀ k y, (k, VRef y) ∈ o → length h ≤ y < length h1) ∧
  heap_ok h1.

(** ** Subscribers that work on the value they are handed *)

(** An expression over the delivered value and primitive constants. *)
Fixpoint own_expr (e : expr) : bool :=
  match e with
  | EArg => true
  | ELit (VRef _) => false
  | ELit _ => true
  | EGet e' _ => own_expr e'
  end.

(** A statement that writes into the delivered value, or throws. *)
Definition own_action (a : action) : bool :=
  match a with
  | ASet target _ e => own_expr target && own_expr e
  | AThrow _ => true
  | _ => false
  end.

(** A value that is no reference below address [b]. *)
Definition above (b : nat) (h : list (list (string * val))) (v : val) : Prop :=
  match v with VRef l => b ≤ l < length h | _ => True end.

(** The objects from address [b] on refer to one another only. *)
Definition closed_above (b : nat) (h : list (list (string * val))) : Prop :=
  ∀ l o, b ≤ l → h !! l = Some o → ∀ k y, (k, VRef y) ∈ o → b ≤ y < length h.

(** [h2] is [h1] but for the objects from address [b] on. *)
Definition only_above (b : nat) (h1 h2 : list (list (string * val))) : Prop :=
  take b h2 = take b h1 ∧ length h2 = length h1.

(** The [[SetData]] of the set of a channel. *)
Definition set_of (r : Registry) (channel : string) : list (option callback) :=
  match channels r !! channel with
  | Some sid => default [] (sets r !! sid)
  | None => []
  end.

(** What the loop of [localDispatch] does with the subscribers [cbs]
    from the heap [h] on: each in turn is handed a fresh deep copy of
    the payload and the return channel as it is, and changes its own
    copy at most; the loop ends with the last subscriber, or with the
    first one that throws. *)
Inductive delivers (payload rc : val) :
    list (list (string * val)) → list callback →
    list (list (string * val)) → list event → option string → Prop :=
| delivers_nil h : delivers payload rc h [] h [] None
| delivers_next h cb cbs h1 arg h2 h3 evs thrown :
    fresh_copy h payload h1 arg →
    only_above (length h) h1 h2 →
    delivers payload rc h2 cbs h3 evs thrown →
    delivers payload rc h (cb :: cbs) h3 (EvCall cb arg rc :: evs) thrown
| delivers_threw h cb cbs h1 arg h2 msg :
    fresh_copy h payload h1 arg →
    only_above (length h) h1 h2 →
    delivers payload rc h (cb :: cbs) h2 [EvCall cb arg rc] (Some msg).

(** The event that the rejected promise of [localDispatch] leaves. *)
Definition uncaught (thrown : option string) : list event :=
  match thrown with Some msg => [EvUncaught msg] | None => [] end.

(** ** A program to try the bus on *)

(** Function 0 replies on the return channel with what it received,
    1 throws, 2 writes into the value it is handed, 3 unsubscribes 2
    from the channel [news]; the others do nothing. *)
Definition example_code (f : nat) : list action :=
  match f with
  | 0 => [ADispatch ChReturn EArg (mkOptions VUndefined VUndefined)]
  | 1 => [AThrow "boom"]
  | 2 => [ASet EArg "seen" (ELit (VBool true))]
  | 3 => [AUnsubscribe (ChLit "news") 2]
  | _ => []
  end.

Definition example_random (k : nat) : N := 123456789%N.

(** The world an input leaves, or the world it started from if the run
    did not end. *)
Definition after (isRenderer : bool) (w : World) (i : ElectronBus.input) : World :=
  default w (ElectronBus.world_of
               (ElectronBus.step example_code example_random isRenderer 8 w i)).

(** A bus in the main process without remotes, and one in a renderer. *)
Definition main_bus : World := mkWorld [] empty_registry [] 0 [] [] 0 [].
Definition renderer_bus : World :=
  mkWorld [] empty_registry [IpcRenderer] 1 [] [] 0 [].

(** [dispatch("ask", null, {waiting: true, timeout: t})] on the main bus. *)
Definition asking (t : val) : World :=
  after false main_bus
    (ElectronBus.IRun [ADispatch (ChLit "ask") (ELit VNull) (mkOptions (VBool true) t)]).

(** The main bus with the functions [fs] subscribed to [news] and the
    object [{n: 1}] allocated. *)
Definition news_bus (fs : list nat) : World :=
  after false
    (after false main_bus (ElectronBus.IRun (ASubscribe (ChLit "news") <$> fs)))
    (ElectronBus.IAlloc [("n", VNum 1)]).


(** ** ElectronBus.js: the process, the options, the return channel *)

(** [get isRenderer()]:
    [Boolean(process && process.type && process.type === "renderer")],
    over the value of the global [process]. *)
Definition get_isRenderer (h : heap_t) (process : val) : completion bool :=
  if truthy process then
    match get_prop h process "type" with
    | Throw e => Throw e
    | Normal t =>
        if truthy t then
          match get_prop h process "type" with
          | Throw e => Throw e
          | Normal t' => Normal (truthy (VBool (strict_eq t' (VStr "renderer"))))
          end
        else Normal (truthy t)
    end
  else Normal (truthy process).

(** The parameter [options = {}] of [dispatch] and
    [const {waiting, timeout} = Object(options)]: the default stands for
    [undefined], [Object(null)] is an empty object, and the wrapper of a
    primitive has neither property. *)
Definition unpack_options (h : heap_t) (opts : val) : options :=
  match opts with
  | VRef l =>
      let ob := default [] (h !! l) in
      mkOptions (get_own ob "waiting") (get_own ob "timeout")
  | _ => mkOptions VUndefined VUndefined
  end.

(** [bus.dispatch(channel, payload, opts)] as a program calls it. *)
Definition dispatch_call (behaviour : nat → list action) (random : nat → N)
    (fuel : nat) (w : World) (channel : string) (payload opts : val) : outcome :=
  ElectronBus.dispatch behaviour random fuel w channel payload
    (unpack_options (heap w) opts).

(** [parseInt(s, 36)] on a numeral in digits and lower-case letters, to
    read back what [toString(36)] wrote; anything else is no numeral. *)
Definition digit36_value (c : ascii) : option N :=
  let n := N_of_ascii c in
  if ((48 <=? n) && (n <=? 57))%N then Some (n - 48)%N
  else if ((97 <=? n) && (n <=? 122))%N then Some (n - 87)%N
  else None.

Fixpoint parseInt36_from (acc : N) (s : string) : option N :=
  match s with
  | EmptyString => Some acc
  | String c s' =>
      match digit36_value c with
      | Some d => parseInt36_from (acc * 36 + d)%N s'
      | None => None
      end
  end.

Definition parseInt36 (s : string) : option N :=
  match s with
  | EmptyString => None
  | _ => parseInt36_from 0%N s
  end.

(** ** Counting calls *)

(** Callback [cb] is called. *)
Definition is_call (cb : callback) (e : event) : bool :=
  match e with EvCall cb' _ _ => bool_decide (cb' = cb) | _ => false end.

(** ** Subscribers that unsubscribe themselves *)



(** The [[SetData]] [d] once the iterator is at [idx] and every
    subscriber before it has run to its end: those that unsubscribe
    have left a hole. *)
Definition served (keeps : callback → bool) (idx : nat)
    (d : list (option callback)) : list (option callback) :=
  imap (fun j e =>
          if decide (j < idx)
          then match e with
               | Some cb => if keeps cb then e else None
               | None => None
               end
          else e) d.

(** ** A request that is answered *)

(** The world in which the closure of the [n]-th [dispatch] leaves the
    bus when it is the only subscriber of the return channel [rc]: [i]
    is its timer, [sid] the set of the return channel, [h] the heap with
    the copy [arg] of the response. *)
Definition answered (w : World) (n i sid : nat) (a : activation)
    (rc : string) (h : list (list (string * val))) (arg rc' : val) : World :=
  mkWorld h
    (mkRegistry (alter (fun d => set_delete d (Responder n)) sid (sets (registry w)))
                (delete rc (channels (registry w))))
    (remotes w) (listeners w)
    (<[n := ElectronBus.set_result (Resolved arg) a]> (calls w))
    (alter ElectronBus.disarm i (timers w)) (draws w)
    (trace w ++ [EvCall (Responder n) arg rc'; EvSettle n (Resolved arg)]).

(** ** More of the program to try the bus on *)

(** A bus in a renderer with function 2 subscribed to [news], the object
    [{n: 1}], and an envelope for [news] that holds it, as a message
    from the main process brings one. *)
Definition inbox_bus : World :=
  after true
    (after true
       (after true renderer_bus (ElectronBus.IRun [ASubscribe (ChLit "news") 2]))
       (ElectronBus.IAlloc [("n", VNum 1)]))
    (ElectronBus.IAlloc
       (MessageEnvelope.constructor (VStr "news") (VRef 0) VUndefined)).

(** The registry with functions 0 and 1 subscribed to [log]. *)
Definition log_registry : Registry :=
  apply_ops empty_registry [OpSubscribe "log" (User 0); OpSubscribe "log" (User 1)].



(** * Properties *)

(** ** The envelope *)

Lemma truthy_marker : truthy (VStr MessageEnvelope.TYPE) = true.
Proof. reflexivity. Qed.





(** ** The channel registry *)

Lemma set_elements_app (d1 d2 : set_data) :
  set_elements (d1 ++ d2) = set_elements d1 ++ set_elements d2.
Proof. apply omap_app. Qed.

Lemma elem_of_set_elements (d : set_data) (cb : callback) :
  cb ∈ set_elements d ↔ Some cb ∈ d.
Proof.
  unfold set_elements. rewrite list_elem_of_omap. split.
  - intros (x & Hx & Heq). simpl in Heq. by subst.
  - intros H. by exists (Some cb).
Qed.

Lemma set_elements_add (d : set_data) (cb : callback) :
  set_elements (set_add d cb) =
  if bool_decide (cb ∈ set_elements d) then set_elements d
  else set_elements d ++ [cb].
Proof.
  unfold set_add, set_has. case_bool_decide; [done|].
  by rewrite set_elements_app.
Qed.

Lemma set_elements_delete (d : set_data) (cb : callback) :
  set_elements (set_delete d cb) = filter (fun x => x ≠ cb) (set_elements d).
Proof.
  unfold set_delete, set_elements.
  induction d as [|[x|] d IH]; csimpl; [done| |done].
  case_decide as Heq.
  - injection Heq as ->. rewrite filter_cons_False by (intros H; by apply H).
    csimpl. apply IH.
  - rewrite filter_cons_True by congruence. csimpl. by rewrite IH.
Qed.

Lemma set_delete_idemp (d : set_data) (cb : callback) :
  set_delete (set_delete d cb) cb = set_delete d cb.
Proof.
  unfold set_delete. rewrite <- list_fmap_compose.
  apply list_fmap_ext. intros i x _. simpl.
  repeat case_decide; congruence.
Qed.

Lemma set_delete_absent (d : set_data) (cb : callback) :
  Some cb ∉ d → set_delete d cb = d.
Proof.
  intros H. unfold set_delete.
  rewrite <- (list_fmap_id d) at 2.
  apply list_fmap_ext. intros i x Hx. simpl.
  case_decide; [|done]. subst. exfalso. apply H.
  eapply list_elem_of_lookup_2; eauto.
Qed.

Lemma elem_of_set_delete (d : set_data) (cb cb' : callback) :
  Some cb' ∈ set_delete d cb ↔ Some cb' ∈ d ∧ cb' ≠ cb.
Proof.
  rewrite <- !elem_of_set_elements, set_elements_delete, list_elem_of_filter.
  tauto.
Qed.

Lemma elem_of_set_add (d : set_data) (cb cb' : callback) :
  Some cb' ∈ set_add d cb ↔ Some cb' ∈ d ∨ cb' = cb.
Proof.
  rewrite <- !elem_of_set_elements, set_elements_add.
  case_bool_decide.
  - split; [tauto|]. intros [?| ->]; done.
  - rewrite elem_of_app, list_elem_of_singleton. tauto.
Qed.

(** *** [subscribe] *)

Lemma subscribe_absent (r : Registry) (c : string) (cb : callback) :
  channels r !! c = None →
  (subscribe r c cb).1 =
  mkRegistry (sets r ++ [[Some cb]]) (<[c := length (sets r)]> (channels r)).
Proof.
  intros H. unfold subscribe. rewrite H. simpl.
  rewrite lookup_insert_eq. f_equal.
  assert (Hl : (sets r ++ [[]]) !! length (sets r) = Some ([] : set_data))
    by (rewrite lookup_app_r, Nat.sub_diag by lia; done).
  apply list_eq. intros i.
  destruct (decide (i = length (sets r))) as [-> | Hne].
  - rewrite list_lookup_alter_eq, Hl.
    rewrite lookup_app_r, Nat.sub_diag by lia. done.
  - rewrite list_lookup_alter_ne by done.
    destruct (decide (i < length (sets r))).
    + by rewrite !lookup_app_l by lia.
    + rewrite !lookup_app_r by lia.
      destruct (i - length (sets r)) as [|k] eqn:Hk; [lia|done].
Qed.

Lemma subscribe_pair (r : Registry) (c : string) (cb : callback) :
  subscribe r c cb = ((subscribe r c cb).1, mkSubscription c cb).
Proof. reflexivity. Qed.

Lemma subscribe_present (r : Registry) (c : string) (cb : callback) (sid : nat) :
  channels r !! c = Some sid →
  (subscribe r c cb).1 =
  mkRegistry (alter (fun d => set_add d cb) sid (sets r)) (channels r).
Proof. intros H. unfold subscribe. rewrite H. simpl. by rewrite H. Qed.

Lemma subscribers_lookup (r : Registry) (c : string) (sid : nat) (d : set_data) :
  channels r !! c = Some sid → sets r !! sid = Some d →
  subscribers r c = set_elements d.
Proof. intros H1 H2. unfold subscribers. by rewrite H1, H2. Qed.

Lemma subscribers_absent (r : Registry) (c : string) :
  channels r !! c = None → subscribers r c = [].
Proof. intros H. unfold subscribers. by rewrite H. Qed.

Lemma registry_ok_present (r : Registry) (c : string) :
  registry_ok r → (is_Some (channels r !! c) ↔ subscribers r c ≠ []).
Proof.
  intros Hok. split.
  - intros [sid Hsid]. destruct (ok_live r Hok c sid Hsid) as (d & Hd & Hne).
    by rewrite (subscribers_lookup r c sid d).
  - intros Hne. destruct (channels r !! c) eqn:E; [eauto|].
    by rewrite subscribers_absent in Hne.
Qed.

Lemma subscribe_ok (r : Registry) (c : string) (cb : callback) :
  registry_ok r → registry_ok (subscribe r c cb).1.
Proof.
  intros Hok. destruct (channels r !! c) as [sid|] eqn:Hc.
  - rewrite (subscribe_present r c cb sid Hc).
    destruct (ok_live r Hok c sid Hc) as (d0 & Hd0 & Hne0).
    constructor; simpl.
    + intros c' sid' Hc'.
      destruct (ok_live r Hok c' sid' Hc') as (d & Hd & Hne).
      destruct (decide (sid' = sid)) as [-> | Hs].
      * exists (set_add d cb). rewrite list_lookup_alter_eq, Hd. split; [done|].
        rewrite set_elements_add. case_bool_decide; [done|].
        intros Heq. by apply app_nil in Heq as [_ ?].
      * exists d. by rewrite list_lookup_alter_ne.
    + apply (ok_inj r Hok).
    + intros sid' d cb' Hd Hin.
      destruct (decide (sid' = sid)) as [-> | Hs]; [eauto|].
      rewrite list_lookup_alter_ne in Hd by done.
      eapply (ok_attached r Hok); eauto.
  - rewrite (subscribe_absent r c cb Hc).
    assert (Hfresh : ∀ c' sid', channels r !! c' = Some sid' → sid' < length (sets r)).
    { intros c' sid' Hc'. destruct (ok_live r Hok c' sid' Hc') as (d & Hd & _).
      eapply lookup_lt_Some; eauto. }
    constructor; simpl.
    + intros c' sid'. rewrite lookup_insert. case_decide as Hcc.
      * intros [= <-]. exists [Some cb].
        rewrite lookup_app_r, Nat.sub_diag by lia. done.
      * intros Hc'. destruct (ok_live r Hok c' sid' Hc') as (d & Hd & Hne).
        exists d. rewrite lookup_app_l by (eapply lookup_lt_Some; eauto). done.
    + intros c1 c2 sid' H1 H2. rewrite lookup_insert in H1, H2.
      repeat case_decide; simplify_eq; try done;
        try (apply Hfresh in H1; lia); try (apply Hfresh in H2; lia).
      eapply (ok_inj r Hok); eauto.
    + intros sid' d cb' Hd Hin.
      destruct (decide (sid' = length (sets r))) as [-> | Hs].
      * exists c. by rewrite lookup_insert_eq.
      * assert (sid' < length (sets r)).
        { apply lookup_lt_Some in Hd. rewrite length_app in Hd. simpl in Hd. lia. }
        rewrite lookup_app_l in Hd by done.
        destruct (ok_attached r Hok sid' d cb' Hd Hin) as [c' Hc'].
        exists c'. rewrite lookup_insert_ne; [done|]. intros ->. congruence.
Qed.

Lemma subscribe_subscribers (r : Registry) (c : string) (cb : callback) (c' : string) :
  registry_ok r →
  subscribers (subscribe r c cb).1 c' =
  if decide (c' = c)
  then (if bool_decide (cb ∈ subscribers r c) then subscribers r c
        else subscribers r c ++ [cb])
  else subscribers r c'.
Proof.
  intros Hok. destruct (channels r !! c) as [sid|] eqn:Hc.
  - rewrite (subscribe_present r c cb sid Hc).
    destruct (ok_live r Hok c sid Hc) as (d0 & Hd0 & Hne0).
    case_decide as Hcc.
    + subst c'. unfold subscribers at 1. simpl.
      rewrite Hc, list_lookup_alter_eq, Hd0. simpl.
      rewrite (subscribers_lookup r c sid d0) by done.
      apply set_elements_add.
    + unfold subscribers. simpl.
      destruct (channels r !! c') as [sid'|] eqn:Hc'; [|done].
      rewrite list_lookup_alter_ne; [done|].
      intros ->. apply Hcc. eapply (ok_inj r Hok); eauto.
  - rewrite (subscribe_absent r c cb Hc).
    rewrite (subscribers_absent r c Hc).
    rewrite bool_decide_eq_false_2 by (apply not_elem_of_nil).
    case_decide as Hcc.
    + subst c'. unfold subscribers. simpl.
      rewrite lookup_insert_eq, lookup_app_r, Nat.sub_diag by lia. done.
    + unfold subscribers. simpl. rewrite lookup_insert_ne by done.
      destruct (channels r !! c') as [sid'|] eqn:Hc'; [|done].
      destruct (ok_live r Hok c' sid' Hc') as (d & Hd & _).
      rewrite lookup_app_l by (eapply lookup_lt_Some; eauto). done.
Qed.

(** *** [unsubscribe] *)

Lemma unsubscribe_absent (r : Registry) (c : string) (cb : callback) :
  channels r !! c = None → unsubscribe r c cb = r.
Proof. intros H. unfold unsubscribe. by rewrite H. Qed.

Lemma unsubscribe_present (r : Registry) (c : string) (cb : callback)
    (sid : nat) (d : set_data) :
  channels r !! c = Some sid → sets r !! sid = Some d →
  unsubscribe r c cb =
  mkRegistry (alter (fun d => set_delete d cb) sid (sets r))
             (if decide (set_elements (set_delete d cb) = [])
              then delete c (channels r) else channels r).
Proof.
  intros Hc Hd. unfold unsubscribe. rewrite Hc.
  rewrite list_lookup_alter_eq, Hd. simpl. unfold set_size.
  destruct (set_elements (set_delete d cb)); simpl; repeat case_decide; done.
Qed.

Lemma unsubscribe_ok (r : Registry) (c : string) (cb : callback) :
  registry_ok r → registry_ok (unsubscribe r c cb).
Proof.
  intros Hok. destruct (channels r !! c) as [sid|] eqn:Hc.
  2: { by rewrite unsubscribe_absent. }
  destruct (ok_live r Hok c sid Hc) as (d0 & Hd0 & Hne0).
  rewrite (unsubscribe_present r c cb sid d0 Hc Hd0).
  constructor; simpl.
  - intros c' sid' Hc'.
    assert (Hc'' : channels r !! c' = Some sid' ∧
                   (sid' = sid → set_elements (set_delete d0 cb) ≠ [])).
    { case_decide as He.
      - apply lookup_delete_Some in Hc' as [Hcc Hc']. split; [done|].
        intros ->. exfalso. apply Hcc. eapply (ok_inj r Hok); eauto.
      - done. }
    destruct Hc'' as [Hc'' Hsz].
    destruct (ok_live r Hok c' sid' Hc'') as (d & Hd & Hne).
    destruct (decide (sid' = sid)) as [-> | Hs].
    + exists (set_delete d cb). rewrite list_lookup_alter_eq, Hd. split; [done|].
      assert (d = d0) as -> by congruence. by apply Hsz.
    + exists d. by rewrite list_lookup_alter_ne.
  - intros c1 c2 sid' H1 H2. case_decide.
    + apply lookup_delete_Some in H1 as [_ H1].
      apply lookup_delete_Some in H2 as [_ H2].
      eapply (ok_inj r Hok); eauto.
    + eapply (ok_inj r Hok); eauto.
  - intros sid' d cb' Hd Hin.
    destruct (decide (sid' = sid)) as [-> | Hs].
    + rewrite list_lookup_alter_eq, Hd0 in Hd. injection Hd as <-.
      case_decide as He.
      * apply elem_of_set_elements in Hin. rewrite He in Hin.
        by apply not_elem_of_nil in Hin.
      * eauto.
    + rewrite list_lookup_alter_ne in Hd by done.
      destruct (ok_attached r Hok sid' d cb' Hd Hin) as [c' Hc'].
      exists c'. case_decide; [|done].
      rewrite lookup_delete_ne; [done|]. intros ->. congruence.
Qed.

Lemma unsubscribe_subscribers (r : Registry) (c : string) (cb : callback) (c' : string) :
  registry_ok r →
  subscribers (unsubscribe r c cb) c' =
  if decide (c' = c) then filter (fun x => x ≠ cb) (subscribers r c)
  else subscribers r c'.
Proof.
  intros Hok. destruct (channels r !! c) as [sid|] eqn:Hc.
  2: { rewrite unsubscribe_absent by done. case_decide; [|done]. subst.
       by rewrite subscribers_absent. }
  destruct (ok_live r Hok c sid Hc) as (d0 & Hd0 & Hne0).
  rewrite (unsubscribe_present r c cb sid d0 Hc Hd0).
  rewrite (subscribers_lookup r c sid d0) by done.
  rewrite <- set_elements_delete.
  destruct (decide (c' = c)) as [-> | Hcc].
  - unfold subscribers; simpl. case_decide as He.
    + by rewrite lookup_delete_eq, He.
    + by rewrite Hc, list_lookup_alter_eq, Hd0.
  - unfold subscribers; simpl.
    assert (Hch : (if decide (set_elements (set_delete d0 cb) = [])
                   then delete c (channels r) else channels r) !! c'
                  = channels r !! c').
    { case_decide; [by rewrite lookup_delete_ne|done]. }
    rewrite Hch. destruct (channels r !! c') as [sid'|] eqn:Hc'; [|done].
    rewrite list_lookup_alter_ne; [done|].
    intros ->. apply Hcc. eapply (ok_inj r Hok); eauto.
Qed.

Lemma unsubscribe_idemp (r : Registry) (c : string) (cb : callback) :
  unsubscribe (unsubscribe r c cb) c cb = unsubscribe r c cb.
Proof.
  destruct (channels r !! c) as [sid|] eqn:Hc.
  2: { by rewrite !(unsubscribe_absent r c cb Hc). }
  assert (Hs : alter (fun d => set_delete d cb) sid
                 (alter (fun d => set_delete d cb) sid (sets r))
               = alter (fun d => set_delete d cb) sid (sets r)).
  { rewrite list_alter_alter_eq. apply list_alter_ext; [|done].
    intros d _. simpl. apply set_delete_idemp. }
  assert (Hr : unsubscribe r c cb =
               let sets' := alter (fun d => set_delete d cb) sid (sets r) in
               if decide (set_size (default [] (sets' !! sid)) = 0)
               then mkRegistry sets' (delete c (channels r))
               else mkRegistry sets' (channels r))
    by (unfold unsubscribe; by rewrite Hc).
  rewrite Hr. simpl. case_decide as Hsz.
  - apply unsubscribe_absent. simpl. apply lookup_delete_eq.
  - unfold unsubscribe. simpl. rewrite Hc, Hs. by rewrite decide_False by done.
Qed.

Lemma unsubscribe_not_subscribed (r : Registry) (c : string) (cb : callback) :
  registry_ok r → cb ∉ subscribers r c → unsubscribe r c cb = r.
Proof.
  intros Hok Hnot. destruct (channels r !! c) as [sid|] eqn:Hc.
  2: { by apply unsubscribe_absent. }
  destruct (ok_live r Hok c sid Hc) as (d0 & Hd0 & Hne0).
  rewrite (unsubscribe_present r c cb sid d0 Hc Hd0).
  rewrite (subscribers_lookup r c sid d0) in Hnot by done.
  rewrite elem_of_set_elements in Hnot.
  rewrite set_delete_absent by done.
  rewrite decide_False by done.
  destruct r as [ss cs]; simpl in *. f_equal.
  apply list_eq. intros i. destruct (decide (i = sid)) as [-> | Hne].
  - rewrite list_lookup_alter_eq, Hd0. simpl. by rewrite set_delete_absent.
  - by rewrite list_lookup_alter_ne.
Qed.

(** *** Membership through [subscribe] and [unsubscribe] *)

Lemma elem_of_subscribers (r : Registry) (c : string) (cb : callback) :
  registry_ok r →
  cb ∈ subscribers r c ↔ ∃ sid, channels r !! c = Some sid ∧ live r sid cb.
Proof.
  intros Hok. unfold subscribers, live. split.
  - destruct (channels r !! c) as [sid|] eqn:Hc.
    + destruct (ok_live r Hok c sid Hc) as (d & Hd & _). rewrite Hd. simpl.
      rewrite elem_of_set_elements. eauto.
    + intros H. by apply not_elem_of_nil in H.
  - intros (sid & -> & d & -> & Hin). simpl. by apply elem_of_set_elements.
Qed.

Lemma channels_subscribe (r : Registry) (c : string) (cb : callback) c' sid :
  registry_ok r →
  channels (subscribe r c cb).1 !! c' = Some sid ↔
  channels r !! c' = Some sid ∨
  (c' = c ∧ channels r !! c = None ∧ sid = length (sets r)).
Proof.
  intros Hok. destruct (channels r !! c) as [sid0|] eqn:Hc.
  - rewrite (subscribe_present r c cb sid0 Hc). simpl. split; [eauto|].
    intros [?|(_ & ? & _)]; done.
  - rewrite (subscribe_absent r c cb Hc). simpl. rewrite lookup_insert.
    case_decide as Hcc.
    + subst c'. rewrite Hc. split.
      * intros [= <-]. eauto.
      * intros [?|(_ & _ & ->)]; done.
    + split; [eauto|]. intros [?|(-> & _)]; done.
Qed.

Lemma channels_subscribe_is_Some (r : Registry) (c : string) (cb : callback) :
  is_Some (channels (subscribe r c cb).1 !! c).
Proof.
  destruct (channels r !! c) as [sid0|] eqn:Hc.
  - rewrite (subscribe_present r c cb sid0 Hc). simpl. eauto.
  - rewrite (subscribe_absent r c cb Hc). simpl. rewrite lookup_insert_eq. eauto.
Qed.

Lemma live_lt (r : Registry) sid cb : live r sid cb → sid < length (sets r).
Proof. intros (d & Hd & _). eapply lookup_lt_Some; eauto. Qed.

Lemma live_subscribe (r : Registry) (c : string) (cb : callback) sid cb' :
  registry_ok r →
  live (subscribe r c cb).1 sid cb' ↔
  live r sid cb' ∨ (cb' = cb ∧ channels (subscribe r c cb).1 !! c = Some sid).
Proof.
  intros Hok. destruct (channels r !! c) as [sid0|] eqn:Hc.
  - rewrite (subscribe_present r c cb sid0 Hc). unfold live; simpl.
    destruct (ok_live r Hok c sid0 Hc) as (d0 & Hd0 & _).
    destruct (decide (sid = sid0)) as [-> | Hs].
    + rewrite list_lookup_alter_eq, Hd0. simpl. split.
      * intros (d & [= <-] & Hin). apply elem_of_set_add in Hin as [Hin | ->].
        -- left. eauto.
        -- right. done.
      * intros [(d & Hd & Hin) | [-> _]]; eexists; (split; [done|]);
          apply elem_of_set_add; [left; congruence | by right].
    + rewrite list_lookup_alter_ne by done. split; [eauto|].
      intros [? | [_ ?]]; [done | congruence].
  - rewrite (subscribe_absent r c cb Hc). unfold live; simpl.
    rewrite lookup_insert_eq.
    destruct (decide (sid = length (sets r))) as [-> | Hs].
    + rewrite lookup_app_r, Nat.sub_diag by lia. simpl. split.
      * intros (d & [= <-] & Hin). apply list_elem_of_singleton in Hin.
        right. split; congruence.
      * intros [(d & Hd & _) | [-> _]].
        -- apply lookup_lt_Some in Hd. lia.
        -- eexists. split; [done|]. by apply list_elem_of_singleton.
    + split.
      * intros (d & Hd & Hin). left. exists d. split; [|done].
        assert (sid < length (sets r)).
        { apply lookup_lt_Some in Hd. rewrite length_app in Hd. simpl in Hd. lia. }
        by rewrite lookup_app_l in Hd.
      * intros [(d & Hd & Hin) | [_ ?]]; [|congruence].
        exists d. split; [|done].
        rewrite lookup_app_l; [done|]. eapply lookup_lt_Some; eauto.
Qed.

Lemma channels_unsubscribe (r : Registry) (c : string) (cb : callback) c' sid :
  registry_ok r →
  channels (unsubscribe r c cb) !! c' = Some sid ↔
  channels r !! c' = Some sid ∧ (c' = c → ∃ cb', cb' ≠ cb ∧ live r sid cb').
Proof.
  intros Hok. destruct (channels r !! c) as [sid0|] eqn:Hc.
  2: { rewrite unsubscribe_absent by done. split; [|tauto].
       intros H. split; [done|]. intros ->. congruence. }
  destruct (ok_live r Hok c sid0 Hc) as (d0 & Hd0 & Hne0).
  rewrite (unsubscribe_present r c cb sid0 d0 Hc Hd0). simpl.
  assert (Hlive : set_elements (set_delete d0 cb) ≠ [] ↔
                  ∃ cb', cb' ≠ cb ∧ live r sid0 cb').
  { split.
    - intros Hne. destruct (set_elements (set_delete d0 cb)) as [|x l] eqn:E; [done|].
      assert (Hx : x ∈ set_elements (set_delete d0 cb)) by (rewrite E; by left).
      apply elem_of_set_elements, elem_of_set_delete in Hx as [Hx Hxc].
      exists x. split; [done|]. by exists d0.
    - intros (cb' & Hcb' & d & Hd & Hin) E.
      assert (d = d0) as -> by congruence.
      assert (Hx : cb' ∈ set_elements (set_delete d0 cb))
        by (by apply elem_of_set_elements, elem_of_set_delete).
      rewrite E in Hx. by apply not_elem_of_nil in Hx. }
  case_decide as He.
  - rewrite lookup_delete_Some. split.
    + intros [Hcc H]. split; [done|]. by intros ->.
    + intros [H Hex]. split; [|done]. intros <-.
      assert (sid = sid0) as -> by congruence.
      specialize (Hex eq_refl). apply Hlive in Hex. done.
  - split; [|tauto]. intros H. split; [done|]. intros ->.
    assert (sid = sid0) as -> by congruence. by apply Hlive.
Qed.

Lemma live_unsubscribe (r : Registry) (c : string) (cb : callback) sid cb' :
  registry_ok r →
  live (unsubscribe r c cb) sid cb' ↔
  live r sid cb' ∧ ¬ (cb' = cb ∧ channels r !! c = Some sid).
Proof.
  intros Hok. destruct (channels r !! c) as [sid0|] eqn:Hc.
  2: { rewrite unsubscribe_absent by done. split; [|tauto].
       intros H. split; [done|]. intros [_ ?]. done. }
  destruct (ok_live r Hok c sid0 Hc) as (d0 & Hd0 & Hne0).
  rewrite (unsubscribe_present r c cb sid0 d0 Hc Hd0). unfold live; simpl.
  destruct (decide (sid = sid0)) as [-> | Hs].
  - rewrite list_lookup_alter_eq, Hd0. simpl. split.
    + intros (d & [= <-] & Hin). apply elem_of_set_delete in Hin as [Hin Hne].
      split; [eauto|]. by intros [? _].
    + intros [(d & [= <-] & Hin) Hn]. eexists. split; [done|].
      apply elem_of_set_delete. split; [done|]. intros ->. by apply Hn.
  - rewrite list_lookup_alter_ne by done. split; [|tauto].
    intros H. split; [done|]. intros [_ ?]. congruence.
Qed.

(** *** The registry against the subscriptions read off the operations *)

Lemma spec_subscribers_snoc (s : list (string * callback)) c cb c' :
  spec_subscribers (s ++ [(c, cb)]) c' =
  spec_subscribers s c' ++ (if decide (c' = c) then [cb] else []).
Proof.
  unfold spec_subscribers. rewrite omap_app. f_equal. csimpl.
  destruct (decide (c = c')), (decide (c' = c)); congruence.
Qed.

Lemma elem_of_spec_subscribers (s : list (string * callback)) c cb :
  cb ∈ spec_subscribers s c ↔ (c, cb) ∈ s.
Proof.
  unfold spec_subscribers. rewrite list_elem_of_omap. split.
  - intros ([c' cb'] & Hin & Heq). simpl in Heq. case_decide; [|done].
    by simplify_eq.
  - intros Hin. exists (c, cb). split; [done|]. simpl. by rewrite decide_True.
Qed.

Lemma spec_subscribers_filter (s : list (string * callback)) c cb c' :
  spec_subscribers (filter (fun p => p ≠ (c, cb)) s) c' =
  if decide (c' = c) then filter (fun x => x ≠ cb) (spec_subscribers s c)
  else spec_subscribers s c'.
Proof.
  unfold spec_subscribers.
  induction s as [|[c0 cb0] s IH]; csimpl; [by case_decide|].
  destruct (decide ((c0, cb0) = (c, cb))) as [Heq | Hne].
  - injection Heq as -> ->. rewrite filter_cons_False by (intros H; by apply H).
    rewrite IH. case_decide as Hcc.
    + subst. rewrite decide_True by done. csimpl.
      by rewrite filter_cons_False by (intros H; by apply H).
    + rewrite decide_False by congruence. done.
  - rewrite filter_cons_True by done. csimpl. rewrite IH.
    destruct (decide (c' = c)) as [-> | Hcc].
    + destruct (decide (c0 = c)) as [-> | Hc0]; csimpl; [|done].
      rewrite filter_cons_True by congruence. done.
    + destruct (decide (c0 = c')); done.
Qed.

Lemma apply_ops_refines (ops : list registry_op) :
  registry_ok (apply_ops empty_registry ops) ∧
  ∀ c, subscribers (apply_ops empty_registry ops) c
       = spec_subscribers (spec_subscriptions ops) c.
Proof.
  unfold apply_ops, spec_subscriptions.
  induction ops as [|op ops [IHok IH]] using rev_ind.
  - split; [|done]. constructor; simpl.
    + intros c sid H. by rewrite lookup_empty in H.
    + intros c1 c2 sid H. by rewrite lookup_empty in H.
    + intros sid d cb H. by rewrite lookup_nil in H.
  - rewrite !foldl_snoc. destruct op as [c cb | c cb]; cbn [apply_op spec_apply_op].
    + split; [by apply subscribe_ok|]. intros c'.
      rewrite subscribe_subscribers by done. rewrite !IH.
      rewrite (bool_decide_ext _ _ (elem_of_spec_subscribers _ c cb)).
      case_bool_decide.
      * case_decide; by subst.
      * rewrite spec_subscribers_snoc. case_decide; [by subst|].
        by rewrite app_nil_r.
    + split; [by apply unsubscribe_ok|]. intros c'.
      rewrite unsubscribe_subscribers by done. rewrite !IH.
      by rewrite spec_subscribers_filter.
Qed.

(** C4: after any sequence of [subscribe] and [unsubscribe] calls on the
    empty registry, a channel name is a key of the channel map exactly
    when its subscriber set has a member, which is exactly when a
    subscription to it was made and not undone; the subscribers are
    those subscriptions, in order.  [subscribe] on a channel that is not
    in the map puts it there, and [unsubscribe] of the only subscriber
    of a channel takes the channel out of the map. *)
Theorem channel_registered_iff_subscribed (ops : list registry_op) (c : string) :
  let r := apply_ops empty_registry ops in
  (is_Some (channels r !! c) ↔ subscribers r c ≠ []) ∧
  (is_Some (channels r !! c) ↔ ∃ cb, (c, cb) ∈ spec_subscriptions ops) ∧
  subscribers r c = spec_subscribers (spec_subscriptions ops) c ∧
  (∀ cb, channels r !! c = None →
         is_Some (channels (subscribe r c cb).1 !! c) ∧
         subscribers (subscribe r c cb).1 c = [cb]) ∧
  (∀ cb, subscribers r c = [cb] → channels (unsubscribe r c cb) !! c = None).
Proof.
  intros r. destruct (apply_ops_refines ops) as [Hok Href]. fold r in Hok, Href.
  assert (Hiff := registry_ok_present r c Hok).
  split_and!; [done| |done| |].
  - rewrite Hiff, Href. split.
    + intros Hne. destruct (spec_subscribers _ c) as [|cb l] eqn:E; [done|].
      exists cb. apply elem_of_spec_subscribers. rewrite E. by left.
    + intros [cb Hin]. apply elem_of_spec_subscribers in Hin.
      intros E. rewrite E in Hin. by apply not_elem_of_nil in Hin.
  - intros cb Hnone. rewrite subscribe_absent by done. simpl. split.
    + rewrite lookup_insert_eq. eauto.
    + unfold subscribers. simpl.
      rewrite lookup_insert_eq, lookup_app_r, Nat.sub_diag by lia. done.
  - intros cb Hone.
    assert (Hsub := unsubscribe_subscribers r c cb c Hok).
    rewrite decide_True, Hone in Hsub by done.
    rewrite filter_cons_False, filter_nil in Hsub by (intros H; by apply H).
    destruct (channels (unsubscribe r c cb) !! c) eqn:E; [|done].
    exfalso. eapply (registry_ok_present _ c (unsubscribe_ok r c cb Hok)); eauto.
Qed.

(** C9: [unsubscribe] cannot throw (it is a total function of the
    registry); a second call in a row changes nothing, and neither does
    a call for a channel that is not in the map or for a callback that
    is not subscribed to the channel. *)
Theorem unsubscribe_idempotent (r : Registry) (c : string) (cb : callback) :
  unsubscribe (unsubscribe r c cb) c cb = unsubscribe r c cb ∧
  (channels r !! c = None → unsubscribe r c cb = r) ∧
  (registry_ok r → cb ∉ subscribers r c → unsubscribe r c cb = r).
Proof.
  split_and!.
  - apply unsubscribe_idemp.
  - apply unsubscribe_absent.
  - apply unsubscribe_not_subscribed.
Qed.
(** ** The invariant of the bus *)

Import ElectronBus.

Opaque subscribe unsubscribe.

Lemma count_app (p : event → bool) (l1 l2 : list event) :
  count p (l1 ++ l2) = count p l1 + count p l2.
Proof. induction l1 as [|e l1 IH]; simpl; [done|]. rewrite IH. lia. Qed.

Lemma count_snoc (p : event → bool) (l : list event) (e : event) :
  count p (l ++ [e]) = count p l + (if p e then 1 else 0).
Proof. rewrite count_app. simpl. lia. Qed.

(** *** [extends] is a preorder *)

Lemma extends_refl (w : World) : extends w w.
Proof.
  constructor; try done.
  - intros i s H. exists s. done.
  - intros n a H. exists a. done.
  - exists []. rewrite app_nil_r. split; [done|].
    intros r m H. by apply not_elem_of_nil in H.
Qed.

Lemma extends_trans (w1 w2 w3 : World) :
  extends w1 w2 → extends w2 w3 → extends w1 w3.
Proof.
  intros H12 H23. constructor.
  - rewrite (ext_remotes _ _ H23). apply (ext_remotes _ _ H12).
  - rewrite (ext_listeners _ _ H23). apply (ext_listeners _ _ H12).
  - intros i s H.
    destruct (ext_timers _ _ H12 i s H) as (s2 & H2 & Hd2 & Ho2 & Ha2).
    destruct (ext_timers _ _ H23 i s2 H2) as (s3 & H3 & Hd3 & Ho3 & Ha3).
    exists s3. split_and!; [done|congruence|congruence|tauto].
  - intros n a H.
    destruct (ext_calls _ _ H12 n a H) as (a2 & H2 & Hc2 & Hp2 & Ht2 & Hr2).
    destruct (ext_calls _ _ H23 n a2 H2) as (a3 & H3 & Hc3 & Hp3 & Ht3 & Hr3).
    exists a3. split_and!; [done|congruence..|].
    intros Hs. rewrite Hr3; rewrite Hr2; done.
  - destruct (ext_trace _ _ H12) as (n12 & E12 & S12).
    destruct (ext_trace _ _ H23) as (n23 & E23 & S23).
    exists (n12 ++ n23). split.
    + rewrite E23, E12. by rewrite app_assoc.
    + intros r m Hin. apply elem_of_app in Hin as [Hin|Hin]; [eauto|].
      rewrite <- (ext_remotes _ _ H12). eauto.
Qed.

Lemma post_trans (w w1 : World) (o : outcome) :
  extends w w1 → post w1 o → post w o.
Proof.
  intros He. destruct o as [w'|w' m|]; simpl; [| |done];
    intros [Hok He']; split; try done; eapply extends_trans; eauto.
Qed.

(** Changes that leave the timers and the activations alone. *)
Lemma extends_same (w w' : World) :
  remotes w' = remotes w → listeners w' = listeners w →
  timers w' = timers w → calls w' = calls w →
  (∃ new, trace w' = trace w ++ new ∧ ∀ r m, EvSend r m ∈ new → r ∈ remotes w) →
  extends w w'.
Proof.
  intros Hr Hl Ht Hc Htr. constructor; try done.
  - intros i s H. exists s. rewrite Ht. done.
  - intros n a H. exists a. rewrite Hc. done.
Qed.

Lemma trace_same (w w' : World) :
  trace w' = trace w →
  ∃ new, trace w' = trace w ++ new ∧ ∀ r m, EvSend r m ∈ new → r ∈ remotes w.
Proof.
  intros ->. exists []. rewrite app_nil_r. split; [done|].
  intros r m H. by apply not_elem_of_nil in H.
Qed.

Lemma trace_one (w w' : World) (e : event) :
  trace w' = trace w ++ [e] →
  (∀ r m, e = EvSend r m → r ∈ remotes w) →
  ∃ new, trace w' = trace w ++ new ∧ ∀ r m, EvSend r m ∈ new → r ∈ remotes w.
Proof.
  intros -> He. exists [e]. split; [done|].
  intros r m H. apply list_elem_of_singleton in H. eauto.
Qed.

(** *** Changes that the invariant does not look at *)

Lemma paths_ran_same (tr tr' : list event) (n i : nat) (s : settlement) :
  count (is_response n) tr' = count (is_response n) tr →
  count (is_timeout i) tr' = count (is_timeout i) tr →
  paths_ran tr n i s → paths_ran tr' n i s.
Proof. intros H1 H2. unfold paths_ran. rewrite H1, H2. done. Qed.

Lemma bus_ok_neutral (w w' : World) :
  registry w' = registry w → calls w' = calls w → timers w' = timers w →
  same_counts (trace w) (trace w') →
  bus_ok w → bus_ok w'.
Proof.
  intros Hr Hc Ht (Hs1 & Hs2 & Hs3) Hok. constructor.
  - rewrite Hr. apply Hok.
  - rewrite Hr, Hc. apply Hok.
  - intros n a Ha. rewrite Hc in Ha.
    pose proof (bus_calls w Hok n a Ha) as [H1 H2].
    unfold activation_ok. rewrite Hs1, Hs2, Hr, Ht. split; [done|].
    destruct (returnPath a); [|done].
    destruct H2 as (rc & i & slot & ? & ? & ? & ? & ? & Hpr & ? & ?).
    exists rc, i, slot. split_and!; try done.
    eapply paths_ran_same; [..|exact Hpr]; done.
  - rewrite Ht, Hc. apply Hok.
  - intros n. rewrite Hc, Hs1, Hs2. apply Hok.
  - intros i. rewrite Ht, Hs3. apply Hok.
Qed.

Lemma same_counts_refl (tr : list event) : same_counts tr tr.
Proof. done. Qed.

Lemma same_counts_snoc (tr : list event) (e : event) :
  (∀ n, is_settle n e = false) → (∀ n, is_response n e = false) →
  (∀ i, is_timeout i e = false) →
  same_counts tr (tr ++ [e]).
Proof.
  intros H1 H2 H3. split_and!; intros n; rewrite count_snoc;
    rewrite ?H1, ?H2, ?H3; lia.
Qed.

(** *** Subscriptions of user functions *)

Lemma bus_ok_registry (w : World) (r' : Registry) :
  registry_ok r' →
  (∀ sid n, live r' sid (Responder n) ↔ live (registry w) sid (Responder n)) →
  (∀ rc sid n, channels (registry w) !! rc = Some sid →
               live (registry w) sid (Responder n) →
               channels r' !! rc = Some sid) →
  bus_ok w → bus_ok (with_registry r' w).
Proof.
  intros Hr' Hlive Hch Hok. constructor; simpl; try apply Hok.
  - done.
  - intros sid n Hl. apply Hlive in Hl.
    destruct (bus_responders w Hok sid n Hl) as (a & rc & Ha & Hp & Hrp & Hc).
    exists a, rc. split_and!; eauto.
  - intros n a Ha. pose proof (bus_calls w Hok n a Ha) as [H1 H2].
    split; [done|]. simpl. destruct (returnPath a); [|done].
    destruct H2 as (rc & i & slot & ? & ? & ? & ? & ? & ? & ? & Hp).
    exists rc, i, slot. split_and!; try done.
    intros Hpend. destruct (Hp Hpend) as (sid & Hc & Hl).
    exists sid. split; [eauto|]. by apply Hlive.
Qed.

Lemma bus_ok_subscribe_user (w : World) (c : string) (f : nat) :
  bus_ok w → bus_ok (with_registry (subscribe (registry w) c (User f)).1 w).
Proof.
  intros Hok. pose proof (bus_registry w Hok) as Hr.
  apply bus_ok_registry; [by apply subscribe_ok| | |done].
  - intros sid n. rewrite live_subscribe by done. split; [|tauto].
    intros [?|[? _]]; done.
  - intros rc sid n Hc _. apply channels_subscribe; [done|]. by left.
Qed.

Lemma bus_ok_unsubscribe_user (w : World) (c : string) (f : nat) :
  bus_ok w → bus_ok (with_registry (unsubscribe (registry w) c (User f)) w).
Proof.
  intros Hok. pose proof (bus_registry w Hok) as Hr.
  apply bus_ok_registry; [by apply unsubscribe_ok| | |done].
  - intros sid n. rewrite live_unsubscribe by done. split; [tauto|].
    intros H. split; [done|]. intros [? _]. done.
  - intros rc sid n Hc Hl. apply channels_unsubscribe; [done|].
    split; [done|]. intros _. exists (Responder n). done.
Qed.

Lemma extends_with_registry (w : World) (r : Registry) :
  extends w (with_registry r w).
Proof. apply extends_same; try done. by apply trace_same. Qed.

Lemma extends_with_heap (w : World) (h : list (list (string * val))) :
  extends w (with_heap h w).
Proof. apply extends_same; try done. by apply trace_same. Qed.

Lemma bus_ok_with_heap (w : World) (h : list (list (string * val))) :
  bus_ok w → bus_ok (with_heap h w).
Proof. by apply bus_ok_neutral. Qed.

Lemma bus_ok_log (w : World) (e : event) :
  (∀ n, is_settle n e = false) → (∀ n, is_response n e = false) →
  (∀ i, is_timeout i e = false) →
  bus_ok w → bus_ok (log w e).
Proof.
  intros H1 H2 H3. apply bus_ok_neutral; try done.
  by apply same_counts_snoc.
Qed.

Lemma extends_log (w : World) (e : event) :
  (∀ r m, e = EvSend r m → r ∈ remotes w) → extends w (log w e).
Proof. intros H. apply extends_same; try done. by eapply trace_one. Qed.

(** *** The two closures of a waiting [dispatch] *)

Lemma responder_finish (w : World) (n i : nat) (a : activation) (arg : val) :
  calls w !! n = Some a → timer a = S i →
  responder w n arg = finish w n i (Resolved arg).
Proof. intros Ha Ht. unfold responder, finish. rewrite Ha. simpl. by rewrite Ht. Qed.

Lemma fire_finish (w : World) (i : nat) (s : timer_slot) :
  timers w !! i = Some s → armed s = true →
  fire w i = finish (log w (EvTimeout i)) (owner s) i (Rejected "Time out").
Proof. intros Hs Ha. unfold fire. rewrite Hs, Ha. reflexivity. Qed.

Lemma finish_eq (w : World) (n i : nat) (a : activation) (rc : string)
    (s : settlement) :
  calls w !! n = Some a → result a = Pending →
  returnPath a = Some (mkSubscription rc (Responder n)) →
  finish w n i s =
  mkWorld (heap w) (unsubscribe (registry w) rc (Responder n)) (remotes w)
          (listeners w) (<[n := set_result s a]> (calls w))
          (alter disarm i (timers w)) (draws w) (trace w ++ [EvSettle n s]).
Proof.
  intros Ha Hp Hrp. unfold finish, returnPath_unsubscribe, settle. simpl.
  rewrite Ha, Hrp. simpl. rewrite Ha, Hp. reflexivity.
Qed.

Lemma activation_waiting (w : World) (n : nat) (a : activation) :
  bus_ok w → calls w !! n = Some a → is_Some (returnPath a) →
  ∃ rc i slot,
    returnPath a = Some (mkSubscription rc (Responder n)) ∧
    returnChannel a = VStr rc ∧ timer a = S i ∧
    timers w !! i = Some slot ∧ owner slot = n ∧
    count (is_settle n) (trace w) = (if settled (result a) then 1 else 0) ∧
    paths_ran (trace w) n i (result a) ∧
    armed slot = negb (settled (result a)) ∧
    (result a = Pending →
     ∃ sid, channels (registry w) !! rc = Some sid ∧
            live (registry w) sid (Responder n)).
Proof.
  intros Hok Ha [sub Hsub]. destruct (bus_calls w Hok n a Ha) as [H1 H2].
  rewrite Hsub in H2. destruct H2 as (rc & i & slot & -> & H2).
  exists rc, i, slot. tauto.
Qed.

Lemma timer_owner_inj (w : World) (i j : nat) (s1 s2 : timer_slot) :
  bus_ok w → timers w !! i = Some s1 → timers w !! j = Some s2 →
  owner s1 = owner s2 → i = j.
Proof.
  intros Hok H1 H2 Ho.
  destruct (bus_timers w Hok i s1 H1) as (a1 & Ha1 & Ht1 & _).
  destruct (bus_timers w Hok j s2 H2) as (a2 & Ha2 & Ht2 & _).
  rewrite Ho in Ha1. congruence.
Qed.

Lemma finish_ok (w : World) (h : list (list (string * val))) (e : event)
    (n i : nat) (a : activation) (s : settlement) :
  bus_ok w → calls w !! n = Some a → result a = Pending →
  is_Some (returnPath a) → timer a = S i →
  path_event n i e s →
  bus_ok (finish (log (with_heap h w) e) n i s) ∧
  extends w (finish (log (with_heap h w) e) n i s).
Proof.
  intros Hok Ha Hp Hw Ht He.
  destruct (activation_waiting w n a Hok Ha Hw)
    as (rc & i' & slot & Hrp & Hrc & Ht' & Hslot & Hown & Hcs & Hcp & Harm & Hlive).
  assert (i' = i) as -> by congruence.
  rewrite Hp in Hcs, Hcp, Harm. simpl in Hcs, Hcp, Harm.
  destruct Hcp as [Hcp1 Hcp2].
  destruct (Hlive Hp) as (sid & Hch & Hl). clear Hlive.
  pose proof (bus_registry w Hok) as Hr.
  assert (Hn : n < length (calls w)) by (eapply lookup_lt_Some; eauto).
  rewrite (finish_eq _ n i a rc s) by done. simpl.
  assert (Hs : settled s = true).
  { destruct He as [[_ ->] | (? & ? & _ & ->)]; done. }
  assert (He1 : ∀ m, is_settle m e = false).
  { intros m. destruct He as [[-> _] | (? & ? & -> & _)]; done. }
  assert (He2 : ∀ m, m ≠ n → is_response m e = false).
  { intros m Hm. destruct He as [[-> _] | (? & ? & -> & _)]; [done|]. simpl.
    by rewrite bool_decide_eq_false_2 by congruence. }
  assert (He3 : ∀ j, j ≠ i → is_timeout j e = false).
  { intros j Hj. destruct He as [[-> _] | (? & ? & -> & _)]; [|done]. simpl.
    by rewrite bool_decide_eq_false_2 by congruence. }
  split.
  - constructor; simpl.
    + by apply unsubscribe_ok.
    + intros sid' m Hl'. apply live_unsubscribe in Hl' as [Hl' Hnot]; [|done].
      destruct (bus_responders w Hok sid' m Hl') as (am & rcm & Ham & Hpm & Hrpm & Hcm).
      assert (Hmn : m ≠ n).
      { intros ->. apply Hnot. split; [done|]. congruence. }
      exists am, rcm. rewrite list_lookup_insert_ne by done. split_and!; try done.
      apply channels_unsubscribe; [done|]. split; [done|].
      intros _. exists (Responder m). split; [congruence|done].
    + intros m am Ham. destruct (decide (m = n)) as [-> | Hmn].
      * rewrite list_lookup_insert_eq in Ham by done. injection Ham as <-.
        unfold activation_ok; simpl. rewrite Hs, Hrp.
        rewrite !count_snoc, He1. simpl. rewrite bool_decide_eq_true_2 by done.
        split; [lia|].
        exists rc, i, (disarm slot). split_and!; try done.
        -- by rewrite list_lookup_alter_eq, Hslot.
        -- unfold paths_ran. rewrite !count_snoc. simpl.
           destruct He as [[-> ->] | (? & ? & -> & ->)]; simpl;
             rewrite bool_decide_eq_true_2 by done; split_and!; try done; lia.
        -- intros ->. done.
      * rewrite list_lookup_insert_ne in Ham by done.
        destruct (bus_calls w Hok m am Ham) as [H1 H2].
        unfold activation_ok; simpl.
        rewrite !count_snoc, He1, He2 by done. simpl.
        rewrite bool_decide_eq_false_2 by congruence.
        split; [lia|].
        destruct (returnPath am) as [subm|] eqn:Hrpm.
        2: { destruct H2 as (? & ? & ?). split_and!; [done..|lia]. }
        destruct H2 as (rcm & im & slotm & -> & ? & ? & Hsm & Hom & Hcm & ? & Hlm).
        assert (Him : im ≠ i).
        { intros ->. apply Hmn. congruence. }
        exists rcm, im, slotm. split_and!; try done.
        -- by rewrite list_lookup_alter_ne.
        -- eapply paths_ran_same; [..|exact Hcm].
           ++ rewrite !count_snoc, He2 by done. simpl. lia.
           ++ rewrite !count_snoc, He3 by done. simpl. lia.
        -- intros Hpm. destruct (Hlm Hpm) as (sidm & Hchm & Hlm').
           exists sidm. split.
           ++ apply channels_unsubscribe; [done|]. split; [done|].
              intros _. exists (Responder m). split; [congruence|done].
           ++ apply live_unsubscribe; [done|]. split; [done|].
              intros [? _]. congruence.
    + intros j sj Hj.
      assert (∃ s0, timers w !! j = Some s0 ∧ owner s0 = owner sj) as (s0 & Hs0 & Ho).
      { destruct (decide (j = i)) as [-> | Hji].
        - rewrite list_lookup_alter_eq, Hslot in Hj. injection Hj as <-. eauto.
        - rewrite list_lookup_alter_ne in Hj by done. eauto. }
      destruct (bus_timers w Hok j s0 Hs0) as (a0 & Ha0 & Ht0 & Hw0).
      rewrite <- Ho. destruct (decide (owner s0 = n)) as [Hon | Hon].
      * rewrite Hon in *. rewrite list_lookup_insert_eq by done.
        assert (a0 = a) as -> by congruence. eexists. split; [done|]. done.
      * rewrite list_lookup_insert_ne by done. eauto.
    + intros m Hm. rewrite length_insert in Hm.
      destruct (bus_fresh_calls w Hok m Hm) as [H1 H2].
      rewrite !count_snoc, He1, He2 by lia. simpl.
      rewrite bool_decide_eq_false_2 by lia. lia.
    + intros j Hj. rewrite length_alter in Hj.
      pose proof (bus_fresh_timers w Hok j Hj) as H1.
      assert (i < length (timers w)) by (eapply lookup_lt_Some; eauto).
      rewrite !count_snoc, He3 by lia. simpl. lia.
  - constructor; simpl; try done.
    + intros j sj Hj. destruct (decide (j = i)) as [-> | Hji].
      * rewrite list_lookup_alter_eq, Hj. simpl. eexists. split; [done|]. done.
      * rewrite list_lookup_alter_ne by done. exists sj. done.
    + intros m am Ham. destruct (decide (m = n)) as [-> | Hmn].
      * rewrite list_lookup_insert_eq by done. eexists. split; [done|].
        assert (am = a) as -> by congruence. simpl. rewrite Hp. done.
      * rewrite list_lookup_insert_ne by done. exists am. done.
    + exists [e; EvSettle n s]. split; [by rewrite <- app_assoc|].
      intros r m Hin. apply elem_of_cons in Hin as [Heq | Hin].
      * destruct He as [[-> _] | (? & ? & -> & _)]; done.
      * by apply list_elem_of_singleton in Hin.
Qed.

(** *** The head of the executor of [dispatch] *)

Lemma alter_snoc {A} (f : A → A) (l : list A) (x : A) :
  alter f (length l) (l ++ [x]) = l ++ [f x].
Proof.
  apply list_eq. intros i. destruct (decide (i = length l)) as [-> | Hne].
  - rewrite list_lookup_alter_eq, !lookup_app_r, Nat.sub_diag by lia. done.
  - rewrite list_lookup_alter_ne by done.
    destruct (decide (i < length l)).
    + by rewrite !lookup_app_l by lia.
    + rewrite !lookup_app_r by lia.
      destruct (i - length l) as [|k] eqn:Hk; [lia|done].
Qed.

Lemma insert_snoc {A} (l : list A) (x y : A) :
  <[length l := y]> (l ++ [x]) = l ++ [y].
Proof.
  apply list_eq. intros i. destruct (decide (i = length l)) as [-> | Hne].
  - rewrite list_lookup_insert_eq by (rewrite length_app; simpl; lia).
    rewrite lookup_app_r, Nat.sub_diag by lia. done.
  - rewrite list_lookup_insert_ne by done.
    destruct (decide (i < length l)).
    + by rewrite !lookup_app_l by lia.
    + rewrite !lookup_app_r by lia.
      destruct (i - length l) as [|k] eqn:Hk; [lia|done].
Qed.

Lemma lookup_snoc_length {A} (l : list A) (x : A) :
  (l ++ [x]) !! length l = Some x.
Proof. rewrite lookup_app_r, Nat.sub_diag by lia. done. Qed.

Section Prepare.

Variable random : nat → N.

Lemma prepare_waiting (w : World) (channel : string) (o : options) :
  truthy (waiting o) = true →
  prepare random w channel o =
  let n := length (calls w) in
  let rc := next_returnChannel random w channel in
  mkWorld (heap w) (subscribe (registry w) rc (Responder n)).1 (remotes w)
          (listeners w)
          (calls w ++ [mkActivation Pending (VStr rc)
                         (Some (mkSubscription rc (Responder n)))
                         (S (length (timers w)))])
          (timers w ++ [mkSlot (deadline o) n true])
          (S (draws w)) (trace w).
Proof.
  intros Hw. unfold prepare. rewrite Hw. simpl.
  rewrite subscribe_pair.
  unfold setTimeout, with_calls, with_registry, next_returnChannel, deadline;
    simpl.
  rewrite !alter_snoc. reflexivity.
Qed.

Lemma prepare_not_waiting (w : World) (channel : string) (o : options) :
  truthy (waiting o) = false →
  prepare random w channel o =
  mkWorld (heap w) (registry w) (remotes w) (listeners w)
          (calls w ++ [mkActivation (Resolved VUndefined) VUndefined None 0])
          (timers w) (draws w)
          (trace w ++ [EvSettle (length (calls w)) (Resolved VUndefined)]).
Proof.
  intros Hw. unfold prepare. rewrite Hw. unfold settle. simpl.
  rewrite lookup_snoc_length. simpl. rewrite insert_snoc. reflexivity.
Qed.

Lemma prepare_ok (w : World) (channel : string) (o : options) :
  bus_ok w →
  bus_ok (prepare random w channel o) ∧ extends w (prepare random w channel o).
Proof.
  intros Hok. pose proof (bus_registry w Hok) as Hr.
  destruct (bus_fresh_calls w Hok (length (calls w)) (le_n _)) as [Hf1 Hf2].
  pose proof (bus_fresh_timers w Hok (length (timers w)) (le_n _)) as Hf3.
  destruct (truthy (waiting o)) eqn:Hw.
  - rewrite prepare_waiting by done. simpl.
    set (n := length (calls w)). set (rc := next_returnChannel random w channel).
    set (act := mkActivation _ _ _ _). set (slot := mkSlot _ _ _).
    split.
    + constructor; simpl.
      * by apply subscribe_ok.
      * intros sid m Hl. apply (live_subscribe _ _ _ _ _ Hr) in Hl as [Hl | [Hm Hc]].
        -- destruct (bus_responders w Hok sid m Hl) as (am & rcm & Ham & ? & ? & ?).
           exists am, rcm. split_and!; try done.
           ++ rewrite lookup_app_l; [done|]. eapply lookup_lt_Some; eauto.
           ++ apply channels_subscribe; [done|]. by left.
        -- injection Hm as ->. exists act, rc. subst n.
           by rewrite lookup_snoc_length.
      * intros m am Ham. destruct (decide (m = n)) as [-> | Hmn].
        -- subst n. rewrite lookup_snoc_length in Ham. injection Ham as <-.
           split; simpl; [done|].
           exists rc, (length (timers w)), slot.
           rewrite lookup_snoc_length. split_and!; try done.
           intros _. destruct (channels_subscribe_is_Some (registry w) rc
                                 (Responder (length (calls w)))) as [sid Hsid].
           exists sid. split; [done|]. apply live_subscribe; [done|]. by right.
        -- assert (Hlt : m < length (calls w)).
           { apply lookup_lt_Some in Ham. rewrite length_app in Ham.
             simpl in Ham. subst n. lia. }
           rewrite lookup_app_l in Ham by done.
           destruct (bus_calls w Hok m am Ham) as [H1 H2].
           split; simpl; [done|].
           destruct (returnPath am); [|done].
           destruct H2 as (rcm & im & slotm & ? & ? & ? & Hsm & ? & ? & ? & Hlm).
           exists rcm, im, slotm. split_and!; try done.
           ++ rewrite lookup_app_l; [done|]. eapply lookup_lt_Some; eauto.
           ++ intros Hp. destruct (Hlm Hp) as (sid & ? & ?). exists sid. split.
              ** apply channels_subscribe; [done|]. by left.
              ** apply live_subscribe; [done|]. by left.
      * intros j sj Hj. destruct (decide (j = length (timers w))) as [-> | Hne].
        -- rewrite lookup_snoc_length in Hj. injection Hj as <-. simpl.
           exists act. subst n. rewrite lookup_snoc_length. split_and!; done.
        -- assert (Hlt : j < length (timers w)).
           { apply lookup_lt_Some in Hj. rewrite length_app in Hj.
             simpl in Hj. lia. }
           rewrite lookup_app_l in Hj by done.
           destruct (bus_timers w Hok j sj Hj) as (a0 & Ha0 & ? & ?).
           exists a0. split_and!; try done.
           rewrite lookup_app_l; [done|]. eapply lookup_lt_Some; eauto.
      * intros m Hm. rewrite length_app in Hm. simpl in Hm.
        apply (bus_fresh_calls w Hok). lia.
      * intros j Hj. rewrite length_app in Hj. simpl in Hj.
        apply (bus_fresh_timers w Hok). lia.
    + constructor; simpl; try done.
      * intros j sj Hj. exists sj. split_and!; try done.
        rewrite lookup_app_l; [done|]. eapply lookup_lt_Some; eauto.
      * intros m am Ham. exists am. split_and!; try done.
        rewrite lookup_app_l; [done|]. eapply lookup_lt_Some; eauto.
      * exists []. rewrite app_nil_r. split; [done|].
        intros r m H. by apply not_elem_of_nil in H.
  - rewrite prepare_not_waiting by done.
    set (n := length (calls w)). set (act := mkActivation _ _ _ _).
    assert (Hs : ∀ m, m ≠ n → is_settle m (EvSettle n (Resolved VUndefined)) = false).
    { intros m Hm. simpl. by rewrite bool_decide_eq_false_2 by congruence. }
    split.
    + constructor; simpl.
      * done.
      * intros sid m Hl.
        destruct (bus_responders w Hok sid m Hl) as (am & rcm & Ham & ? & ? & ?).
        exists am, rcm. split_and!; try done.
        rewrite lookup_app_l; [done|]. eapply lookup_lt_Some; eauto.
      * intros m am Ham. destruct (decide (m = n)) as [-> | Hmn].
        -- subst n. rewrite lookup_snoc_length in Ham. injection Ham as <-.
           split; simpl.
           ++ rewrite count_snoc, Hf1. simpl.
              by rewrite bool_decide_eq_true_2.
           ++ split_and!; try done. by rewrite count_snoc, Hf2.
        -- assert (Hlt : m < length (calls w)).
           { apply lookup_lt_Some in Ham. rewrite length_app in Ham.
             simpl in Ham. subst n. lia. }
           rewrite lookup_app_l in Ham by done.
           destruct (bus_calls w Hok m am Ham) as [H1 H2].
           split; simpl.
           ++ rewrite count_snoc, Hs by done. lia.
           ++ rewrite !count_snoc. simpl. rewrite Nat.add_0_r.
              destruct (returnPath am); [|done].
              destruct H2 as (rcm & im & slotm & ? & ? & ? & ? & ? & Hpr & ? & ?).
              exists rcm, im, slotm. split_and!; try done.
              eapply paths_ran_same; [..|exact Hpr];
                rewrite count_snoc; simpl; lia.
      * intros j sj Hj.
        destruct (bus_timers w Hok j sj Hj) as (a0 & Ha0 & ? & ?).
        exists a0. split_and!; try done.
        rewrite lookup_app_l; [done|]. eapply lookup_lt_Some; eauto.
      * intros m Hm. rewrite length_app in Hm. simpl in Hm.
        destruct (bus_fresh_calls w Hok m) as [H1 H2]; [lia|].
        rewrite !count_snoc, Hs by (subst n; lia). simpl. lia.
      * intros j Hj. rewrite count_snoc. simpl. rewrite Nat.add_0_r.
        by apply (bus_fresh_timers w Hok).
    + constructor; simpl; try done.
      * intros j sj Hj. exists sj. done.
      * intros m am Ham. exists am. split_and!; try done.
        rewrite lookup_app_l; [done|]. eapply lookup_lt_Some; eauto.
      * eexists. split; [done|]. intros r m H.
        by apply list_elem_of_singleton in H.
Qed.

End Prepare.

(** *** The code of the bus keeps the invariant *)

Lemma first_entry_elem (d : list (option callback)) (idx : nat) cb idx' :
  first_entry d idx = Some (cb, idx') → Some cb ∈ d.
Proof.
  revert idx. induction d as [|[x|] d IH]; intros idx; simpl; [done| |].
  - intros [= -> _]. by left.
  - intros H. right. eauto.
Qed.

Lemma next_entry_elem (d : list (option callback)) (idx : nat) cb idx' :
  next_entry d idx = Some (cb, idx') → Some cb ∈ d.
Proof.
  unfold next_entry. intros H. apply first_entry_elem in H.
  rewrite <- (take_drop idx d). apply elem_of_app. by right.
Qed.

Lemma post_done (w : World) : bus_ok w → post w (Done w).
Proof. intros H. split; [done|apply extends_refl]. Qed.

Lemma post_threw (w : World) (m : string) : bus_ok w → post w (Threw w m).
Proof. intros H. split; [done|apply extends_refl]. Qed.

Lemma relay_ok (w : World) (channel : string) (payload rc : val) :
  bus_ok w →
  bus_ok (relay w channel payload rc) ∧ extends w (relay w channel payload rc).
Proof.
  unfold relay.
  assert (Hsub : ∀ r, r ∈ remotes w → r ∈ remotes w) by done.
  revert Hsub. generalize (remotes w) at 1 3 4. intros l. revert w.
  induction l as [|r l IH]; intros w Hsub Hok; simpl.
  - split; [done|apply extends_refl].
  - set (w1 := log _ _).
    assert (Hok1 : bus_ok w1) by (by apply bus_ok_log, bus_ok_with_heap).
    assert (He1 : extends w w1).
    { eapply extends_trans; [apply extends_with_heap|].
      apply extends_log. intros r' m [= <- _]. simpl. apply Hsub. by left. }
    destruct (IH w1) as [Hok2 He2]; [|done|].
    + intros r' Hr'. simpl. apply Hsub. by right.
    + split; [done|]. eapply extends_trans; eauto.
Qed.

Section Invariant.

Variable behaviour : nat → list action.
Variable random : nat → N.
Variable isRenderer : bool.

Section WithLoop.

Variable loop : World → nat → nat → val → val → outcome.
Hypothesis Hloop : loop_ok loop.

Lemma localDispatch_with_ok (w : World) (channel : string) (payload rc : val) :
  bus_ok w → post w (localDispatch_with loop w channel payload rc).
Proof.
  intros Hok. unfold localDispatch_with.
  destruct (channels (registry w) !! channel) as [sid|]; [|by apply post_done].
  pose proof (Hloop w sid 0 payload rc Hok) as Hp.
  destruct (loop w sid 0 payload rc) as [w'|w' m|]; [done| |done].
  destruct Hp as [Hok' He]. split.
  - by apply bus_ok_log.
  - eapply extends_trans; [done|]. by apply extends_log.
Qed.

Lemma dispatch_with_ok (w : World) (channel : string) (payload : val)
    (o : options) :
  bus_ok w → post w (dispatch_with random loop w channel payload o).
Proof.
  intros Hok. unfold dispatch_with.
  destruct (prepare_ok random w channel o Hok) as [Hok1 He1].
  set (w1 := prepare random w channel o) in *.
  set (rc := from_option _ _ _).
  pose proof (localDispatch_with_ok w1 channel payload rc Hok1) as Hp.
  destruct (localDispatch_with loop w1 channel payload rc) as [w'|w' m|];
    [| |done].
  - destruct Hp as [Hok' He']. destruct (relay_ok w' channel payload rc Hok').
    split; [done|]. do 2 (eapply extends_trans; [done|]). done.
  - destruct Hp as [Hok' He']. split; [done|]. by eapply extends_trans.
Qed.

Lemma act_with_ok (w : World) (a : action) (arg rc : val) :
  bus_ok w → post w (act_with random loop w a arg rc).
Proof.
  intros Hok. destruct a as [c f|c f|c e o|t k e|m]; simpl.
  - destruct (chan_name c rc); [|by apply post_done].
    split; [by apply bus_ok_subscribe_user|apply extends_with_registry].
  - destruct (chan_name c rc); [|by apply post_done].
    split; [by apply bus_ok_unsubscribe_user|apply extends_with_registry].
  - destruct (eval (heap w) arg e); [|by apply post_threw].
    destruct (chan_name c rc); [|by apply post_done].
    by apply dispatch_with_ok.
  - destruct (eval (heap w) arg t) as [tv|]; [|by apply post_threw].
    destruct (eval (heap w) arg e) as [v|]; [|by apply post_threw].
    destruct tv; try (by apply post_done); try (by apply post_threw).
    split; [by apply bus_ok_with_heap|apply extends_with_heap].
  - by apply post_threw.
Qed.

Lemma run_with_ok (acts : list action) (w : World) (arg rc : val) :
  bus_ok w → post w (run_with random loop w acts arg rc).
Proof.
  revert w. induction acts as [|a acts IH]; intros w Hok; simpl.
  - by apply post_done.
  - pose proof (act_with_ok w a arg rc Hok) as Hp.
    destruct (act_with random loop w a arg rc) as [w'|w' m|]; [|done|done].
    destruct Hp as [Hok' He]. eapply post_trans; [done|]. by apply IH.
Qed.

Lemma invoke_call_ok (w : World) (h : list (list (string * val)))
    (sid : nat) (cb : callback) (arg rc : val) :
  bus_ok w → live (registry w) sid cb →
  post w (invoke_with behaviour random loop
            (log (with_heap h w) (EvCall cb arg rc)) cb arg rc).
Proof.
  intros Hok Hl. destruct cb as [f|n]; simpl.
  - set (w1 := log _ _).
    assert (Hok1 : bus_ok w1) by (by apply bus_ok_log, bus_ok_with_heap).
    assert (He1 : extends w w1).
    { eapply extends_trans; [apply extends_with_heap|]. by apply extends_log. }
    eapply post_trans; [done|]. by apply run_with_ok.
  - destruct (bus_responders w Hok sid n Hl) as (a & rc' & Ha & Hp & Hrp & Hc).
    destruct (activation_waiting w n a Hok Ha) as (? & i & ? & ? & ? & Ht & _);
      [by rewrite Hrp|].
    rewrite (responder_finish _ n i a) by done.
    apply (finish_ok w h _ n i a _ Hok Ha Hp);
      [by rewrite Hrp | done | right; eauto].
Qed.

Lemma onRemoteMessage_with_ok (w : World) (data : val) :
  bus_ok w → post w (onRemoteMessage_with loop w data).
Proof.
  intros Hok. unfold onRemoteMessage_with.
  destruct (MessageEnvelope.isEnvelope (heap w) data) as [[|]|];
    [|by apply post_done|by apply post_threw].
  destruct (get_prop (heap w) data "channel") as [c|]; [|by apply post_threw].
  destruct (get_prop (heap w) data "payload") as [p|];
    [|destruct c; by apply post_threw].
  destruct (get_prop (heap w) data "returnChannel") as [r|];
    [|destruct c; by apply post_threw].
  destruct c; try (by apply post_done).
  by apply localDispatch_with_ok.
Qed.

End WithLoop.

Lemma for_of_ok (fuel : nat) : loop_ok (for_of behaviour random fuel).
Proof.
  induction fuel as [|fuel IH]; intros w sid idx payload rc Hok; simpl; [done|].
  destruct (next_entry _ idx) as [[cb idx']|] eqn:Hnext; [|by apply post_done].
  destruct (clone (heap w) payload) as [[h arg]|]; [|done].
  assert (Hl : live (registry w) sid cb).
  { destruct (sets (registry w) !! sid) as [d|] eqn:Hd.
    - exists d. split; [done|]. eapply next_entry_elem; eauto.
    - simpl in Hnext. unfold next_entry in Hnext. by rewrite drop_nil in Hnext. }
  pose proof (invoke_call_ok _ IH w h sid cb arg rc Hok Hl) as Hp.
  destruct (invoke_with _ _ _ _ _ _ _) as [w'|w' m|]; [|done|done].
  destruct Hp as [Hok' He]. eapply post_trans; [done|]. by apply IH.
Qed.

Lemma dispatch_ok (fuel : nat) (w : World) (channel : string) (payload : val)
    (o : options) :
  bus_ok w → post w (dispatch behaviour random fuel w channel payload o).
Proof. apply dispatch_with_ok, for_of_ok. Qed.

Lemma localDispatch_ok (fuel : nat) (w : World) (channel : string)
    (payload rc : val) :
  bus_ok w → post w (localDispatch behaviour random fuel w channel payload rc).
Proof. apply localDispatch_with_ok, for_of_ok. Qed.

Lemma fire_ok (w : World) (i : nat) :
  bus_ok w → bus_ok (fire w i) ∧ extends w (fire w i).
Proof.
  intros Hok. destruct (timers w !! i) as [s|] eqn:Hs.
  2: { unfold fire. rewrite Hs. split; [done|apply extends_refl]. }
  destruct (armed s) eqn:Ha.
  2: { unfold fire. rewrite Hs, Ha. split; [done|apply extends_refl]. }
  rewrite (fire_finish w i s) by done.
  destruct (bus_timers w Hok i s Hs) as (a & Hca & Ht & Hw).
  destruct (activation_waiting w (owner s) a Hok Hca Hw)
    as (? & i' & s' & ? & ? & Ht' & Hs' & _ & _ & _ & Harm & _).
  assert (i' = i) as -> by congruence.
  assert (s' = s) as -> by congruence.
  assert (Hp : result a = Pending).
  { rewrite Ha in Harm. destruct (result a); done. }
  change (log w (EvTimeout i)) with (log (with_heap (heap w) w) (EvTimeout i)).
  apply (finish_ok w (heap w) _ (owner s) i a _ Hok Hca Hp);
    [done | done | by left].
Qed.

Lemma attach_ok (w : World) (remote : remote_arg) (w' : World) :
  attach isRenderer w remote = Normal w' → bus_ok w → bus_ok w'.
Proof.
  unfold attach. destruct (isBrowserWindow isRenderer remote); [|done].
  destruct remote as [wc|v]; intros [= <-]; [|done].
  apply bus_ok_neutral; try done.
  all: unfold remotes_add; by case_bool_decide.
Qed.

Lemma deliver_ok (fuel : nat) (data : val) (k : nat) (w : World) :
  bus_ok w → post w (deliver behaviour random fuel w data k).
Proof.
  revert w. induction k as [|k IH]; intros w Hok; simpl; [by apply post_done|].
  pose proof (onRemoteMessage_with_ok _ (for_of_ok fuel) w data Hok) as Hp.
  unfold onRemoteMessage.
  destruct (onRemoteMessage_with _ w data) as [w'|w' m|]; [|done|done].
  destruct Hp as [Hok' He]. eapply post_trans; [done|]. by apply IH.
Qed.

Lemma step_ok (fuel : nat) (w : World) (i : input) (w' : World) :
  bus_ok w →
  world_of (step behaviour random isRenderer fuel w i) = Some w' →
  bus_ok w'.
Proof.
  intros Hok. destruct i as [acts|remote|o|i|data]; simpl.
  - pose proof (run_with_ok _ (for_of_ok fuel) acts w VUndefined VUndefined Hok) as Hp.
    unfold run. destruct (run_with _ _ _ _ _ _) as [w1|w1 m|]; simpl;
      [| |done]; intros [= <-]; apply Hp.
  - destruct (attach isRenderer w remote) as [w1|m] eqn:Ha; simpl; intros [= <-].
    + eapply attach_ok; eauto.
    + done.
  - intros [= <-]. by apply bus_ok_with_heap.
  - intros [= <-]. by apply (proj1 (fire_ok w i Hok)).
  - pose proof (deliver_ok fuel data (listeners w) w Hok) as Hp.
    destruct (deliver _ _ _ _ _ _) as [w1|w1 m|]; simpl;
      [| |done]; intros [= <-]; apply Hp.
Qed.

Lemma empty_world_ok : bus_ok (mkWorld [] empty_registry [] 0 [] [] 0 []).
Proof.
  constructor; simpl.
  - constructor; simpl.
    + intros c sid H. by rewrite lookup_empty in H.
    + intros c1 c2 sid H. by rewrite lookup_empty in H.
    + intros sid d cb H. by rewrite lookup_nil in H.
  - intros sid n (d & Hd & _). simpl in Hd. by rewrite lookup_nil in Hd.
  - intros n a H. by rewrite lookup_nil in H.
  - intros i s H. by rewrite lookup_nil in H.
  - done.
  - done.
Qed.

Lemma constructor_ok (remote : remote_arg) (w : World) :
  constructor isRenderer remote = Normal w → bus_ok w.
Proof.
  unfold constructor. destruct isRenderer eqn:E.
  - intros [= <-]. eapply bus_ok_neutral; [..|apply empty_world_ok]; done.
  - destruct (match remote with BrowserWindow _ => true | Plain v => truthy v end).
    + intros H. rewrite <- E in H. eapply attach_ok; [done|apply empty_world_ok].
    + intros [= <-]. apply empty_world_ok.
Qed.

Lemma reachable_ok (w : World) :
  reachable behaviour random isRenderer w → bus_ok w.
Proof.
  induction 1 as [remote w Hc | w fuel i w' _ IH Hs].
  - by eapply constructor_ok.
  - by eapply step_ok.
Qed.

End Invariant.
(** ** Waiting requests *)

Import ElectronBus.

Lemma extends_persists (w w' : World) : extends w w' → persists w w'.
Proof. intros H. split; [apply (ext_timers _ _ H)|apply (ext_calls _ _ H)]. Qed.

Lemma persists_refl (w : World) : persists w w.
Proof. apply extends_persists, extends_refl. Qed.

Lemma persists_trans (w1 w2 w3 : World) :
  persists w1 w2 → persists w2 w3 → persists w1 w3.
Proof.
  intros [Ht12 Hc12] [Ht23 Hc23]. split.
  - intros i s H.
    destruct (Ht12 i s H) as (s2 & H2 & Hd2 & Ho2 & Ha2).
    destruct (Ht23 i s2 H2) as (s3 & H3 & Hd3 & Ho3 & Ha3).
    exists s3. split_and!; [done|congruence|congruence|tauto].
  - intros n a H.
    destruct (Hc12 n a H) as (a2 & H2 & Hc2 & Hp2 & Ht2 & Hr2).
    destruct (Hc23 n a2 H2) as (a3 & H3 & Hc3 & Hp3 & Ht3 & Hr3).
    exists a3. split_and!; [done|congruence..|].
    intros Hs. rewrite Hr3; rewrite Hr2; done.
Qed.

Lemma persists_same (w w' : World) :
  timers w' = timers w → calls w' = calls w → persists w w'.
Proof.
  intros Ht Hc. split.
  - intros i s H. exists s. by rewrite Ht.
  - intros n a H. exists a. by rewrite Hc.
Qed.

Section Requests.

Variable behaviour : nat → list action.
Variable random : nat → N.
Variable isRenderer : bool.

Lemma step_persists (fuel : nat) (w : World) (i : input) (w' : World) :
  bus_ok w →
  world_of (step behaviour random isRenderer fuel w i) = Some w' →
  persists w w'.
Proof.
  intros Hok. destruct i as [acts|remote|o|i|data]; simpl.
  - pose proof (run_with_ok random _ (for_of_ok behaviour random fuel)
                  acts w VUndefined VUndefined Hok) as Hp.
    unfold run. destruct (run_with _ _ _ _ _ _) as [w1|w1 m|]; simpl;
      [| |done]; intros [= <-]; apply extends_persists, Hp.
  - unfold attach. destruct (isBrowserWindow isRenderer remote); simpl.
    + destruct remote as [wc|v]; simpl; intros [= <-].
      * apply persists_same; unfold remotes_add; by case_bool_decide.
      * apply persists_refl.
    + intros [= <-]. apply persists_refl.
  - intros [= <-]. by apply persists_same.
  - intros [= <-]. apply extends_persists. by apply fire_ok.
  - pose proof (deliver_ok behaviour random fuel data (listeners w) w Hok) as Hp.
    destruct (deliver _ _ _ _ _ _) as [w1|w1 m|]; simpl;
      [| |done]; intros [= <-]; apply extends_persists, Hp.
Qed.

Lemma steps_ok (w w' : World) :
  bus_ok w → steps behaviour random isRenderer w w' →
  bus_ok w' ∧ persists w w'.
Proof.
  intros Hok. induction 1 as [|w1 fuel i w2 _ [IH1 IH2] Hs].
  - split; [done|apply persists_refl].
  - split.
    + eapply step_ok; eauto.
    + eapply persists_trans; [done|]. eapply step_persists; eauto.
Qed.

Lemma steps_reachable (w w' : World) :
  reachable behaviour random isRenderer w →
  steps behaviour random isRenderer w w' →
  reachable behaviour random isRenderer w'.
Proof.
  intros Hr. induction 1 as [|w1 fuel i w2 _ IH Hs]; [done|].
  eapply reachable_step; eauto.
Qed.

End Requests.

(** The closure subscribed for activation [n] is a member of no set. *)
Lemma not_live_not_subscribed (r : Registry) (cb : callback) :
  (∀ sid, ¬ live r sid cb) → ∀ c, cb ∉ subscribers r c.
Proof.
  intros H c Hin. unfold subscribers in Hin.
  destruct (channels r !! c) as [sid|]; [|by apply not_elem_of_nil in Hin].
  destruct (sets r !! sid) as [d|] eqn:Hd; [|by apply not_elem_of_nil in Hin].
  simpl in Hin. apply elem_of_set_elements in Hin.
  apply (H sid). by exists d.
Qed.

Lemma settled_not_live (w : World) (n : nat) (a : activation) :
  bus_ok w → calls w !! n = Some a → settled (result a) = true →
  ∀ sid, ¬ live (registry w) sid (Responder n).
Proof.
  intros Hok Ha Hs sid Hl.
  destruct (bus_responders w Hok sid n Hl) as (a' & rc & Ha' & Hp & _).
  assert (a' = a) as -> by congruence. by rewrite Hp in Hs.
Qed.

(** Both closures of a pending request, run in a world of the bus. *)
Lemma unsubscribed_first (w : World) (n i : nat) (a : activation) :
  bus_ok w → calls w !! n = Some a → is_Some (returnPath a) →
  result a = Pending →
  ∀ w1, registry w1 = registry w → calls w1 = calls w →
  let w2 := returnPath_unsubscribe w1 n in
  (∀ sid, ¬ live (registry w2) sid (Responder n)) ∧
  calls w2 !! n = Some a ∧ timers w2 = timers w1.
Proof.
  intros Hok Ha Hw Hp w1 Hr Hc w2.
  destruct (activation_waiting w n a Hok Ha Hw)
    as (rc & i' & slot & Hrp & _).
  subst w2. unfold returnPath_unsubscribe. rewrite Hc, Ha, Hrp. simpl.
  unfold sub_unsubscribe. simpl. rewrite Hr. split_and!; [|by rewrite Hc|done].
  intros sid Hl. apply live_unsubscribe in Hl as [Hl Hnot];
    [|apply (bus_registry w Hok)].
  destruct (bus_responders w Hok sid n Hl) as (a' & rc' & Ha' & _ & Hrp' & Hch).
  apply Hnot. split; [done|]. congruence.
Qed.

Lemma promise_settle (w : World) (n : nat) (a : activation) (s : settlement) :
  calls w !! n = Some a → result a = Pending →
  promise (settle w n s) n = s.
Proof.
  intros Ha Hp. unfold promise, settle. rewrite Ha, Hp. simpl.
  rewrite list_lookup_insert_eq by (eapply lookup_lt_Some; eauto). done.
Qed.

Lemma registry_settle (w : World) (n : nat) (s : settlement) :
  registry (settle w n s) = registry w.
Proof.
  unfold settle. destruct (calls w !! n) as [a|]; [|done].
  by destruct (result a).
Qed.



Lemma timeout_path (w : World) (n i : nat) (a : activation) (slot : timer_slot) :
  bus_ok w → calls w !! n = Some a → is_Some (returnPath a) →
  result a = Pending → timer a = S i → timers w !! i = Some slot →
  let w0 := log (with_timers (alter disarm i (timers w)) w) (EvTimeout i) in
  let w1 := returnPath_unsubscribe w0 n in
  fire w i = settle w1 n (Rejected "Time out") ∧
  timer_set w0 (timer a) = false ∧
  (∀ sid, ¬ live (registry w1) sid (Responder n)) ∧
  promise w1 n = Pending ∧
  promise (fire w i) n = Rejected "Time out".
Proof.
  intros Hok Ha Hw Hp Ht Hslot w0 w1.
  destruct (activation_waiting w n a Hok Ha Hw)
    as (rc & i' & slot' & Hrp & _ & Ht' & Hslot' & Hown & _ & _ & Harm & _).
  assert (i' = i) as -> by congruence.
  assert (slot' = slot) as -> by congruence.
  rewrite Hp in Harm. simpl in Harm.
  destruct (unsubscribed_first w n i a Hok Ha Hw Hp w0) as (Hnl & Hc2 & Ht2);
    [done|done|]. fold w1 in Hnl, Hc2, Ht2.
  assert (Heq : fire w i = settle w1 n (Rejected "Time out")).
  { unfold fire. rewrite Hslot, Harm, Hown. reflexivity. }
  split_and!; try done.
  - subst w0. rewrite Ht. simpl. by rewrite list_lookup_alter_eq, Hslot.
  - unfold promise. by rewrite Hc2.
  - rewrite Heq. by eapply promise_settle.
Qed.

Section RequestTheorems.

Variable behaviour : nat → list action.
Variable random : nat → N.
Variable isRenderer : bool.


End RequestTheorems.

(** *** The deadline *)

Section Deadline.

Variable behaviour : nat → list action.
Variable random : nat → N.
Variable isRenderer : bool.

Lemma dispatch_arms (fuel : nat) (w : World) (channel : string)
    (payload : val) (o : options) (w' : World) :
  bus_ok w → truthy (waiting o) = true →
  dispatch behaviour random fuel w channel payload o = Done w' →
  bus_ok w' ∧
  ∃ slot a,
    timers w' !! length (timers w) = Some slot ∧
    delay slot = deadline o ∧ owner slot = length (calls w) ∧
    calls w' !! length (calls w) = Some a ∧
    timer a = S (length (timers w)) ∧
    returnPath a = Some (mkSubscription (next_returnChannel random w channel)
                                        (Responder (length (calls w)))).
Proof.
  intros Hok Hw Hd.
  pose proof (dispatch_ok behaviour random fuel w channel payload o Hok) as Hp.
  rewrite Hd in Hp. destruct Hp as [Hok' _]. split; [done|].
  unfold dispatch, dispatch_with in Hd.
  destruct (prepare_ok random w channel o Hok) as [Hok1 _].
  set (w1 := prepare random w channel o) in *.
  set (rc := from_option _ _ _) in Hd.
  pose proof (localDispatch_with_ok _ (for_of_ok behaviour random fuel)
                w1 channel payload rc Hok1) as Hp.
  destruct (localDispatch_with _ w1 channel payload rc) as [w2|w2 m|];
    [|done|done].
  injection Hd as <-. destruct Hp as [Hok2 He2].
  destruct (relay_ok w2 channel payload rc Hok2) as [_ He3].
  pose proof (extends_trans _ _ _ He2 He3) as He.
  assert (Hw1 : w1 = prepare random w channel o) by done.
  rewrite prepare_waiting in Hw1 by done. simpl in Hw1.
  destruct (ext_timers _ _ He (length (timers w)) (mkSlot (deadline o) (length (calls w)) true))
    as (slot & Hslot & Hdl & Hown & _).
  { rewrite Hw1. simpl. apply lookup_snoc_length. }
  edestruct (ext_calls _ _ He (length (calls w))) as (a & Ha & _ & Hrp & Ht & _).
  { rewrite Hw1. simpl. apply lookup_snoc_length. }
  exists slot, a. split_and!; done.
Qed.

Lemma dispatch_falsy_timeout (fuel : nat) (w : World) (channel : string)
    (payload : val) (o1 o2 : options) :
  waiting o1 = waiting o2 →
  truthy (timeout o1) = false → truthy (timeout o2) = false →
  dispatch behaviour random fuel w channel payload o1
  = dispatch behaviour random fuel w channel payload o2.
Proof.
  intros Hw H1 H2. unfold dispatch, dispatch_with.
  assert (Hp : prepare random w channel o1 = prepare random w channel o2).
  { unfold prepare. by rewrite Hw, H1, H2. }
  by rewrite Hp.
Qed.

(** C10: a waiting [dispatch] whose [timeout] option is falsy, [0]
    for one, sets its timer to 15000 milliseconds, and does in all
    respects what it does when the option is left out. *)
Theorem falsy_timeout_means_default (fuel : nat) (w : World)
    (channel : string) (payload : val) (o : options) :
  reachable behaviour random isRenderer w →
  truthy (waiting o) = true → truthy (timeout o) = false →
  dispatch behaviour random fuel w channel payload o
  = dispatch behaviour random fuel w channel payload
      (mkOptions (waiting o) VUndefined) ∧
  truthy (VNum 0) = false ∧
  ∀ w', dispatch behaviour random fuel w channel payload o = Done w' →
    ∃ slot a,
      calls w' !! length (calls w) = Some a ∧
      timer a = S (length (timers w)) ∧
      timers w' !! length (timers w) = Some slot ∧
      owner slot = length (calls w) ∧
      delay slot = VNum 15000.
Proof.
  intros Hreach Hw Ht. split_and!.
  - by apply dispatch_falsy_timeout.
  - done.
  - intros w' Hd.
    destruct (dispatch_arms fuel w channel payload o w') as (_ & slot & a & H);
      [by eapply reachable_ok|done|done|].
    exists slot, a. unfold deadline in H. rewrite Ht in H. tauto.
Qed.

(** C2, as the code has it: a waiting [dispatch] sets a timer whose
    delay is the [timeout] option when that is truthy, and 15000 when
    it is left out (or falsy).  In every later world the timer still
    has that delay; and if no response was received up to there,
    either the promise is pending, the timer is set, and its firing
    rejects the promise with the time-out error and leaves the closure
    subscribed to no channel, or the timer has fired already and did
    just that. *)
Theorem unanswered_request_times_out (fuel : nat) (w : World)
    (channel : string) (payload : val) (o : options) (w' w'' : World) :
  reachable behaviour random isRenderer w →
  truthy (waiting o) = true →
  dispatch behaviour random fuel w channel payload o = Done w' →
  steps behaviour random isRenderer w' w'' →
  let n := length (calls w) in
  let i := length (timers w) in
  (truthy (timeout o) = true → deadline o = timeout o) ∧
  (timeout o = VUndefined → deadline o = VNum 15000) ∧
  ∃ slot,
    timers w'' !! i = Some slot ∧ owner slot = n ∧ delay slot = deadline o ∧
    (count (is_response n) (trace w'') = 0 →
     (promise w'' n = Pending ∧ armed slot = true ∧
      promise (fire w'' i) n = Rejected "Time out" ∧
      (∀ c, Responder n ∉ subscribers (registry (fire w'' i)) c))
     ∨
     (promise w'' n = Rejected "Time out" ∧ armed slot = false ∧
      count (is_timeout i) (trace w'') = 1 ∧
      (∀ c, Responder n ∉ subscribers (registry w'') c))).
Proof.
  intros Hreach Hw Hd Hsteps n i. subst n i.
  pose proof (reachable_ok _ _ _ w Hreach) as Hok.
  split_and!.
  - intros Ht. unfold deadline. by rewrite Ht.
  - intros Ht. unfold deadline. by rewrite Ht.
  - destruct (dispatch_arms fuel w channel payload o w' Hok Hw Hd)
      as (Hok' & slot' & a' & Hslot' & Hdl & Hown & Ha' & Ht' & Hrp').
    destruct (steps_ok _ _ _ w' w'' Hok' Hsteps) as [Hok'' [Hpt Hpc]].
    destruct (Hpt _ _ Hslot') as (slot & Hslot & Hdl2 & Hown2 & _).
    destruct (Hpc _ _ Ha') as (a & Ha & _ & Hrp & Ht & _).
    exists slot. split_and!; [done|congruence|congruence|].
    intros Hnone.
    assert (Hwt : is_Some (returnPath a)) by (rewrite Hrp, Hrp'; eauto).
    destruct (activation_waiting w'' _ a Hok'' Ha Hwt)
      as (rc & i2 & slot2 & _ & _ & Ht2 & Hslot2 & _ & _ & Hcp & Harm & _).
    assert (i2 = length (timers w)) as -> by congruence.
    assert (slot2 = slot) as -> by congruence.
    destruct (result a) as [|v|m] eqn:Hres; simpl in Hcp, Harm.
    + left.
      destruct (timeout_path w'' _ _ a slot Hok'' Ha Hwt Hres Ht2 Hslot)
        as (Heq & _ & Hnl & _ & Hpr).
      split_and!.
      * unfold promise. rewrite Ha. simpl. by rewrite Hres.
      * done.
      * done.
      * apply not_live_not_subscribed. by rewrite Heq, registry_settle.
    + destruct Hcp as [Hcp _]. rewrite Hnone in Hcp. done.
    + right. destruct Hcp as (-> & _ & Hcp). split_and!.
      * unfold promise. rewrite Ha. simpl. by rewrite Hres.
      * done.
      * done.
      * apply not_live_not_subscribed.
        eapply settled_not_live; [done..|]. by rewrite Hres.
Qed.

End Deadline.
(** ** Dispatching *)

Import ElectronBus.

Lemma relay_spec (w : World) (channel : string) (payload rc : val) :
  registry (relay w channel payload rc) = registry w ∧
  calls (relay w channel payload rc) = calls w ∧
  timers (relay w channel payload rc) = timers w ∧
  remotes (relay w channel payload rc) = remotes w ∧
  heap (relay w channel payload rc)
    = heap w ++ replicate (length (remotes w))
                          (MessageEnvelope.constructor (VStr channel) payload rc) ∧
  trace (relay w channel payload rc)
    = trace w ++ relay_events (length (heap w)) (remotes w).
Proof.
  unfold relay, relay_events.
  assert (H : ∀ l w0,
    let w1 := foldl (fun w r =>
                let '(h, message) := MessageEnvelope.new (heap w) (VStr channel) payload rc in
                log (with_heap h w) (EvSend r message)) w0 l in
    registry w1 = registry w0 ∧ calls w1 = calls w0 ∧ timers w1 = timers w0 ∧
    remotes w1 = remotes w0 ∧
    heap w1 = heap w0 ++ replicate (length l)
                (MessageEnvelope.constructor (VStr channel) payload rc) ∧
    trace w1 = trace w0 ++ imap (fun k r => EvSend r (VRef (length (heap w0) + k))) l).
  { induction l as [|r l IH]; intros w0; simpl.
    - by rewrite !app_nil_r.
    - destruct (IH (log (with_heap (heap w0 ++ [MessageEnvelope.constructor (VStr channel) payload rc]) w0)
                        (EvSend r (VRef (length (heap w0))))))
        as (H1 & H2 & H3 & H4 & H5 & H6).
      simpl in *. rewrite H1, H2, H3, H4, H5, H6. split_and!; try done.
      + by rewrite <- app_assoc.
      + rewrite <- app_assoc. simpl. rewrite Nat.add_0_r. do 2 f_equal.
        apply imap_ext. intros k x _. simpl. rewrite length_app. simpl.
        do 2 f_equal. lia. }
  apply H.
Qed.

Section Dispatch.

Variable behaviour : nat → list action.
Variable random : nat → N.
Variable isRenderer : bool.

Lemma localDispatch_absent (fuel : nat) (w : World) (channel : string)
    (payload rc : val) :
  channels (registry w) !! channel = None →
  localDispatch behaviour random fuel w channel payload rc = Done w.
Proof. intros H. unfold localDispatch, localDispatch_with. by rewrite H. Qed.

(** C6, as the code has it: a [dispatch] that does not wait, on a
    channel without subscribers, returns a promise resolved with
    [undefined]; it calls no subscriber and leaves the registry and
    the timers alone; but it does send one envelope to every attached
    remote, and is without effect only where there is no remote. *)
Theorem dispatch_to_nobody (fuel : nat) (w : World) (channel : string)
    (payload : val) (o : options) :
  reachable behaviour random isRenderer w →
  subscribers (registry w) channel = [] →
  truthy (waiting o) = false →
  ∃ w', dispatch behaviour random fuel w channel payload o = Done w' ∧
    promise w' (length (calls w)) = Resolved VUndefined ∧
    registry w' = registry w ∧ timers w' = timers w ∧
    remotes w' = remotes w ∧
    (∀ cb arg rc, EvCall cb arg rc ∈ trace w' → EvCall cb arg rc ∈ trace w) ∧
    trace w' = trace w
               ++ EvSettle (length (calls w)) (Resolved VUndefined)
               :: relay_events (length (heap w)) (remotes w) ∧
    heap w' = heap w ++ replicate (length (remotes w))
                (MessageEnvelope.constructor (VStr channel) payload VUndefined) ∧
    (remotes w = [] →
     heap w' = heap w ∧
     trace w' = trace w ++ [EvSettle (length (calls w)) (Resolved VUndefined)]).
Proof.
  intros Hreach Hsub Hw. pose proof (reachable_ok _ _ _ w Hreach) as Hok.
  assert (Hc : channels (registry w) !! channel = None).
  { destruct (channels (registry w) !! channel) eqn:E; [|done].
    exfalso. eapply (registry_ok_present _ channel (bus_registry w Hok)); eauto. }
  unfold dispatch, dispatch_with. rewrite prepare_not_waiting by done.
  set (w1 := mkWorld _ _ _ _ _ _ _ _).
  assert (Hrc : from_option returnChannel VUndefined (calls w1 !! length (calls w))
                = VUndefined).
  { subst w1. simpl. by rewrite lookup_snoc_length. }
  rewrite Hrc.
  unfold localDispatch_with. change (registry w1) with (registry w). rewrite Hc.
  eexists. split; [done|].
  destruct (relay_spec w1 channel payload VUndefined)
    as (H1 & H2 & H3 & H4 & H5 & H6).
  rewrite H1, H3, H4, H5, H6. subst w1; simpl in *.
  split_and!; try done.
  - unfold promise. rewrite H2. by rewrite lookup_snoc_length.
  - intros cb arg rc Hin. rewrite <- app_assoc in Hin.
    apply elem_of_app in Hin as [Hin|Hin]; [done|].
    apply elem_of_cons in Hin as [Hin|Hin]; [done|].
    unfold relay_events in Hin. apply list_elem_of_lookup in Hin as [k Hk].
    rewrite list_lookup_imap in Hk.
    destruct (remotes w !! k); simpl in Hk; done.
  - by rewrite <- app_assoc.
  - intros ->. simpl. by rewrite !app_nil_r.
Qed.

(** C5, as the code has it: when a subscriber throws, the loop of
    [localDispatch] ends in the world the subscriber threw in, so the
    members of the set that come after it are not called; the
    exception rejects the promise of [localDispatch] and goes no
    further: the registry stays as the callbacks left it, and
    [dispatch] goes on to relay the message and returns its promise. *)
Theorem throwing_subscriber_ends_delivery (fuel : nat) (w : World)
    (sid idx : nat) (payload rc : val) (cb : callback) (idx' : nat)
    (h : list (list (string * val))) (arg : val) (w2 : World) (msg : string) :
  next_entry (default [] (sets (registry w) !! sid)) idx = Some (cb, idx') →
  clone (heap w) payload = Some (h, arg) →
  invoke behaviour random fuel (log (with_heap h w) (EvCall cb arg rc)) cb arg rc
    = Threw w2 msg →
  for_of behaviour random (S fuel) w sid idx payload rc = Threw w2 msg ∧
  (∀ w0 channel,
     channels (registry w0) !! channel = Some sid →
     for_of behaviour random (S fuel) w0 sid 0 payload rc = Threw w2 msg →
     localDispatch behaviour random (S fuel) w0 channel payload rc
       = Done (log w2 (EvUncaught msg)) ∧
     registry (log w2 (EvUncaught msg)) = registry w2) ∧
  (∀ w0 channel o,
     let w1 := prepare random w0 channel o in
     let rc1 := from_option returnChannel VUndefined (calls w1 !! length (calls w0)) in
     channels (registry w1) !! channel = Some sid →
     for_of behaviour random (S fuel) w1 sid 0 payload rc1 = Threw w2 msg →
     dispatch behaviour random (S fuel) w0 channel payload o
       = Done (relay (log w2 (EvUncaught msg)) channel payload rc1)).
Proof.
  intros Hnext Hclone Hinv. split_and!.
  - simpl. rewrite Hnext, Hclone. unfold invoke in Hinv. by rewrite Hinv.
  - intros w0 channel Hc Hloop. split; [|done].
    unfold localDispatch, localDispatch_with. by rewrite Hc, Hloop.
  - intros w0 channel o w1 rc1 Hc Hloop.
    unfold dispatch, dispatch_with, localDispatch_with.
    fold w1. fold rc1. by rewrite Hc, Hloop.
Qed.



End Dispatch.
(** ** [clone] makes fresh deep copies *)

Lemma stack_get_Some (stack : list (nat * nat)) (l l' : nat) :
  stack_get stack l = Some l' → (l, l') ∈ stack.
Proof.
  induction stack as [|[k x] stack IH]; simpl; [done|].
  case_decide as Heq.
  - intros [= ->]. subst. by left.
  - intros H. right. by apply IH.
Qed.

Lemma stack_get_elem (stack : list (nat * nat)) (l l' : nat) :
  NoDup (stack.*1) → (l, l') ∈ stack → stack_get stack l = Some l'.
Proof.
  induction stack as [|[k x] stack IH]; intros Hnd Hin.
  - by apply not_elem_of_nil in Hin.
  - rewrite fmap_cons in Hnd. apply NoDup_cons in Hnd as [Hk Hnd].
    cbn [stack_get]. apply elem_of_cons in Hin as [[= -> ->] | Hin].
    + by rewrite decide_True.
    + case_decide as Heq; [|by apply IH].
      subst. exfalso. apply Hk. apply list_elem_of_fmap. by exists (k, l').
Qed.

Lemma stack_get_None (stack : list (nat * nat)) (l : nat) :
  stack_get stack l = None ↔ l ∉ stack.*1.
Proof.
  induction stack as [|[k x] stack IH]; simpl.
  - split; [intros _; apply not_elem_of_nil|done].
  - rewrite not_elem_of_cons. case_decide as Heq; [|tauto].
    split; [done|]. intros [? _]. done.
Qed.

Lemma stack_get_is_Some (stack : list (nat * nat)) (l : nat) :
  is_Some (stack_get stack l) ↔ l ∈ stack.*1.
Proof.
  destruct (stack_get stack l) eqn:E.
  - split; [|eauto]. intros _. apply stack_get_Some in E.
    apply list_elem_of_fmap. by exists (l, n).
  - split; [by intros [? ?]|]. intros H. by apply stack_get_None in E.
Qed.

Lemma stack_get_app (added stack : list (nat * nat)) (l : nat) :
  stack_get (added ++ stack) l =
  match stack_get added l with
  | Some l' => Some l'
  | None => stack_get stack l
  end.
Proof.
  induction added as [|[k x] added IH]; simpl; [done|]. by case_decide.
Qed.

Lemma stack_get_stable (added stack : list (nat * nat)) (l l' : nat) :
  NoDup ((added ++ stack).*1) →
  stack_get stack l = Some l' → stack_get (added ++ stack) l = Some l'.
Proof.
  intros Hnd H. rewrite stack_get_app.
  destruct (stack_get added l) as [x|] eqn:E; [|done].
  exfalso. rewrite fmap_app in Hnd. apply NoDup_app in Hnd as (_ & Hdisj & _).
  apply (Hdisj l).
  - apply stack_get_is_Some. eauto.
  - apply stack_get_is_Some. eauto.
Qed.

Lemma rename_stable (added stack : list (nat * nat)) (v : val) :
  NoDup ((added ++ stack).*1) →
  (∀ l, v = VRef l → is_Some (stack_get stack l)) →
  rename (added ++ stack) v = rename stack v.
Proof.
  intros Hnd Hin. destruct v as [| | | | | |l]; try done. simpl.
  destruct (Hin l eq_refl) as [l' Hl'].
  by rewrite (stack_get_stable _ _ _ _ Hnd Hl'), Hl'.
Qed.

Lemma rename_props_stable (added stack : list (nat * nat))
    (o : list (string * val)) :
  NoDup ((added ++ stack).*1) → closed_props stack o →
  rename_props (added ++ stack) o = rename_props stack o.
Proof.
  intros Hnd Hcl. unfold rename_props. apply list_fmap_ext.
  intros i [k v] Hi. simpl. f_equal. apply rename_stable; [done|].
  intros l ->. apply (Hcl k). eapply list_elem_of_lookup_2; eauto.
Qed.

Lemma closed_props_mono (added stack : list (nat * nat))
    (o : list (string * val)) :
  NoDup ((added ++ stack).*1) → closed_props stack o →
  closed_props (added ++ stack) o.
Proof.
  intros Hnd Hcl k y Hin. destruct (Hcl k y Hin) as [y' Hy'].
  exists y'. by apply stack_get_stable.
Qed.

Lemma complete_mono (h0 : list (list (string * val)))
    (st st' : list (list (string * val)) * list (nat * nat))
    (added : list (nat * nat)) (l l' : nat) :
  st'.2 = added ++ st.2 → NoDup (st'.2.*1) →
  st'.1 !! (l' - length h0) = st.1 !! (l' - length h0) →
  complete h0 st l l' → complete h0 st' l l'.
Proof.
  intros Hs Hnd Hsame (props & Hp & Ho & Hcl). exists props.
  rewrite Hs in Hnd |- *. split_and!; [done| |].
  - rewrite Hsame, Ho. by rewrite rename_props_stable.
  - by apply closed_props_mono.
Qed.

Lemma bounded_NoDup_length (l : list nat) (n : nat) :
  NoDup l → (∀ x, x ∈ l → x < n) → length l ≤ n.
Proof.
  intros Hnd Hb. transitivity (length (seq 0 n)); [|by rewrite length_seq].
  apply submseteq_length, NoDup_submseteq; [done|].
  intros x Hx. apply elem_of_seq. specialize (Hb x Hx). lia.
Qed.

Lemma clone_good_range (h0 : list (list (string * val)))
    (st : list (list (string * val)) * list (nat * nat)) (l l' : nat) :
  clone_good h0 st → (l, l') ∈ st.2 →
  l < length h0 ∧ length h0 ≤ l' < length h0 + length st.1.
Proof.
  intros Hg Hin. split.
  - apply (good_valid _ _ Hg). apply list_elem_of_fmap. by exists (l, l').
  - assert (Hl' : l' ∈ st.2.*2) by (apply list_elem_of_fmap; by exists (l, l')).
    rewrite (good_copies _ _ Hg), elem_of_reverse, elem_of_seq in Hl'. lia.
Qed.

Lemma clone_good_length (h0 : list (list (string * val)))
    (st : list (list (string * val)) * list (nat * nat)) :
  clone_good h0 st → length st.2 = length st.1.
Proof.
  intros Hg. rewrite <- (length_fmap snd st.2), (good_copies _ _ Hg).
  by rewrite length_reverse, length_seq.
Qed.

Lemma clone_good_push (h0 : list (list (string * val)))
    (st : list (list (string * val)) * list (nat * nat)) (l : nat)
    (o : list (string * val)) :
  clone_good h0 st → l < length h0 → stack_get st.2 l = None →
  clone_good h0 (st.1 ++ [o], (l, length h0 + length st.1) :: st.2).
Proof.
  intros Hg Hl Hnone. constructor; cbn [fst snd]; rewrite ?fmap_cons.
  - apply NoDup_cons. split; [by apply stack_get_None|apply Hg].
  - intros x Hx. apply elem_of_cons in Hx as [-> | Hx]; [done|].
    by apply (good_valid _ _ Hg).
  - rewrite (good_copies _ _ Hg), length_app. simpl.
    rewrite seq_app, reverse_app. simpl. done.
Qed.

Lemma clone_good_assign (h0 : list (list (string * val)))
    (st : list (list (string * val)) * list (nat * nat)) (target : nat)
    (k : string) (v : val) :
  clone_good h0 st → clone_good h0 (assignValue h0 st target k v).
Proof.
  intros Hg. unfold assignValue. constructor; simpl; try apply Hg.
  rewrite length_alter. apply Hg.
Qed.

Lemma set_own_fresh (o : list (string * val)) (k : string) (v : val) :
  k ∉ o.*1 → set_own o k v = o ++ [(k, v)].
Proof.
  induction o as [|[k' v'] o IH]; simpl; [done|].
  rewrite not_elem_of_cons. intros [Hne Hnot].
  rewrite decide_False by done. by rewrite IH.
Qed.

Lemma foldl_set_own (f : val → val) (ps o : list (string * val)) :
  NoDup (o.*1 ++ ps.*1) →
  foldl (fun o kv => set_own o kv.1 (f kv.2)) o ps
  = o ++ ((fun kv => (kv.1, f kv.2)) <$> ps).
Proof.
  revert o. induction ps as [|[k v] ps IH]; intros o Hnd; simpl.
  - by rewrite app_nil_r.
  - rewrite fmap_cons in Hnd. simpl in Hnd.
    assert (Hk : k ∉ o.*1).
    { apply NoDup_app in Hnd as (_ & Hd & _). intros Hin.
      apply (Hd k Hin). by left. }
    rewrite set_own_fresh by done. rewrite IH.
    + by rewrite <- app_assoc.
    + rewrite fmap_app. simpl. rewrite <- app_assoc. simpl. done.
Qed.

Lemma set_own_keys_in (o : list (string * val)) (k : string) (v : val) :
  k ∈ o.*1 → (set_own o k v).*1 = o.*1.
Proof.
  induction o as [|[k' v'] o IH]; intros Hin.
  - by apply not_elem_of_nil in Hin.
  - cbn [set_own]. rewrite fmap_cons in Hin. cbn [fst] in Hin.
    case_decide as Hk; rewrite !fmap_cons; cbn [fst]; [done|].
    apply elem_of_cons in Hin as [? | Hin]; [done|]. by rewrite IH.
Qed.

Lemma set_own_keys (o : list (string * val)) (k : string) (v : val) :
  NoDup (o.*1) → NoDup ((set_own o k v).*1).
Proof.
  intros Hnd. destruct (decide (k ∈ o.*1)) as [Hin | Hnot].
  - by rewrite set_own_keys_in.
  - rewrite set_own_fresh by done. rewrite fmap_app. simpl.
    apply NoDup_app. split_and!; [done| |apply NoDup_singleton].
    intros x Hx Hx'. apply list_elem_of_singleton in Hx'. by subst.
Qed.

Lemma clone_props_spec (h0 : list (list (string * val)))
    (rec : list (list (string * val)) * list (nat * nat) → val →
           option ((list (list (string * val)) * list (nat * nat)) * val))
    (target t : nat) :
  rec_ok h0 rec → target = length h0 + t →
  ∀ ps st st' P,
    clone_good h0 st → st.1 !! t = Some P →
    Forall (fun kv => val_ok h0 kv.2) ps →
    clone_props rec h0 target st ps = Some st' →
    clone_good h0 st' ∧
    (∃ added, st'.2 = added ++ st.2 ∧
       ∀ l l', (l, l') ∈ added →
               length h0 + length st.1 ≤ l' ∧ complete h0 st' l l') ∧
    length st.1 ≤ length st'.1 ∧
    (∀ j, j < length st.1 → j ≠ t → st'.1 !! j = st.1 !! j) ∧
    st'.1 !! t = Some (foldl (fun o kv => set_own o kv.1 (rename st'.2 kv.2)) P ps) ∧
    closed_props st'.2 ps.
Proof.
  intros Hrec ->. induction ps as [|[k sub] ps IH]; intros st st' P Hg HP Hvals; simpl.
  - intros [= <-]. split_and!; try done.
    + exists []. split; [done|]. intros l l' H. by apply not_elem_of_nil in H.
    + intros k y H. by apply not_elem_of_nil in H.
  - apply Forall_cons in Hvals as [Hsub Hvals]. simpl in Hsub.
    destruct (rec st sub) as [[st1 sub1]|] eqn:Hr; [|done].
    destruct (Hrec st sub st1 sub1 Hg Hsub Hr)
      as (Hg1 & (added1 & Hs1 & Hadd1) & Hlen1 & Hsame1 & Hsub1 & Hin1).
    assert (Ht : t < length st.1) by (eapply lookup_lt_Some; eauto).
    set (st2 := assignValue h0 st1 (length h0 + t) k sub1).
    assert (Hg2 : clone_good h0 st2) by (by apply clone_good_assign).
    assert (Hst2 : st2 = (alter (fun o => set_own o k sub1) t st1.1, st1.2)).
    { unfold st2, assignValue. do 3 f_equal. lia. }
    assert (HP2 : st2.1 !! t = Some (set_own P k sub1)).
    { rewrite Hst2. simpl. rewrite list_lookup_alter_eq, Hsame1, HP by done. done. }
    intros Hcp.
    destruct (IH st2 st' (set_own P k sub1) Hg2 HP2 Hvals Hcp)
      as (Hg' & (added2 & Hs2 & Hadd2) & Hlen2 & Hsame2 & Htgt & Hcl).
    assert (Hl2 : length st2.1 = length st1.1)
      by (rewrite Hst2; simpl; apply length_alter).
    assert (Hstack : st'.2 = (added2 ++ added1) ++ st.2).
    { rewrite Hs2, Hst2. simpl. rewrite Hs1. by rewrite app_assoc. }
    assert (Hnd' : NoDup (st'.2.*1)) by apply Hg'.
    assert (Hs2' : st'.2 = added2 ++ st1.2) by (by rewrite Hs2, Hst2).
    split_and!.
    + done.
    + exists (added2 ++ added1). split; [done|].
      intros l l' Hin. apply elem_of_app in Hin as [Hin | Hin].
      * destruct (Hadd2 l l' Hin) as [Hge Hc]. split; [lia|done].
      * destruct (Hadd1 l l' Hin) as [Hge Hc]. split; [done|].
        assert (Hidx : l' - length h0 < length st1.1).
        { destruct Hc as (? & _ & Ho & _). eapply lookup_lt_Some; eauto. }
        eapply (complete_mono h0 st1 st' added2); [done|done| |done].
        rewrite Hsame2 by lia. rewrite Hst2. simpl.
        rewrite list_lookup_alter_ne by lia. done.
    + lia.
    + intros j Hj Hjt. rewrite Hsame2 by lia. rewrite Hst2. simpl.
      rewrite list_lookup_alter_ne by lia. by apply Hsame1.
    + rewrite Htgt. do 3 f_equal. rewrite Hsub1, Hs2'.
      symmetry. apply rename_stable; [by rewrite <- Hs2'|done].
    + intros k' y Hin. apply elem_of_cons in Hin as [Heq | Hin].
      * injection Heq as -> Hy.
        destruct (Hin1 y (eq_sym Hy)) as [y' Hy'].
        exists y'. rewrite Hs2'. apply stack_get_stable; [by rewrite <- Hs2'|done].
      * by apply (Hcl k').
Qed.

Lemma clone_step_id (h0 : list (list (string * val)))
    (st : list (list (string * val)) * list (nat * nat)) (v : val) :
  clone_good h0 st → (∀ l, v = VRef l → is_Some (stack_get st.2 l)) →
  clone_step h0 st v st (rename st.2 v).
Proof.
  intros Hg Hv. split_and!; try done.
  exists []. split; [done|]. intros l l' H. by apply not_elem_of_nil in H.
Qed.

Lemma heap_ok_lookup (h : list (list (string * val))) (l : nat)
    (o : list (string * val)) :
  heap_ok h → h !! l = Some o →
  NoDup (o.*1) ∧ Forall (fun kv => val_ok h kv.2) o.
Proof.
  intros Hh Hl. unfold heap_ok in Hh. rewrite Forall_forall in Hh.
  apply Hh. eapply list_elem_of_lookup_2; eauto.
Qed.

Lemma baseClone_ok (h0 : list (list (string * val))) (fuel : nat) :
  heap_ok h0 → rec_ok h0 (baseClone fuel h0).
Proof.
  intros Hh. induction fuel as [|fuel IH]; intros st v st' v' Hg Hv Hc.
  - destruct v as [| | | | | |l]; simpl in Hc;
      try (injection Hc as <- <-; by apply (clone_step_id h0 st)).
    destruct (stack_get st.2 l) as [l'|] eqn:Hs.
    + injection Hc as <- <-.
      replace (VRef l') with (rename st.2 (VRef l)) by (simpl; by rewrite Hs).
      apply clone_step_id; [done|]. intros ? [= <-]. eauto.
    + simpl in Hv. apply lookup_lt_is_Some in Hv as [props Hp].
      by rewrite Hp in Hc.
  - destruct v as [| | | | | |l]; simpl in Hc;
      try (injection Hc as <- <-; by apply (clone_step_id h0 st)).
    destruct (stack_get st.2 l) as [l'|] eqn:Hs.
    + injection Hc as <- <-.
      replace (VRef l') with (rename st.2 (VRef l)) by (simpl; by rewrite Hs).
      apply clone_step_id; [done|]. intros ? [= <-]. eauto.
    + simpl in Hv. pose proof Hv as Hlt.
      apply lookup_lt_is_Some in Hv as [props Hp]. rewrite Hp in Hc.
      set (l' := length h0 + length st.1) in *.
      set (st1 := (st.1 ++ [[]], (l, l') :: st.2)) in *.
      destruct (clone_props _ h0 l' st1 props) as [st2|] eqn:Hcp; [|done].
      injection Hc as <- <-.
      destruct (heap_ok_lookup h0 l props Hh Hp) as [Hnd Hvals].
      assert (Hg1 : clone_good h0 st1) by (by apply clone_good_push).
      assert (HP : st1.1 !! length st.1 = Some ([] : list (string * val))).
      { subst st1. simpl. by rewrite lookup_app_r, Nat.sub_diag by lia. }
      destruct (clone_props_spec h0 _ l' (length st.1) IH eq_refl
                  props st1 st2 [] Hg1 HP Hvals Hcp)
        as (Hg2 & (added & Hs2 & Hadd) & Hlen & Hsame & Htgt & Hcl).
      assert (Hl1 : length st1.1 = S (length st.1)).
      { subst st1. simpl. rewrite length_app. simpl. lia. }
      assert (Hget : stack_get st2.2 l = Some l').
      { rewrite Hs2. apply stack_get_stable; [rewrite <- Hs2; apply Hg2|].
        subst st1. simpl. by rewrite decide_True. }
      split_and!.
      * done.
      * exists (added ++ [(l, l')]). split.
        { rewrite Hs2. subst st1. simpl. by rewrite <- app_assoc. }
        intros x x' Hin. apply elem_of_app in Hin as [Hin | Hin].
        -- destruct (Hadd x x' Hin) as [Hge Hc]. split; [lia|done].
        -- apply list_elem_of_singleton in Hin. injection Hin as -> ->.
           split; [done|]. exists props. split_and!; [done| |done].
           replace (l' - length h0) with (length st.1) by (subst l'; lia).
           rewrite Htgt. f_equal. rewrite foldl_set_own by done. done.
      * lia.
      * intros j Hj. rewrite Hsame by lia. subst st1. simpl.
        by rewrite lookup_app_l.
      * simpl. by rewrite Hget.
      * intros ? [= <-]. eauto.
Qed.

Lemma clone_props_total (h0 : list (list (string * val)))
    (rec : list (list (string * val)) * list (nat * nat) → val →
           option ((list (list (string * val)) * list (nat * nat)) * val))
    (target t m : nat) :
  rec_ok h0 rec → target = length h0 + t →
  (∀ st v, clone_good h0 st → val_ok h0 v → m ≤ length st.2 → is_Some (rec st v)) →
  ∀ ps st P,
    clone_good h0 st → st.1 !! t = Some P →
    Forall (fun kv => val_ok h0 kv.2) ps → m ≤ length st.2 →
    is_Some (clone_props rec h0 target st ps).
Proof.
  intros Hrec -> Htot. induction ps as [|[k sub] ps IH]; intros st P Hg HP Hvals Hm;
    simpl; [eauto|].
  apply Forall_cons in Hvals as [Hsub Hvals]. simpl in Hsub.
  destruct (Htot st sub Hg Hsub Hm) as [[st1 sub1] Hr]. rewrite Hr.
  destruct (Hrec st sub st1 sub1 Hg Hsub Hr)
    as (Hg1 & (added1 & Hs1 & _) & Hlen1 & Hsame1 & _).
  assert (Ht : t < length st.1) by (eapply lookup_lt_Some; eauto).
  eapply (IH _ (set_own P k sub1)).
  - by apply clone_good_assign.
  - unfold assignValue. simpl.
    replace (length h0 + t - length h0) with t by lia.
    by rewrite list_lookup_alter_eq, Hsame1, HP.
  - done.
  - unfold assignValue. simpl. rewrite Hs1, length_app. lia.
Qed.

Lemma baseClone_total (h0 : list (list (string * val))) (fuel : nat) :
  heap_ok h0 →
  ∀ st v, clone_good h0 st → val_ok h0 v →
          length h0 < fuel + length st.2 →
          is_Some (baseClone fuel h0 st v).
Proof.
  intros Hh. induction fuel as [|fuel IH]; intros st v Hg Hv Hfuel.
  - destruct v as [| | | | | |l]; simpl; eauto.
    destruct (stack_get st.2 l) as [l'|] eqn:Hs; [eauto|].
    exfalso. simpl in Hv.
    assert (Hb : length (l :: st.2.*1) ≤ length h0).
    { apply bounded_NoDup_length.
      - apply NoDup_cons. split; [by apply stack_get_None|apply Hg].
      - intros x Hx. apply elem_of_cons in Hx as [-> | Hx]; [done|].
        by apply (good_valid _ _ Hg). }
    simpl in Hb. rewrite length_fmap in Hb. lia.
  - destruct v as [| | | | | |l]; simpl; eauto.
    destruct (stack_get st.2 l) as [l'|] eqn:Hs; [eauto|].
    simpl in Hv. pose proof Hv as Hlt.
    apply lookup_lt_is_Some in Hv as [props Hp]. rewrite Hp.
    set (l' := length h0 + length st.1).
    set (st1 := (st.1 ++ [[]], (l, l') :: st.2)).
    destruct (heap_ok_lookup h0 l props Hh Hp) as [Hnd Hvals].
    assert (Hg1 : clone_good h0 st1) by (by apply clone_good_push).
    assert (HP : st1.1 !! length st.1 = Some ([] : list (string * val))).
    { subst st1. simpl. by rewrite lookup_app_r, Nat.sub_diag by lia. }
    destruct (clone_props_total h0 (baseClone fuel h0) l' (length st.1)
                (S (length st.2)) (baseClone_ok h0 fuel Hh) eq_refl) with
      (ps := props) (st := st1) (P := ([] : list (string * val))) as [st2 Hcp];
      try done.
    + intros st' v' Hg' Hv' Hm. apply IH; [done..|]. lia.
    + by rewrite Hcp.
Qed.

Lemma clone_good_empty (h0 : list (list (string * val))) :
  clone_good h0 ([], []).
Proof.
  constructor; simpl; [apply NoDup_nil_2| |done].
  intros l H. by apply not_elem_of_nil in H.
Qed.

Lemma val_ok_app (h more : list (list (string * val))) (v : val) :
  val_ok h v → val_ok (h ++ more) v.
Proof. destruct v; simpl; try done. rewrite length_app. lia. Qed.

Lemma obj_ok_app (h more : list (list (string * val)))
    (o : list (string * val)) :
  obj_ok h o → obj_ok (h ++ more) o.
Proof.
  intros [Hnd Hv]. split; [done|].
  eapply Forall_impl; [done|]. intros kv. apply val_ok_app.
Qed.

Lemma rename_props_keys (stack : list (nat * nat)) (o : list (string * val)) :
  (rename_props stack o).*1 = o.*1.
Proof.
  unfold rename_props. rewrite <- list_fmap_compose. by apply list_fmap_ext.
Qed.

Lemma elem_of_rename_props (stack : list (nat * nat)) (o : list (string * val))
    (k : string) (v : val) :
  (k, v) ∈ rename_props stack o → ∃ v0, (k, v0) ∈ o ∧ v = rename stack v0.
Proof.
  unfold rename_props. rewrite list_elem_of_fmap.
  intros ([k0 v0] & [= -> ->] & Hin). eauto.
Qed.

(** The copy is deeply equal to what it is a copy of. *)
Lemma rename_deep_equal (h0 h1 : list (list (string * val)))
    (stack : list (nat * nat)) :
  (∀ l l', stack_get stack l = Some l' →
     ∃ props, h0 !! l = Some props ∧
              h1 !! l' = Some (rename_props stack props) ∧
              closed_props stack props) →
  ∀ n v, (∀ l, v = VRef l → is_Some (stack_get stack l)) →
         deep_equal n h0 v h1 (rename stack v).
Proof.
  intros Hst. induction n as [|n IH]; intros v Hv.
  - destruct v as [| | | | | |l]; simpl; try done.
    destruct (Hv l eq_refl) as [l' ->]. done.
  - destruct v as [| | | | | |l]; simpl; try done.
    destruct (Hv l eq_refl) as [l' Hl']. rewrite Hl'.
    destruct (Hst l l' Hl') as (props & Hp & Hp' & Hcl).
    exists props, (rename_props stack props). split_and!; [done..|].
    unfold rename_props. apply Forall2_fmap_r, Forall2_same_length_lookup.
    split; [done|]. intros i [k x] [k' x'] Hi Hi'.
    assert ((k', x') = (k, x)) as [= -> ->] by congruence.
    simpl. split; [done|]. apply IH. intros y ->.
    apply (Hcl k). eapply list_elem_of_lookup_2; eauto.
Qed.

(** [clone] always returns, and returns a fresh deep copy. *)
Lemma clone_fresh_copy (h : list (list (string * val))) (v : val) :
  heap_ok h → val_ok h v →
  ∃ h1 arg, clone h v = Some (h1, arg) ∧ fresh_copy h v h1 arg.
Proof.
  intros Hh Hv. unfold clone.
  destruct (baseClone_total h (S (length h)) Hh ([], []) v) as [[st v'] Hc];
    [apply clone_good_empty|done|simpl; lia|].
  rewrite Hc. exists (h ++ st.1), v'. split; [done|].
  destruct (baseClone_ok h (S (length h)) Hh ([], []) v st v'
              (clone_good_empty h) Hv Hc)
    as (Hg & (added & Hs & Hadd) & _ & _ & Hv' & Hin).
  simpl in Hs. rewrite app_nil_r in Hs. subst added.
  assert (Hst : ∀ l l', stack_get st.2 l = Some l' →
            length h ≤ l' < length h + length st.1 ∧
            ∃ props, h !! l = Some props ∧
                     (h ++ st.1) !! l' = Some (rename_props st.2 props) ∧
                     closed_props st.2 props).
  { intros l l' Hl. apply stack_get_Some in Hl.
    destruct (clone_good_range h st l l' Hg Hl) as [_ Hr]. split; [done|].
    destruct (Hadd l l' Hl) as (_ & props & Hp & Ho & Hcl).
    exists props. split_and!; [done| |done].
    rewrite lookup_app_r by lia. done. }
  assert (Hobj : ∀ j o, st.1 !! j = Some o →
            ∃ l props, stack_get st.2 l = Some (length h + j) ∧
                       h !! l = Some props ∧ o = rename_props st.2 props ∧
                       closed_props st.2 props).
  { intros j o Hj.
    assert (Hjl : j < length st.1) by (eapply lookup_lt_Some; eauto).
    assert (Hmem : length h + j ∈ st.2.*2).
    { rewrite (good_copies _ _ Hg), elem_of_reverse, elem_of_seq. lia. }
    apply list_elem_of_fmap in Hmem as ([l l'] & Heq & Hmem). simpl in Heq. subst l'.
    assert (Hget : stack_get st.2 l = Some (length h + j))
      by (apply stack_get_elem; [apply Hg|done]).
    destruct (Hst l _ Hget) as (_ & props & Hp & Ho & Hcl).
    rewrite lookup_app_r in Ho by lia.
    replace (length h + j - length h) with j in Ho by lia.
    exists l, props. split_and!; try done. congruence. }
  assert (Hnew : ∀ l o, length h ≤ l → (h ++ st.1) !! l = Some o →
            ∀ k y, (k, VRef y) ∈ o → length h ≤ y < length (h ++ st.1)).
  { intros l o Hl Ho k y Hy. rewrite lookup_app_r in Ho by done.
    destruct (Hobj _ _ Ho) as (l0 & props & _ & _ & -> & Hcl).
    apply elem_of_rename_props in Hy as (v0 & Hv0 & Hy).
    rewrite length_app.
    destruct v0 as [| | | | | |y0]; simpl in Hy; try done.
    destruct (Hcl k y0 Hv0) as [y' Hy'].
    rewrite Hy' in Hy. injection Hy as ->.
    apply (Hst y0 y' Hy'). }
  split_and!.
  - by exists st.1.
  - intros n. rewrite Hv'. apply rename_deep_equal; [|done].
    intros l l' Hl. apply (Hst l l' Hl).
  - destruct v as [| | | | | |l]; simpl in Hv'; try done.
    destruct (Hin l eq_refl) as [l' Hl']. rewrite Hl' in Hv'.
    exists l'. split; [done|]. rewrite length_app. apply (Hst l l' Hl').
  - done.
  - unfold heap_ok. apply Forall_app. split.
    + eapply Forall_impl; [exact Hh|]. intros o. apply obj_ok_app.
    + apply Forall_forall. intros o Ho.
      apply list_elem_of_lookup in Ho as [j Hj].
      destruct (Hobj j o Hj) as (l0 & props & _ & Hp & -> & Hcl).
      destruct (heap_ok_lookup h l0 props Hh Hp) as [Hnd Hvals].
      split; [by rewrite rename_props_keys|].
      apply Forall_forall. intros [k x] Hx. simpl.
      destruct x as [| | | | | |y]; simpl; try done.
      assert (Hlook : (h ++ st.1) !! (length h + j) = Some (rename_props st.2 props)).
      { rewrite lookup_app_r by lia.
        replace (length h + j - length h) with j by lia. done. }
      apply (Hnew (length h + j) _ ltac:(lia) Hlook k y Hx).
Qed.
(** ** Every subscriber is handed its own copy *)

Import ElectronBus.

Lemma first_entry_None (d : list (option callback)) (idx : nat) :
  first_entry d idx = None → set_elements d = [].
Proof.
  revert idx. induction d as [|[x|] d IH]; intros idx; simpl; [done..|].
  apply IH.
Qed.

Lemma first_entry_Some (d : list (option callback)) (idx : nat) cb idx' :
  first_entry d idx = Some (cb, idx') →
  idx < idx' ≤ idx + length d ∧
  set_elements d = cb :: set_elements (drop (idx' - idx) d).
Proof.
  revert idx. induction d as [|[x|] d IH]; intros idx; simpl; [done| |].
  - intros [= -> <-]. split; [lia|].
    replace (S idx - idx) with 1 by lia. done.
  - intros H. destruct (IH _ H) as [Hr He]. split; [lia|].
    replace (idx' - idx) with (S (idx' - S idx)) by lia. done.
Qed.

Lemma next_entry_None (d : list (option callback)) (idx : nat) :
  next_entry d idx = None → set_elements (drop idx d) = [].
Proof. apply first_entry_None. Qed.

Lemma next_entry_Some (d : list (option callback)) (idx : nat) cb idx' :
  next_entry d idx = Some (cb, idx') →
  idx < idx' ≤ length d ∧
  set_elements (drop idx d) = cb :: set_elements (drop idx' d).
Proof.
  unfold next_entry. intros H.
  destruct (first_entry_Some _ _ _ _ H) as [Hr He].
  assert (Hlen : idx ≤ length d).
  { destruct (decide (idx ≤ length d)); [done|].
    rewrite drop_ge in H by lia. done. }
  rewrite length_drop in Hr. split; [lia|].
  rewrite He, drop_drop. do 3 f_equal. lia.
Qed.

(** *** What a subscriber that works on its copy does to the heap *)

Lemma above_val_ok (b : nat) (h : list (list (string * val))) (v : val) :
  above b h v → val_ok h v.
Proof. destruct v; simpl; try done. lia. Qed.

Lemma own_eval (b : nat) (h : list (list (string * val))) (arg : val) (e : expr) :
  closed_above b h → above b h arg → own_expr e = true →
  match eval h arg e with
  | Normal v => above b h v
  | Throw _ => True
  end.
Proof.
  intros Hcl Harg. induction e as [v| |e IH k]; simpl.
  - by destruct v.
  - done.
  - intros He. specialize (IH He).
    destruct (eval h arg e) as [v|]; [|done].
    destruct v as [| | | | | |l]; simpl; try done.
    simpl in IH. destruct (h !! l) as [o|] eqn:Ho; simpl; [|done].
    destruct (get_own o k) as [| | | | | |y] eqn:Hg; try done. simpl.
    apply (Hcl l o (proj1 IH) Ho k).
    clear -Hg. induction o as [|[k' v'] o IHo]; simpl in Hg; [done|].
    case_decide; subst; [by left|]. right. by apply IHo.
Qed.

Lemma elem_of_set_own (o : list (string * val)) (k : string) (v : val) k' v' :
  (k', v') ∈ set_own o k v → (k', v') ∈ o ∨ (k', v') = (k, v).
Proof.
  induction o as [|[k0 v0] o IH]; simpl.
  - intros H. apply list_elem_of_singleton in H. by right.
  - case_decide as Heq.
    + intros H. apply elem_of_cons in H as [H | H].
      * right. by subst.
      * left. by right.
    + intros H. apply elem_of_cons in H as [H | H].
      * left. rewrite H. by left.
      * destruct (IH H) as [? | ?]; [left; by right | by right].
Qed.

Lemma own_write (b : nat) (h : list (list (string * val))) (l : nat)
    (k : string) (v : val) :
  heap_ok h → closed_above b h → b ≤ l < length h → above b h v →
  let h' := alter (fun ob => set_own ob k v) l h in
  only_above b h h' ∧ heap_ok h' ∧ closed_above b h'.
Proof.
  intros Hh Hcl Hl Hv h'.
  assert (Hlen : length h' = length h) by apply length_alter.
  split_and!.
  - split; [|done]. apply list_eq. intros i.
    destruct (decide (i < b)).
    + rewrite !lookup_take_lt by done. subst h'.
      by rewrite list_lookup_alter_ne by lia.
    + by rewrite !lookup_take_ge by lia.
  - unfold heap_ok. apply Forall_forall. intros o Ho.
    apply list_elem_of_lookup in Ho as [i Hi]. subst h'.
    destruct (decide (i = l)) as [-> | Hne].
    + rewrite list_lookup_alter_eq in Hi.
      destruct (h !! l) as [o0|] eqn:Ho0; [|done]. injection Hi as <-.
      destruct (heap_ok_lookup h l o0 Hh Ho0) as [Hnd Hvals].
      split; [by apply set_own_keys|].
      apply Forall_forall. intros [k' v'] Hin.
      apply elem_of_set_own in Hin as [Hin | [= -> ->]]; simpl.
      * rewrite Forall_forall in Hvals. specialize (Hvals _ Hin). simpl in Hvals.
        destruct v'; simpl in *; try done. by rewrite length_alter.
      * apply above_val_ok in Hv. destruct v; simpl in *; try done.
        by rewrite length_alter.
    + rewrite list_lookup_alter_ne in Hi by done.
      destruct (heap_ok_lookup h i o Hh Hi) as [Hnd Hvals].
      split; [done|]. eapply Forall_impl; [done|].
      intros [k' v'] Hx. destruct v'; simpl in *; try done.
      by rewrite length_alter.
  - intros i o Hi Ho k' y Hin. rewrite Hlen. subst h'.
    destruct (decide (i = l)) as [-> | Hne].
    + rewrite list_lookup_alter_eq in Ho.
      destruct (h !! l) as [o0|] eqn:Ho0; [|done]. injection Ho as <-.
      apply elem_of_set_own in Hin as [Hin | [= -> Hy]].
      * by apply (Hcl l o0 Hi Ho0 k').
      * subst v. done.
    + rewrite list_lookup_alter_ne in Ho by done.
      by apply (Hcl i o Hi Ho k').
Qed.


Lemma only_above_trans (b : nat) (h1 h2 h3 : list (list (string * val))) :
  only_above b h1 h2 → only_above b h2 h3 → only_above b h1 h3.
Proof. intros [H1 H2] [H3 H4]. split; congruence. Qed.

Section Copies.

Variable behaviour : nat → list action.
Variable random : nat → N.
Variable loop : World → nat → nat → val → val → outcome.

Lemma own_run (acts : list action) (arg rc : val) (b : nat) :
  Forall (fun a => own_action a = true) acts →
  ∀ w, heap_ok (heap w) → closed_above b (heap w) → above b (heap w) arg →
  ∃ w' thrown,
    run_with random loop w acts arg rc
    = match thrown with None => Done w' | Some msg => Threw w' msg end ∧
    registry w' = registry w ∧ calls w' = calls w ∧ timers w' = timers w ∧
    trace w' = trace w ∧
    only_above b (heap w) (heap w') ∧ heap_ok (heap w') ∧
    closed_above b (heap w').
Proof.
  induction 1 as [|a acts Ha Hacts IH]; intros w Hh Hcl Harg; simpl.
  - exists w, None. split_and!; done.
  - destruct a as [c f|c f|c e o|t k e|m]; simpl in Ha; try done.
    + apply andb_true_iff in Ha as [Ht He]. unfold act_with.
      pose proof (own_eval b (heap w) arg t Hcl Harg Ht) as Hvt.
      pose proof (own_eval b (heap w) arg e Hcl Harg He) as Hve.
      destruct (eval (heap w) arg t) as [tv|mt].
      2: { exists w, (Some mt). split_and!; done. }
      destruct (eval (heap w) arg e) as [v|me].
      2: { exists w, (Some me). split_and!; done. }
      destruct tv as [| | | | | |l];
        try (by apply IH);
        try (exists w, (Some "TypeError"); split_and!; done).
      simpl in Hvt.
      destruct (own_write b (heap w) l k v Hh Hcl Hvt Hve) as (Ho & Hh' & Hcl').
      set (w1 := with_heap _ w).
      destruct (IH w1) as (w' & thrown & Hrun & H1 & H2 & H3 & H4 & H5 & H6 & H7);
        [done|done| |].
      { destruct arg; simpl in *; try done. destruct Ho as [_ ->]. done. }
      exists w', thrown. split_and!; try done.
      by eapply only_above_trans.
    + exists w, (Some m). split_and!; done.
Qed.

End Copies.

Section Delivery.

Variable behaviour : nat → list action.
Variable random : nat → N.

Lemma for_of_own (sid : nat) (d : list (option callback)) (payload rc : val) :
  (∀ cb, cb ∈ set_elements d →
     ∃ f, cb = User f ∧ Forall (fun a => own_action a = true) (behaviour f)) →
  ∀ fuel w idx,
    default [] (sets (registry w) !! sid) = d →
    heap_ok (heap w) → val_ok (heap w) payload →
    idx ≤ length d → length d < fuel + idx →
    ∃ w' evs thrown,
      for_of behaviour random fuel w sid idx payload rc
      = match thrown with None => Done w' | Some msg => Threw w' msg end ∧
      registry w' = registry w ∧ calls w' = calls w ∧ timers w' = timers w ∧
      trace w' = trace w ++ evs ∧
      delivers payload rc (heap w) (set_elements (drop idx d)) (heap w') evs thrown ∧
      heap_ok (heap w').
Proof.
  intros Hown. induction fuel as [|fuel IH]; intros w idx Hd Hh Hp Hidx Hfuel;
    [lia|].
  simpl. rewrite Hd.
  destruct (next_entry d idx) as [[cb idx']|] eqn:Hnext.
  2: { exists w, [], None. rewrite (next_entry_None _ _ Hnext), app_nil_r.
       split_and!; try done. constructor. }
  destruct (next_entry_Some _ _ _ _ Hnext) as [Hr He]. rewrite He.
  destruct (Hown cb) as (f & -> & Hf).
  { apply elem_of_set_elements. eapply next_entry_elem; eauto. }
  destruct (clone_fresh_copy (heap w) payload Hh Hp) as (h1 & arg & Hc & Hfc).
  rewrite Hc. simpl.
  pose proof Hfc as ((fresh & ->) & _ & Harg & Hcl & Hh1).
  set (w1 := log (with_heap (heap w ++ fresh) w) (EvCall (User f) arg rc)).
  destruct (own_run random (for_of behaviour random fuel) (behaviour f) arg rc
              (length (heap w)) Hf w1)
    as (w2 & thrown & Hrun & H1 & H2 & H3 & H4 & H5 & H6 & H7); [done|done| |].
  { destruct payload; simpl in *; try (by subst arg).
    destruct Harg as (l' & -> & ?). simpl. done. }
  rewrite Hrun. destruct thrown as [msg|].
  - exists w2, [EvCall (User f) arg rc], (Some msg).
    split_and!; try done. eapply delivers_threw; eauto.
  - destruct (IH w2 idx') as (w3 & evs & thrown & Hloop & G1 & G2 & G3 & G4 & G5 & G6).
    + by rewrite H1.
    + done.
    + destruct H5 as [_ Hl]. simpl in Hl. destruct payload; simpl in *; try done.
      rewrite Hl, length_app. lia.
    + lia.
    + lia.
    + exists w3, (EvCall (User f) arg rc :: evs), thrown.
      rewrite Hloop. split_and!.
      * done.
      * by rewrite G1, H1.
      * by rewrite G2, H2.
      * by rewrite G3, H3.
      * rewrite G4, H4. simpl. by rewrite <- app_assoc.
      * eapply delivers_next; eauto.
      * done.
Qed.

Lemma delivers_prefix (payload rc : val) h cbs h' evs thrown :
  delivers payload rc h cbs h' evs thrown →
  take (length h) h' = h.
Proof.
  induction 1 as [h | h cb cbs h1 arg h2 h3 evs thrown Hfc Ho _ IH
                    | h cb cbs h1 arg h2 msg Hfc Ho].
  - by rewrite firstn_all.
  - destruct Hfc as ((fresh & ->) & _). destruct Ho as [Hta Hl].
    rewrite take_app_length in Hta.
    assert (Hle : length h ≤ length h2) by (rewrite Hl, length_app; lia).
    transitivity (take (length h) (take (length h2) h3)).
    { rewrite take_take. f_equal. lia. }
    by rewrite IH.
  - destruct Hfc as ((fresh & ->) & _). destruct Ho as [Hta Hl].
    by rewrite take_app_length in Hta.
Qed.


End Delivery.
(** ** The properties on the example program *)

Import ElectronBus.

Lemma main_bus_reachable :
  reachable example_code example_random false main_bus.
Proof. by apply (reachable_new _ _ _ (Plain VUndefined)). Qed.

Lemma renderer_bus_reachable :
  reachable example_code example_random true renderer_bus.
Proof. by apply (reachable_new _ _ _ (Plain VUndefined)). Qed.

Lemma after_reachable (isRenderer : bool) (w : World) (i : input) :
  reachable example_code example_random isRenderer w →
  reachable example_code example_random isRenderer (after isRenderer w i).
Proof.
  intros H. unfold after.
  destruct (world_of _) as [w'|] eqn:E; simpl; [|done].
  eapply reachable_step; eauto.
Qed.

Lemma asking_reachable (t : val) :
  reachable example_code example_random false (asking t).
Proof. apply after_reachable, main_bus_reachable. Qed.

Lemma news_bus_reachable (fs : list nat) :
  reachable example_code example_random false (news_bus fs).
Proof. do 2 apply after_reachable. apply main_bus_reachable. Qed.

(** *** Where the claims fail as stated *)

(** C2, as stated, fails for the timeout [0]: the timer is set to 15000
    milliseconds, not to 0. *)
Lemma zero_timeout_waits_15000 :
  ∃ w', dispatch example_code example_random 8 main_bus "ask" VNull
          (mkOptions (VBool true) (VNum 0)) = Done w' ∧
        delay <$> timers w' !! 0 = Some (VNum 15000) ∧
        delay <$> timers w' !! 0 ≠ Some (VNum 0).
Proof. eexists. split; [reflexivity|]. split; [reflexivity|discriminate]. Qed.


(** C5, as stated, fails: with two subscribers of which the first
    throws, the message is not delivered to the second. *)
Lemma throw_stops_delivery :
  ∃ w', localDispatch example_code example_random 8 (news_bus [1; 2])
          "news" VNull VUndefined = Done w' ∧
        subscribers (registry (news_bus [1; 2])) "news" = [User 1; User 2] ∧
        trace w' = [EvCall (User 1) VNull VUndefined; EvUncaught "boom"] ∧
        ∀ arg rc, EvCall (User 2) arg rc ∉ trace w'.
Proof.
  eexists. split; [reflexivity|]. split; [reflexivity|]. split; [reflexivity|].
  intros arg rc H. vm_compute in H.
  apply elem_of_cons in H as [H|H]; [discriminate|].
  apply list_elem_of_singleton in H. discriminate.
Qed.

(** C6, as stated, fails: in a renderer the dispatch to a channel
    without subscribers builds an envelope and sends it to the main
    process. *)
Lemma dispatch_to_nobody_is_relayed :
  ∃ w', dispatch example_code example_random 8 renderer_bus "void" VNull
          (mkOptions VUndefined VUndefined) = Done w' ∧
        subscribers (registry renderer_bus) "void" = [] ∧
        trace w' = [EvSettle 0 (Resolved VUndefined); EvSend IpcRenderer (VRef 0)] ∧
        heap w' = [MessageEnvelope.constructor (VStr "void") VNull VUndefined] ∧
        heap w' ≠ heap renderer_bus.
Proof.
  eexists. split; [reflexivity|]. split; [reflexivity|]. split; [reflexivity|].
  split; [reflexivity|discriminate].
Qed.

(** *** The theorems at work *)


Lemma unanswered_request_times_out_witness :
  reachable example_code example_random false main_bus ∧
  truthy (waiting (mkOptions (VBool true) (VNum 50))) = true ∧
  dispatch example_code example_random 8 main_bus "ask" VNull
    (mkOptions (VBool true) (VNum 50)) = Done (asking (VNum 50)) ∧
  steps example_code example_random false (asking (VNum 50)) (asking (VNum 50)) ∧
  ∃ slot, timers (asking (VNum 50)) !! 0 = Some slot ∧ delay slot = VNum 50.
Proof.
  split; [apply main_bus_reachable|]. split; [reflexivity|].
  split; [reflexivity|]. split; [apply steps_refl|].
  destruct (unanswered_request_times_out example_code example_random false 8
              main_bus "ask" VNull (mkOptions (VBool true) (VNum 50))
              (asking (VNum 50)) (asking (VNum 50))
              main_bus_reachable eq_refl eq_refl
              (steps_refl _ _ _ _))
    as (Hd & _ & slot & Hs & _ & Hdl & _).
  exists slot. split; [exact Hs|]. rewrite Hdl. apply Hd. reflexivity.
Defined.

Lemma falsy_timeout_means_default_witness :
  reachable example_code example_random false main_bus ∧
  truthy (waiting (mkOptions (VBool true) (VNum 0))) = true ∧
  truthy (timeout (mkOptions (VBool true) (VNum 0))) = false ∧
  ∃ slot, timers (asking (VNum 0)) !! 0 = Some slot ∧ delay slot = VNum 15000.
Proof.
  split; [apply main_bus_reachable|]. split; [reflexivity|]. split; [reflexivity|].
  destruct (falsy_timeout_means_default example_code example_random false 8
              main_bus "ask" VNull (mkOptions (VBool true) (VNum 0))
              main_bus_reachable eq_refl eq_refl)
    as (_ & _ & H).
  destruct (H (asking (VNum 0)) eq_refl) as (slot & a & _ & _ & Hs & _ & Hd).
  exists slot. split; assumption.
Defined.



Lemma channel_registered_iff_subscribed_witness :
  let ops := [OpSubscribe "log" (User 0); OpSubscribe "log" (User 1);
              OpUnsubscribe "log" (User 0)] in
  subscribers (apply_ops empty_registry ops) "log" = [User 1] ∧
  channels (unsubscribe (apply_ops empty_registry ops) "log" (User 1)) !! "log"
    = None.
Proof.
  intros ops.
  destruct (channel_registered_iff_subscribed ops "log")
    as (_ & _ & Hs & _ & Hu).
  split; [reflexivity|]. apply Hu. reflexivity.
Defined.

Lemma throwing_subscriber_ends_delivery_witness :
  let w := news_bus [1; 2] in
  let h := [[("n", VNum 1)]; [("n", VNum 1)]] in
  let w2 := log (with_heap h w) (EvCall (User 1) (VRef 1) VUndefined) in
  next_entry (default [] (sets (registry w) !! 0)) 0 = Some (User 1, 1) ∧
  clone (heap w) (VRef 0) = Some (h, VRef 1) ∧
  for_of example_code example_random 8 w 0 0 (VRef 0) VUndefined
    = Threw w2 "boom".
Proof.
  intros w h w2. split; [reflexivity|]. split; [reflexivity|].
  apply (throwing_subscriber_ends_delivery example_code example_random 7 w
           0 0 (VRef 0) VUndefined (User 1) 1 h (VRef 1) w2 "boom");
    reflexivity.
Defined.

Lemma dispatch_to_nobody_witness :
  reachable example_code example_random true renderer_bus ∧
  subscribers (registry renderer_bus) "void" = [] ∧
  truthy (waiting (mkOptions VUndefined VUndefined)) = false ∧
  ∃ w', dispatch example_code example_random 8 renderer_bus "void" VNull
          (mkOptions VUndefined VUndefined) = Done w' ∧
        registry w' = registry renderer_bus.
Proof.
  split; [apply renderer_bus_reachable|]. split; [reflexivity|].
  split; [reflexivity|].
  destruct (dispatch_to_nobody example_code example_random true 8 renderer_bus
              "void" VNull (mkOptions VUndefined VUndefined)
              renderer_bus_reachable eq_refl eq_refl)
    as (w' & Hd & _ & Hr & _).
  exists w'. split; assumption.
Defined.



Lemma example_registry_ok :
  registry_ok (apply_ops empty_registry [OpSubscribe "log" (User 0)]).
Proof. apply apply_ops_refines. Qed.

Lemma unsubscribe_idempotent_witness :
  let r := apply_ops empty_registry [OpSubscribe "log" (User 0)] in
  channels r !! "other" = None ∧
  registry_ok r ∧
(User 1 ∉ subscribers r "log") ∧
  unsubscribe r "other" (User 1) = r ∧
  unsubscribe r "log" (User 1) = r.
Proof.
  intros r. split; [reflexivity|]. split; [apply example_registry_ok|].
  assert (Hn : User 1 ∉ subscribers r "log").
  { intros H. apply list_elem_of_singleton in H. discriminate. }
  split; [exact Hn|].
  destruct (unsubscribe_idempotent r "other" (User 1)) as (_ & H1 & _).
  destruct (unsubscribe_idempotent r "log" (User 1)) as (_ & _ & H2).
  split; [apply H1; reflexivity|apply H2; [apply example_registry_ok|exact Hn]].
Defined.

(** ** The registry as a program uses it *)

Lemma set_add_idemp (d : set_data) (cb : callback) :
  set_add (set_add d cb) cb = set_add d cb.
Proof.
  unfold set_add at 1. unfold set_has.
  rewrite bool_decide_true; [done|].
  apply elem_of_set_elements, elem_of_set_add. by right.
Qed.

Lemma set_add_present (d : set_data) (cb : callback) :
  cb ∈ set_elements d → set_add d cb = d.
Proof. intros H. unfold set_add, set_has. by rewrite bool_decide_true. Qed.

Lemma alter_fixed {A} (f : A → A) (l : list A) (i : nat) (x : A) :
  l !! i = Some x → f x = x → alter f i l = l.
Proof.
  revert i. induction l as [|y l IH]; intros [|i] Hl Hf; simpl in *; try done.
  - simplify_eq. by rewrite Hf.
  - f_equal. by apply IH.
Qed.

Lemma registry_eta (r : Registry) : mkRegistry (sets r) (channels r) = r.
Proof. by destruct r. Qed.

Lemma subscribers_elem_lookup (r : Registry) (c : string) (cb : callback) :
  cb ∈ subscribers r c →
  ∃ sid d, channels r !! c = Some sid ∧ sets r !! sid = Some d ∧
           cb ∈ set_elements d.
Proof.
  unfold subscribers. destruct (channels r !! c) as [sid|]; [|by intros ?%elem_of_nil].
  destruct (sets r !! sid) as [d|] eqn:Hd; simpl; [|by intros ?%elem_of_nil].
  intros H. exists sid, d. split_and!; done.
Qed.

Lemma filter_ne_snoc (l : list callback) (cb : callback) :
  cb ∉ l → filter (fun x => x ≠ cb) (l ++ [cb]) = l.
Proof.
  intros H. rewrite filter_app, filter_cons_False, filter_nil, app_nil_r by (intros ?; done).
  induction l as [|x l IH]; [done|].
  apply not_elem_of_cons in H as [? ?].
  rewrite filter_cons_True by done. f_equal. by apply IH.
Qed.

Lemma filter_ne_absent (l : list callback) (cb : callback) :
  cb ∉ l → filter (fun x => x ≠ cb) l = l.
Proof.
  induction l as [|x l IH]; [done|]. intros [? ?]%not_elem_of_cons.
  rewrite filter_cons_True by done. f_equal. by apply IH.
Qed.

Lemma spec_apply_op_NoDup (s : list (string * callback)) (op : registry_op) :
  NoDup s → NoDup (spec_apply_op s op).
Proof.
  intros Hs. destruct op as [c cb|c cb]; simpl.
  - case_bool_decide; [done|].
    apply NoDup_app. split_and!; [done| |apply NoDup_singleton].
    intros x Hx ->%list_elem_of_singleton. done.
  - by apply NoDup_filter.
Qed.

Lemma spec_subscriptions_NoDup (ops : list registry_op) :
  NoDup (spec_subscriptions ops).
Proof.
  unfold spec_subscriptions.
  assert (∀ s, NoDup s → NoDup (foldl spec_apply_op s ops)) as H.
  { induction ops as [|op ops IH]; intros s Hs; simpl; [done|].
    by apply IH, spec_apply_op_NoDup. }
  apply H, NoDup_nil_2.
Qed.

Lemma spec_subscribers_NoDup (s : list (string * callback)) (c : string) :
  NoDup s → NoDup (spec_subscribers s c).
Proof.
  induction s as [|[c' cb] s IH]; intros Hs; [apply NoDup_nil_2|].
  apply NoDup_cons in Hs as [Hn Hs].
  unfold spec_subscribers. simpl. case_decide; simpl.
  - subst c'. apply NoDup_cons. split; [|by apply IH].
    intros Hin. apply Hn. by apply elem_of_spec_subscribers.
  - by apply IH.
Qed.

(** X1: [subscribe] adds to a [Set]: subscribing a callback again to the
    same channel changes nothing, neither at once nor later, so that it
    is called once for a message however often it was subscribed. *)
Theorem subscribe_twice_is_once (r : Registry) (c : string) (cb : callback) :
  (subscribe (subscribe r c cb).1 c cb).1 = (subscribe r c cb).1 ∧
  (cb ∈ subscribers r c → (subscribe r c cb).1 = r).
Proof.
  split.
  - destruct (channels r !! c) as [sid|] eqn:Hc.
    + rewrite (subscribe_present r c cb sid Hc).
      rewrite (subscribe_present _ c cb sid) by done. simpl.
      f_equal. rewrite list_alter_alter_eq.
      apply list_alter_ext; [|done]. intros d _. simpl. apply set_add_idemp.
    + rewrite (subscribe_absent r c cb Hc).
      rewrite (subscribe_present _ c cb (length (sets r)))
        by (simpl; apply lookup_insert_eq).
      simpl. f_equal. rewrite alter_snoc. do 2 f_equal.
      apply set_add_present. apply elem_of_set_elements, list_elem_of_singleton. done.
  - intros (sid & d & Hc & Hd & Hin)%subscribers_elem_lookup.
    rewrite (subscribe_present r c cb sid Hc).
    rewrite (alter_fixed _ _ _ d Hd) by by apply set_add_present.
    apply registry_eta.
Qed.

(** X2: What is subscribed and then unsubscribed through the subscription
    object returned is gone again: every channel has the subscribers
    it had, and the map of channels is the one it was. *)
Theorem subscribe_then_unsubscribe (r : Registry) (c : string) (cb : callback) :
  registry_ok r → cb ∉ subscribers r c →
  cb ∈ subscribers (subscribe r c cb).1 c ∧
  registry_ok (sub_unsubscribe (subscribe r c cb).1 (subscribe r c cb).2) ∧
  channels (sub_unsubscribe (subscribe r c cb).1 (subscribe r c cb).2) = channels r ∧
  ∀ c', subscribers (sub_unsubscribe (subscribe r c cb).1 (subscribe r c cb).2) c'
        = subscribers r c'.
Proof.
  intros Hr Hn.
  assert (subscribers (subscribe r c cb).1 c = subscribers r c ++ [cb]) as Hs.
  { rewrite (subscribe_subscribers r c cb c Hr).
    rewrite decide_True by done. by rewrite bool_decide_false. }
  assert (registry_ok (subscribe r c cb).1) as Hr1 by by apply subscribe_ok.
  assert (∀ c', subscribers (unsubscribe (subscribe r c cb).1 c cb) c'
                = subscribers r c') as Hsub.
  { intros c'. rewrite (unsubscribe_subscribers _ c cb c' Hr1).
    case_decide as Hcc.
    - subst c'. rewrite Hs. by apply filter_ne_snoc.
    - rewrite (subscribe_subscribers r c cb c' Hr). by rewrite decide_False. }
  rewrite (surjective_pairing (subscribe r c cb)) at 2 3 4.
  rewrite (subscribe_pair r c cb). unfold sub_unsubscribe.
  cbn [fst snd sub_channel sub_callback].
  split_and!.
  - rewrite Hs. apply elem_of_app. right. by apply list_elem_of_singleton.
  - by apply unsubscribe_ok.
  - apply map_eq. intros c'. apply option_eq. intros sid.
    rewrite (channels_unsubscribe _ c cb c' sid Hr1).
    rewrite (channels_subscribe r c cb c' sid Hr).
    split.
    + intros [[H|(-> & Hc & ->)] Himp]; [done|].
      destruct (Himp eq_refl) as (cb' & Hne & Hl).
      exfalso. apply Hne.
      assert (cb' ∈ subscribers (subscribe r c cb).1 c) as Hin.
      { apply (elem_of_subscribers _ _ _ Hr1). exists (length (sets r)). split; [|done].
        apply (channels_subscribe r c cb c _ Hr). right. done. }
      rewrite Hs, (subscribers_absent r c Hc) in Hin. simpl in Hin.
      by apply list_elem_of_singleton in Hin.
    + intros Hc'. split; [by left|]. intros ->.
      destruct (ok_live r Hr c sid Hc') as (d & Hd & Hne).
      destruct (set_elements d) as [|cb' rest] eqn:Hel; [done|].
      assert (cb' ∈ subscribers r c) as Hin.
      { rewrite (subscribers_lookup r c sid d Hc' Hd), Hel. apply list_elem_of_here. }
      exists cb'. split; [by intros ->|].
      apply (live_subscribe r c cb sid cb' Hr). left.
      exists d. split; [done|]. apply elem_of_set_elements. rewrite Hel.
      apply list_elem_of_here.
  - done.
Qed.

(** X3: The subscribers of a channel are kept in the order in which they
    subscribed: [subscribe] puts a new one last, [unsubscribe] takes out
    the one it names and leaves the others in place, and neither touches
    the subscribers of another channel. *)
Theorem subscribers_keep_their_order (r : Registry) (c : string) (cb : callback) :
  registry_ok r →
  (cb ∉ subscribers r c →
   subscribers (subscribe r c cb).1 c = subscribers r c ++ [cb]) ∧
  subscribers (unsubscribe r c cb) c = filter (fun x => x ≠ cb) (subscribers r c) ∧
  (cb ∉ subscribers (unsubscribe r c cb) c) ∧
  ∀ c', c' ≠ c →
        subscribers (subscribe r c cb).1 c' = subscribers r c' ∧
        subscribers (unsubscribe r c cb) c' = subscribers r c'.
Proof.
  intros Hr. split_and!.
  - intros Hn. rewrite (subscribe_subscribers r c cb c Hr).
    rewrite decide_True by done. by rewrite bool_decide_false.
  - rewrite (unsubscribe_subscribers r c cb c Hr). by rewrite decide_True.
  - rewrite (unsubscribe_subscribers r c cb c Hr), decide_True by done.
    intros [H _]%list_elem_of_filter. done.
  - intros c' Hne. split.
    + rewrite (subscribe_subscribers r c cb c' Hr). by rewrite decide_False.
    + rewrite (unsubscribe_subscribers r c cb c' Hr). by rewrite decide_False.
Qed.

(** X4: Whatever was subscribed and unsubscribed on a new bus, no channel
    has the same callback twice among its subscribers. *)
Theorem no_duplicate_subscribers (ops : list registry_op) (c : string) :
  NoDup (subscribers (apply_ops empty_registry ops) c).
Proof.
  destruct (apply_ops_refines ops) as [_ H]. rewrite H.
  apply spec_subscribers_NoDup, spec_subscriptions_NoDup.
Qed.

(** ** Envelopes and messages from a remote *)

Import ElectronBus.



Lemma for_of_done (behaviour : nat → list action) (random : nat → N)
    (fuel : nat) (w : World) (sid idx : nat) (payload rc : val) :
  next_entry (default [] (sets (registry w) !! sid)) idx = None →
  for_of behaviour random (S fuel) w sid idx payload rc = Done w.
Proof. intros H. simpl. by rewrite H. Qed.

Lemma for_of_next (behaviour : nat → list action) (random : nat → N)
    (fuel : nat) (w : World) (sid idx : nat) (payload rc : val)
    (cb : callback) (idx' : nat) (h : list (list (string * val))) (arg : val) :
  next_entry (default [] (sets (registry w) !! sid)) idx = Some (cb, idx') →
  clone (heap w) payload = Some (h, arg) →
  for_of behaviour random (S fuel) w sid idx payload rc
  = match invoke behaviour random fuel
            (log (with_heap h w) (EvCall cb arg rc)) cb arg rc with
    | Done w' => for_of behaviour random fuel w' sid idx' payload rc
    | o => o
    end.
Proof. intros H Hc. simpl. by rewrite H, Hc. Qed.

Lemma next_entry_of_empty (d : list (option callback)) (idx : nat) :
  set_elements d = [] → next_entry d idx = None.
Proof.
  intros He. destruct (next_entry d idx) as [[cb idx']|] eqn:Hn; [|done].
  apply next_entry_elem, elem_of_set_elements in Hn. rewrite He in Hn.
  by apply elem_of_nil in Hn.
Qed.

Lemma next_entry_of_elements (d : list (option callback)) (idx : nat)
    (cb : callback) (rest : list callback) :
  set_elements (drop idx d) = cb :: rest →
  ∃ idx', next_entry d idx = Some (cb, idx') ∧ idx < idx' ≤ length d ∧
          set_elements (drop idx' d) = rest.
Proof.
  intros He. destruct (next_entry d idx) as [[cb' idx']|] eqn:Hn.
  - destruct (next_entry_Some _ _ _ _ Hn) as [Hr He'].
    rewrite He in He'. injection He' as -> ->. by exists idx'.
  - apply next_entry_None in Hn. by rewrite Hn in He.
Qed.

Lemma delivers_not_called (payload rc : val) h cbs h' evs thrown (cb : callback) :
  delivers payload rc h cbs h' evs thrown →
  cb ∉ cbs → count (is_call cb) evs = 0.
Proof.
  induction 1 as [h | h cb0 cbs h1 arg h2 h3 evs thrown Hfc Ho _ IH
                    | h cb0 cbs h1 arg h2 msg Hfc Ho]; intros Hn.
  - done.
  - apply not_elem_of_cons in Hn as [Hne Hn]. simpl.
    rewrite bool_decide_false by done. by rewrite IH.
  - apply not_elem_of_cons in Hn as [Hne Hn]. simpl.
    by rewrite bool_decide_false.
Qed.

Lemma delivers_first_called (payload rc : val) h cb rest h' evs thrown :
  delivers payload rc h (cb :: rest) h' evs thrown →
  cb ∉ rest → count (is_call cb) evs = 1.
Proof.
  inversion 1 as [| h0 cb0 cbs h1 arg h2 h3 evs0 thrown0 Hfc Ho Hd
                  | h0 cb0 cbs h1 arg h2 msg Hfc Ho]; subst; intros Hn; simpl.
  - rewrite bool_decide_true by done.
    by rewrite (delivers_not_called _ _ _ _ _ _ _ cb Hd Hn).
  - by rewrite bool_decide_true.
Qed.

Lemma delivers_only_calls (payload rc : val) h cbs h' evs thrown e :
  delivers payload rc h cbs h' evs thrown → e ∈ evs →
  ∃ cb arg, e = EvCall cb arg rc ∧ cb ∈ cbs.
Proof.
  induction 1 as [h | h cb0 cbs h1 arg h2 h3 evs thrown Hfc Ho _ IH
                    | h cb0 cbs h1 arg h2 msg Hfc Ho]; intros He.
  - by apply elem_of_nil in He.
  - apply elem_of_cons in He as [->|He].
    + exists cb0, arg. split; [done|]. apply list_elem_of_here.
    + destruct (IH He) as (cb & a & -> & Hin). exists cb, a. split; [done|].
      by apply list_elem_of_further.
  - apply list_elem_of_singleton in He as ->.
    exists cb0, arg. split; [done|]. apply list_elem_of_here.
Qed.

Lemma prefix_lookup {A} (h h' : list A) (l : nat) (x : A) :
  take (length h) h' = h → h !! l = Some x → h' !! l = Some x.
Proof.
  intros Ht Hl. rewrite <- Ht in Hl. by apply lookup_take_Some in Hl as [? _].
Qed.

Lemma prefix_length {A} (h h' : list A) :
  take (length h) h' = h → length h ≤ length h'.
Proof.
  intros Ht. assert (length (take (length h) h') = length h) as H by by rewrite Ht.
  rewrite length_take in H. lia.
Qed.

Lemma heap_ok_envelope (h : list (list (string * val))) (l : nat)
    (c payload rc : val) :
  heap_ok h → h !! l = Some (MessageEnvelope.constructor c payload rc) →
  val_ok h payload.
Proof.
  intros Hh Hl. destruct (heap_ok_lookup h l _ Hh Hl) as [_ Hf].
  rewrite Forall_forall in Hf.
  apply (Hf ("payload", payload)).
  unfold MessageEnvelope.constructor.
  do 2 apply list_elem_of_further. apply list_elem_of_here.
Qed.

Section Remote.

Variable behaviour : nat → list action.
Variable random : nat → N.

Lemma onRemoteMessage_envelope (fuel : nat) (w : World) (l : nat)
    (c : string) (payload rc : val) :
  heap w !! l = Some (MessageEnvelope.constructor (VStr c) payload rc) →
  onRemoteMessage behaviour random fuel w (VRef l)
  = localDispatch behaviour random fuel w c payload rc.
Proof.
  intros H. unfold onRemoteMessage, onRemoteMessage_with, localDispatch,
    MessageEnvelope.isEnvelope.
  simpl. rewrite H. reflexivity.
Qed.

(** What one [localDispatch] does on a channel whose subscribers work
    on the value they are handed. *)
Lemma localDispatch_own (fuel : nat) (w : World) (channel : string)
    (payload rc : val) :
  (∀ cb, cb ∈ subscribers (registry w) channel →
     ∃ f, cb = User f ∧ Forall (fun a => own_action a = true) (behaviour f)) →
  heap_ok (heap w) → val_ok (heap w) payload →
  length (set_of (registry w) channel) < fuel →
  ∃ w' evs thrown,
    localDispatch behaviour random fuel w channel payload rc = Done w' ∧
    registry w' = registry w ∧ calls w' = calls w ∧ timers w' = timers w ∧
    trace w' = trace w ++ evs ++ uncaught thrown ∧
    delivers payload rc (heap w) (subscribers (registry w) channel)
             (heap w') evs thrown ∧
    heap_ok (heap w') ∧
    take (length (heap w)) (heap w') = heap w.
Proof.
  intros Hown Hh Hp Hfuel.
  unfold subscribers, set_of in *.
  unfold localDispatch, localDispatch_with.
  destruct (channels (registry w) !! channel) as [sid|] eqn:Hc.
  2: { exists w, [], None. simpl. rewrite app_nil_r, firstn_all.
       split_and!; try done. constructor. }
  set (d := default [] (sets (registry w) !! sid)) in *.
  destruct (for_of_own behaviour random sid d payload rc Hown fuel w 0)
    as (w' & evs & thrown & Hloop & H1 & H2 & H3 & H4 & H5 & H6);
    [done|done|done|lia|lia|].
  rewrite drop_0 in H5. rewrite Hloop.
  destruct thrown as [msg|].
  - exists (log w' (EvUncaught msg)), evs, (Some msg).
    split_and!; try done.
    + simpl. by rewrite H4, <- app_assoc.
    + simpl. by eapply delivers_prefix.
  - exists w', evs, None. split_and!; try done.
    + simpl. by rewrite app_nil_r.
    + by eapply delivers_prefix.
Qed.


(** X6: [onRemoteMessage] on an envelope is [localDispatch] of what the
    envelope holds: the channel, the payload and the return channel
    are passed on as they are; an envelope for a channel without
    subscribers is dropped. *)
Theorem onRemoteMessage_unpacks_envelope (fuel : nat) (w : World) (l : nat)
    (c : string) (payload rc : val) :
  heap w !! l = Some (MessageEnvelope.constructor (VStr c) payload rc) →
  onRemoteMessage behaviour random fuel w (VRef l)
  = localDispatch behaviour random fuel w c payload rc ∧
  (subscribers (registry w) c = [] → registry_ok (registry w) →
   onRemoteMessage behaviour random fuel w (VRef l) = Done w).
Proof.
  intros H. split; [by apply onRemoteMessage_envelope|].
  intros Hs Hr. rewrite (onRemoteMessage_envelope fuel w l c payload rc H).
  apply localDispatch_absent.
  destruct (channels (registry w) !! c) as [sid|] eqn:Hc; [|done].
  exfalso. apply (registry_ok_present _ c Hr); [|done]. by rewrite Hc.
Qed.


(** X8: A message from a remote is for the local subscribers only.  When
    they work on the value they are handed, handling an envelope for
    their channel sends nothing to any remote and leaves the registry
    as it is; the handler runs once for every listener registered by
    the constructor and by [attach], so that the first subscriber of
    the channel is called as many times as there are listeners. *)
Theorem remote_message_stays_local (fuel : nat) (w : World) (l : nat)
    (c : string) (payload rc : val) (cb : callback) (rest : list callback)
    (isRenderer : bool) :
  heap w !! l = Some (MessageEnvelope.constructor (VStr c) payload rc) →
  heap_ok (heap w) →
  subscribers (registry w) c = cb :: rest → cb ∉ rest →
  (∀ cb', cb' ∈ cb :: rest →
     ∃ f, cb' = User f ∧ Forall (fun a => own_action a = true) (behaviour f)) →
  length (set_of (registry w) c) < fuel →
  ∃ w' new,
    step behaviour random isRenderer fuel w (IMessage (VRef l)) = Done w' ∧
    registry w' = registry w ∧ calls w' = calls w ∧ timers w' = timers w ∧
    trace w' = trace w ++ new ∧
    count (is_call cb) new = listeners w ∧
    (∀ r m, EvSend r m ∉ new) ∧
    (∀ cb' arg rc', EvCall cb' arg rc' ∈ new → rc' = rc ∧ cb' ∈ cb :: rest) ∧
    take (length (heap w)) (heap w') = heap w.
Proof.
  intros Hl Hh Hs Hn Hown Hfuel. simpl.
  generalize (listeners w) as k. intros k.
  revert w Hl Hh Hs Hown Hfuel.
  induction k as [|k IH]; intros w Hl Hh Hs Hown Hfuel.
  - exists w, []. simpl. rewrite app_nil_r, firstn_all. split_and!; try done.
    + intros r m H. by apply elem_of_nil in H.
    + intros cb' arg rc' H. by apply elem_of_nil in H.
  - simpl. rewrite (onRemoteMessage_envelope fuel w l c payload rc Hl).
    destruct (localDispatch_own fuel w c payload rc)
      as (w1 & evs & thrown & Hd & H1 & H2 & H3 & H4 & H5 & H6 & H7);
      [by rewrite Hs|done|by eapply heap_ok_envelope|done|].
    rewrite Hd.
    assert (heap w1 !! l = Some (MessageEnvelope.constructor (VStr c) payload rc))
      as Hl1.
    { by apply (prefix_lookup (heap w)). }
    destruct (IH w1) as (w2 & new & Hd2 & G1 & G2 & G3 & G4 & G5 & G6 & G7 & G8);
      [done|done|by rewrite H1|done|by rewrite H1|].
    exists w2, ((evs ++ uncaught thrown) ++ new). rewrite Hd2.
    rewrite Hs in H5.
    split_and!.
    + done.
    + by rewrite G1.
    + by rewrite G2.
    + by rewrite G3.
    + rewrite G4, H4. by rewrite <- !app_assoc.
    + rewrite !count_app, G5, (delivers_first_called _ _ _ _ _ _ _ _ H5 Hn).
      destruct thrown; simpl; lia.
    + intros r m [[Hin|Hin]%elem_of_app|Hin]%elem_of_app.
      * destruct (delivers_only_calls _ _ _ _ _ _ _ _ H5 Hin) as (? & ? & ? & _).
        done.
      * destruct thrown; simpl in Hin; [|by apply elem_of_nil in Hin].
        by apply list_elem_of_singleton in Hin.
      * by apply G6 in Hin.
    + intros cb' arg rc' [[Hin|Hin]%elem_of_app|Hin]%elem_of_app.
      * destruct (delivers_only_calls _ _ _ _ _ _ _ _ H5 Hin) as (? & ? & [= -> -> ->] & ?).
        done.
      * destruct thrown; simpl in Hin; [|by apply elem_of_nil in Hin].
        by apply list_elem_of_singleton in Hin.
      * by apply G7 in Hin.
    + pose proof (prefix_length _ _ H7) as Hle.
      transitivity (take (length (heap w)) (take (length (heap w1)) (heap w2))).
      * rewrite take_take. f_equal. lia.
      * by rewrite G8.
Qed.

End Remote.

(** X9: [isRenderer] never throws; it is true exactly when [process] is an
    object whose [type] is ["renderer"], so it is false in the main
    process, whose [type] is ["browser"], and where [process] has no
    [type]. *)
Theorem isRenderer_only_in_renderer (h : list (list (string * val)))
    (process : val) :
  (∃ b, get_isRenderer h process = Normal b) ∧
  (get_isRenderer h process = Normal true ↔
   ∃ l ob, process = VRef l ∧ h !! l = Some ob ∧
           get_own ob "type" = VStr "renderer") ∧
  (∀ l ob, process = VRef l → h !! l = Some ob →
           get_own ob "type" = VStr "browser" ∨ get_own ob "type" = VUndefined →
           get_isRenderer h process = Normal false).
Proof.
  unfold get_isRenderer. split_and!.
  - destruct process; simpl; eauto.
    + destruct b; simpl; eauto.
    + destruct (negb (n =? 0)%Z); simpl; eauto.
    + destruct (negb (bool_decide (s = ""))); simpl; eauto.
    + destruct (truthy _); eauto.
  - split.
    + destruct process as [| |b|n| |s|l]; simpl; try discriminate.
      * destruct b; discriminate.
      * destruct (negb (n =? 0)%Z); discriminate.
      * destruct (negb (bool_decide (s = ""))); discriminate.
      * destruct (h !! l) as [ob|] eqn:Hl; simpl; [|discriminate].
        destruct (truthy (get_own ob "type")) eqn:Ht; [|discriminate].
        intros [= Heq]. exists l, ob. split_and!; try done.
        destruct (get_own ob "type"); simpl in Heq; try done.
        all: apply bool_decide_eq_true in Heq; congruence.
    + intros (l & ob & -> & Hl & Ht). simpl. rewrite Hl. simpl. by rewrite Ht.
  - intros l ob -> Hl [Ht|Ht]; simpl; rewrite Hl; simpl; by rewrite Ht.
Qed.

(** ** Responses *)

Import ElectronBus.

Lemma first_entry_of_empty (d : list (option callback)) (idx : nat) :
  set_elements d = [] → first_entry d idx = None.
Proof.
  intros He. destruct (first_entry d idx) as [[cb idx']|] eqn:Hn; [|done].
  apply first_entry_elem, elem_of_set_elements in Hn. rewrite He in Hn.
  by apply elem_of_nil in Hn.
Qed.

Lemma next_entry_at_end (d : list (option callback)) (idx : nat) :
  set_elements (drop idx d) = [] → next_entry d idx = None.
Proof. apply first_entry_of_empty. Qed.

Lemma subscribers_sole (r : Registry) (c : string) (cb : callback)
    (rest : list callback) :
  subscribers r c = cb :: rest →
  ∃ sid d, channels r !! c = Some sid ∧ sets r !! sid = Some d ∧
           set_elements d = cb :: rest.
Proof.
  unfold subscribers. destruct (channels r !! c) as [sid|]; [|done].
  destruct (sets r !! sid) as [d|] eqn:Hd; simpl; [|done].
  intros H. exists sid, d. split_and!; done.
Qed.

Lemma unsubscribe_last (r : Registry) (c : string) (cb : callback)
    (sid : nat) (d : list (option callback)) :
  channels r !! c = Some sid → sets r !! sid = Some d →
  set_elements d = [cb] →
  unsubscribe r c cb =
  mkRegistry (alter (fun d => set_delete d cb) sid (sets r))
             (delete c (channels r)).
Proof.
  intros Hc Hd He. rewrite (unsubscribe_present r c cb sid d Hc Hd).
  rewrite set_elements_delete, He, filter_cons_False, filter_nil by (intros ?; done).
  by rewrite decide_True.
Qed.

Section Response.

Variable behaviour : nat → list action.
Variable random : nat → N.
Variable isRenderer : bool.

Lemma localDispatch_response (fuel : nat) (w : World) (n i sid : nat)
    (a : activation) (rc : string) (d : list (option callback))
    (v rc' : val) (h1 : list (list (string * val))) (arg : val) :
  calls w !! n = Some a → result a = Pending →
  returnPath a = Some (mkSubscription rc (Responder n)) → timer a = S i →
  channels (registry w) !! rc = Some sid → sets (registry w) !! sid = Some d →
  set_elements d = [Responder n] →
  clone (heap w) v = Some (h1, arg) →
  localDispatch behaviour random (S (S fuel)) w rc v rc'
  = Done (answered w n i sid a rc h1 arg rc').
Proof.
  intros Ha Hp Hrp Ht Hc Hd He Hcl.
  unfold localDispatch, localDispatch_with. rewrite Hc.
  destruct (next_entry_of_elements d 0 (Responder n) []) as (idx' & Hn & Hr & He');
    [by rewrite drop_0|].
  rewrite (for_of_next behaviour random (S fuel) w sid 0 v rc'
             (Responder n) idx' h1 arg) by (by rewrite ?Hd).
  unfold invoke, invoke_with.
  set (w0 := log (with_heap h1 w) (EvCall (Responder n) arg rc')).
  rewrite (responder_finish w0 n i a arg) by done.
  rewrite (finish_eq w0 n i a rc (Resolved arg)) by done.
  assert (registry w0 = registry w) as -> by done.
  rewrite (unsubscribe_last (registry w) rc (Responder n) sid d) by done.
  rewrite for_of_done.
  - unfold answered. subst w0. simpl. by rewrite <- app_assoc.
  - simpl. rewrite list_lookup_alter_eq, Hd. simpl.
    apply next_entry_of_empty.
    rewrite set_elements_delete, He, filter_cons_False, filter_nil by (intros ?; done).
    done.
Qed.

Lemma sole_responder (w : World) (n : nat) (a : activation) (rc : string) :
  bus_ok w → calls w !! n = Some a → result a = Pending →
  returnChannel a = VStr rc →
  subscribers (registry w) rc = [Responder n] →
  ∃ i slot sid d,
    returnPath a = Some (mkSubscription rc (Responder n)) ∧ timer a = S i ∧
    timers w !! i = Some slot ∧ armed slot = true ∧ owner slot = n ∧
    channels (registry w) !! rc = Some sid ∧ sets (registry w) !! sid = Some d ∧
    set_elements d = [Responder n].
Proof.
  intros Hok Ha Hp Hrc Hs.
  assert (is_Some (returnPath a)) as Hsome.
  { destruct (returnPath a) eqn:Hrp; [eauto|].
    destruct (bus_calls w Hok n a Ha) as [_ H]. rewrite Hrp in H.
    destruct H as (H & _). congruence. }
  destruct (activation_waiting w n a Hok Ha Hsome)
    as (rc0 & i & slot & Hrp & Hrc0 & Ht & Hsl & Ho & _ & _ & Harm & _).
  assert (rc0 = rc) as -> by congruence.
  destruct (subscribers_sole _ _ _ _ Hs) as (sid & d & Hc & Hd & He).
  exists i, slot, sid, d. rewrite Hp in Harm. split_and!; done.
Qed.



(** X11: A response that comes after the time-out is dropped.  Once the
    timer of a pending request has run, the promise is rejected and
    the return channel is gone, so that a message on the return
    channel, local or from a remote, calls nobody and leaves the bus
    as it is. *)
Theorem late_response_is_dropped (w : World) (n i : nat) (a : activation)
    (rc : string) :
  reachable behaviour random isRenderer w →
  calls w !! n = Some a → result a = Pending →
  returnChannel a = VStr rc → timer a = S i →
  subscribers (registry w) rc = [Responder n] →
  promise (fire w i) n = Rejected "Time out" ∧
  channels (registry (fire w i)) !! rc = None ∧
  ∀ fuel v rc',
    localDispatch behaviour random fuel (fire w i) rc v rc' = Done (fire w i) ∧
    ∀ l, heap (fire w i) !! l
         = Some (MessageEnvelope.constructor (VStr rc) v rc') →
         onRemoteMessage behaviour random fuel (fire w i) (VRef l)
         = Done (fire w i).
Proof.
  intros Hreach Ha Hp Hrc Ht Hs.
  pose proof (reachable_ok _ _ _ _ Hreach) as Hok.
  destruct (sole_responder w n a rc Hok Ha Hp Hrc Hs)
    as (i0 & slot & sid & d & Hrp & Ht0 & Hsl & Harm & Ho & Hc & Hd & He).
  assert (i0 = i) as -> by congruence.
  rewrite (fire_finish w i slot Hsl Harm), Ho.
  rewrite (finish_eq (log w (EvTimeout i)) n i a rc (Rejected "Time out"))
    by done.
  assert (registry (log w (EvTimeout i)) = registry w) as -> by done.
  rewrite (unsubscribe_last (registry w) rc (Responder n) sid d) by done.
  set (w1 := mkWorld _ _ _ _ _ _ _ _).
  assert (channels (registry w1) !! rc = None) as Hgone
    by (simpl; apply lookup_delete_eq).
  split_and!.
  - unfold promise. simpl. rewrite list_lookup_insert_eq; [done|].
    by apply lookup_lt_Some in Ha.
  - done.
  - intros fuel v rc'. split.
    + by apply localDispatch_absent.
    + intros l Hl. rewrite (onRemoteMessage_envelope _ _ _ _ _ _ _ _ Hl).
      by apply localDispatch_absent.
Qed.

(** X12: A request answered by a local subscriber.  When the only
    subscriber of a channel replies on the return channel it is
    handed, a waiting [dispatch] on that channel is resolved before
    it returns: the subscriber gets a copy of the payload, its reply
    is dispatched and reaches the closure of the request, which
    resolves the promise with a copy of the reply, turns the timer
    off and removes the return channel; the reply is relayed to the
    remotes, and after it the request. *)
Theorem request_answered_locally (fuel : nat) (w : World) (c : string)
    (payload : val) (o o' : options) (f : nat) (e : expr)
    (h1 : list (list (string * val))) (arg v : val) :
  heap_ok (heap w) → val_ok (heap w) payload →
  truthy (waiting o) = true →
  channels (registry w) !! next_returnChannel random w c = None →
  subscribers (registry w) c = [User f] →
  behaviour f = [ADispatch ChReturn e o'] → truthy (waiting o') = false →
  clone (heap w) payload = Some (h1, arg) →
  eval h1 arg e = Normal v → val_ok h1 v →
  3 ≤ fuel →
  let n := length (calls w) in
  let rc := next_returnChannel random w c in
  ∃ w' h2 arg2,
    dispatch behaviour random fuel w c payload o = Done w' ∧
    clone h1 v = Some (h2, arg2) ∧
    promise w' n = Resolved arg2 ∧
    promise w' (S n) = Resolved VUndefined ∧
    length (calls w') = S (S n) ∧
    timer_set w' (S (length (timers w))) = false ∧
    channels (registry w') !! rc = None ∧
    subscribers (registry w') c = [User f] ∧
    trace w' = trace w
      ++ [EvCall (User f) arg (VStr rc);
          EvSettle (S n) (Resolved VUndefined);
          EvCall (Responder n) arg2 VUndefined;
          EvSettle n (Resolved arg2)]
      ++ relay_events (length h2) (remotes w)
      ++ relay_events (length h2 + length (remotes w)) (remotes w).
Proof.
  intros Hh Hp Hw Hfresh Hs Hf Hw' Hcl He Hv Hfuel n rc.
  destruct fuel as [|[|[|fuel]]]; [lia|lia|lia|].
  destruct (subscribers_sole _ _ _ _ Hs) as (sid & d & Hc & Hd & Hel).
  assert (rc ≠ c) as Hne by (intros Heq; subst rc; congruence).
  destruct (clone_fresh_copy (heap w) payload Hh Hp) as (h1' & arg' & Hcl' & Hfc).
  rewrite Hcl in Hcl'. injection Hcl' as <- <-.
  destruct Hfc as (_ & _ & _ & _ & Hh1).
  destruct (clone_fresh_copy h1 v Hh1 Hv) as (h2 & arg2 & Hcl2 & Hfc2).
  destruct (next_entry_of_elements d 0 (User f) [])
    as (idx' & Hnext & Hidx & Hend); [by rewrite drop_0|].
  assert (sid < length (sets (registry w))) as Hsid by by apply lookup_lt_Some in Hd.
  set (a0 := mkActivation Pending (VStr rc)
               (Some (mkSubscription rc (Responder n))) (S (length (timers w)))).
  set (a1 := mkActivation (Resolved VUndefined) VUndefined None 0).
  set (r1 := mkRegistry (sets (registry w) ++ [[Some (Responder n)]])
               (<[rc := length (sets (registry w))]> (channels (registry w)))).
  set (ts := timers w ++ [mkSlot (deadline o) n true]).
  set (w1 := mkWorld (heap w) r1 (remotes w) (listeners w) (calls w ++ [a0]) ts
               (S (draws w)) (trace w)).
  set (w2 := log (with_heap h1 w1) (EvCall (User f) arg (VStr rc))).
  set (w3 := mkWorld h1 r1 (remotes w) (listeners w) ((calls w ++ [a0]) ++ [a1]) ts
               (S (draws w))
               ((trace w ++ [EvCall (User f) arg (VStr rc)])
                ++ [EvSettle (S n) (Resolved VUndefined)])).
  set (w4 := answered w3 n (length (timers w)) (length (sets (registry w))) a0
               rc h2 arg2 VUndefined).
  set (w5 := relay w4 rc v VUndefined).
  set (w6 := relay w5 c payload (VStr rc)).
  assert (prepare random w c o = w1) as P1.
  { rewrite (prepare_waiting random w c o Hw). cbv zeta.
    fold n. fold rc. by rewrite (subscribe_absent (registry w) rc (Responder n) Hfresh). }
  assert (prepare random w2 rc o' = w3) as P2.
  { rewrite (prepare_not_waiting random w2 rc o' Hw'). subst w2 w3 w1. simpl.
    rewrite length_app. simpl. by rewrite Nat.add_1_r. }
  assert (calls w3 !! n = Some a0) as Ha0.
  { subst w3. simpl. apply lookup_app_l_Some, lookup_snoc_length. }
  assert (localDispatch behaviour random (S (S fuel)) w3 rc v VUndefined = Done w4) as P3.
  { apply (localDispatch_response fuel w3 n (length (timers w))
             (length (sets (registry w))) a0 rc [Some (Responder n)]);
      try done.
    - subst w3 r1. simpl. apply lookup_insert_eq.
    - subst w3 r1. simpl. apply lookup_snoc_length. }
  assert (dispatch behaviour random (S (S fuel)) w2 rc v o' = Done w5) as P4.
  { unfold dispatch, dispatch_with. rewrite P2.
    assert (from_option returnChannel VUndefined (calls w3 !! length (calls w2))
            = VUndefined) as ->.
    { subst w3 w2 w1. simpl. rewrite lookup_snoc_length. done. }
    fold (localDispatch behaviour random (S (S fuel)) w3 rc v VUndefined).
    by rewrite P3. }
  assert (registry w5 = registry w4) as R5 by apply relay_spec.
  assert (registry w6 = registry w4) as R6.
  { transitivity (registry w5); [apply relay_spec|done]. }
  assert (sets (registry w4) !! sid = Some d) as Hd4.
  { subst w4 w3 r1. simpl. rewrite list_lookup_alter_ne by lia.
    by apply lookup_app_l_Some. }
  assert (channels (registry w4) !! c = Some sid) as Hc4.
  { subst w4 w3 r1. simpl. rewrite lookup_delete_ne, lookup_insert_ne by done. done. }
  assert (localDispatch behaviour random (S (S (S fuel))) w1 c payload (VStr rc)
          = Done w5) as P5.
  { unfold localDispatch, localDispatch_with.
    assert (channels (registry w1) !! c = Some sid) as ->.
    { subst w1 r1. simpl. by rewrite lookup_insert_ne. }
    rewrite (for_of_next behaviour random (S (S fuel)) w1 sid 0 payload (VStr rc)
               (User f) idx' h1 arg).
    2: { subst w1 r1. simpl. by rewrite (lookup_app_l_Some _ _ _ _ Hd). }
    2: { done. }
    fold w2. unfold invoke, invoke_with. rewrite Hf.
    cbn [run_with act_with chan_name].
    assert (heap w2 = h1) as -> by done. rewrite He.
    fold (dispatch behaviour random (S (S fuel)) w2 rc v o'). rewrite P4.
    rewrite for_of_done; [done|].
    rewrite R5, Hd4. simpl. by apply next_entry_at_end. }
  assert (dispatch behaviour random (S (S (S fuel))) w c payload o = Done w6) as P6.
  { unfold dispatch, dispatch_with. rewrite P1.
    assert (from_option returnChannel VUndefined (calls w1 !! length (calls w))
            = VStr rc) as ->.
    { subst w1. simpl. by rewrite lookup_snoc_length. }
    fold (localDispatch behaviour random (S (S (S fuel))) w1 c payload (VStr rc)).
    by rewrite P5. }
  destruct (relay_spec w4 rc v VUndefined) as (_ & C5 & T5 & M5 & H5 & E5).
  destruct (relay_spec w5 c payload (VStr rc)) as (_ & C6 & T6 & M6 & H6 & E6).
  fold w5 in C5, T5, M5, H5, E5. fold w6 in C6, T6, M6, H6, E6.
  assert (n < length (calls w3)) as Hn3 by by apply lookup_lt_Some in Ha0.
  exists w6, h2, arg2. split_and!.
  - done.
  - done.
  - unfold promise. rewrite C6, C5. subst w4. simpl.
    by rewrite list_lookup_insert_eq.
  - unfold promise. rewrite C6, C5. subst w4. simpl.
    rewrite list_lookup_insert_ne by lia.
    subst w3. simpl.
    assert (S n = length (calls w ++ [a0])) as ->
      by (rewrite length_app; simpl; lia).
    by rewrite lookup_snoc_length.
  - rewrite C6, C5. subst w4. simpl. rewrite length_insert.
    subst w3. simpl. rewrite !length_app. simpl. lia.
  - unfold timer_set. rewrite T6, T5. subst w4 w3 ts. simpl.
    by rewrite alter_snoc, lookup_snoc_length.
  - rewrite R6. subst w4. simpl. apply lookup_delete_eq.
  - rewrite R6. rewrite (subscribers_lookup _ c sid d Hc4 Hd4). done.
  - rewrite E6, E5, H5, M5, length_app, length_replicate.
    subst w4 w3. simpl. by rewrite <- !app_assoc.
Qed.

End Response.

(** ** The name of the return channel *)

Import ElectronBus.

Lemma string_app_cons (a : ascii) (s t : string) :
  String a s +:+ t = String a (s +:+ t).
Proof. reflexivity. Qed.

Lemma string_app_nil_l (t : string) : "" +:+ t = t.
Proof. reflexivity. Qed.

Ltac string_simpl :=
  repeat first [ rewrite string_app_cons | rewrite string_app_nil_l ].

Lemma string_app_nil_r (s : string) : s +:+ "" = s.
Proof. induction s as [|a s IH]; string_simpl; [done|]. by rewrite IH. Qed.

Lemma string_app_assoc (s1 s2 s3 : string) :
  (s1 +:+ s2) +:+ s3 = s1 +:+ (s2 +:+ s3).
Proof. induction s1 as [|a s1 IH]; string_simpl; [done|]. by rewrite IH. Qed.

Lemma digit36_value_digit36 (d : N) :
  (d < 36)%N → digit36_value (digit36 d) = Some d.
Proof.
  intros H. rewrite <- (N2Nat.id d).
  assert (N.to_nat d < 36) as Hk by lia.
  generalize dependent (N.to_nat d). clear H. intros k Hk.
  do 36 (destruct k as [|k]; [reflexivity|]). lia.
Qed.

Lemma parseInt36_from_dash (s1 s2 : string) (a : N) :
  parseInt36_from a (s1 +:+ String "-" s2) = None.
Proof.
  revert a. induction s1 as [|x s1 IH]; intros a; string_simpl; simpl; [done|].
  destruct (digit36_value x); [apply IH|done].
Qed.

Lemma toString36_digits_S (fuel : nat) (n : N) (acc : string) :
  toString36_digits (S fuel) n acc =
  if (n / 36 =? 0)%N then String (digit36 (n mod 36)) acc
  else toString36_digits fuel (n / 36) (String (digit36 (n mod 36)) acc).
Proof. reflexivity. Qed.

(** The digits [toString36_digits] writes in front of [acc] read back
    as the number. *)
Lemma toString36_digits_spec (fuel : nat) :
  ∀ n acc, (n < 2 ^ N.of_nat (S fuel))%N →
    ∃ ds B, toString36_digits (S fuel) n acc = ds +:+ acc ∧ ds ≠ "" ∧
      ∀ a rest, parseInt36_from a (ds +:+ rest)
                = parseInt36_from (a * B + n)%N rest.
Proof.
  induction fuel as [|fuel IH]; intros n acc Hn.
  - assert (n / 36 = 0)%N as Hq.
    { apply N.div_small. change (2 ^ N.of_nat 1)%N with 2%N in Hn. lia. }
    rewrite toString36_digits_S, Hq. simpl.
    exists (String (digit36 (n mod 36)) ""), 36%N. split_and!; [done|done|].
    intros a rest. string_simpl. simpl.
    rewrite digit36_value_digit36 by (apply N.mod_lt; lia).
    f_equal. rewrite (N.div_mod n 36) at 2 by lia. rewrite Hq. lia.
  - rewrite toString36_digits_S.
    destruct (n / 36 =? 0)%N eqn:Hq.
    + apply N.eqb_eq in Hq.
      exists (String (digit36 (n mod 36)) ""), 36%N. split_and!; [done|done|].
      intros a rest. string_simpl. simpl.
      rewrite digit36_value_digit36 by (apply N.mod_lt; lia).
      f_equal. rewrite (N.div_mod n 36) at 2 by lia. rewrite Hq. lia.
    + destruct (IH (n / 36)%N (String (digit36 (n mod 36)) acc))
        as (ds & B & Heq & Hne & Hparse).
      { apply N.Div0.div_lt_upper_bound.
        rewrite Nat2N.inj_succ, N.pow_succ_r' in Hn. lia. }
      exists (ds +:+ String (digit36 (n mod 36)) ""), (B * 36)%N. split_and!.
      * rewrite Heq. by rewrite string_app_assoc.
      * destruct ds; [done|]. string_simpl. done.
      * intros a rest. rewrite string_app_assoc. string_simpl.
        rewrite Hparse. simpl.
        rewrite digit36_value_digit36 by (apply N.mod_lt; lia).
        f_equal. rewrite (N.div_mod n 36) at 3 by lia. lia.
Qed.

Lemma toString36_spec (n : N) :
  toString36 n ≠ "" ∧
  ∀ rest, parseInt36_from 0%N (toString36 n +:+ rest) = parseInt36_from n rest.
Proof.
  unfold toString36.
  destruct (toString36_digits_spec (N.to_nat (N.log2 n)) n "")
    as (ds & B & Heq & Hne & Hparse).
  { rewrite Nat2N.inj_succ, N2Nat.id.
    destruct (N.eq_dec n 0%N) as [->|Hn0]; [done|].
    apply N.log2_spec. lia. }
  rewrite Heq, string_app_nil_r. split; [done|].
  intros rest. rewrite Hparse. f_equal.
Qed.

Lemma parseInt36_toString36 (n : N) : parseInt36 (toString36 n) = Some n.
Proof.
  destruct (toString36_spec n) as [Hne Hparse].
  specialize (Hparse ""). rewrite string_app_nil_r in Hparse.
  unfold parseInt36. destruct (toString36 n); [done|]. exact Hparse.
Qed.

Lemma toString36_no_dash (n : N) (s1 s2 : string) :
  toString36 n ≠ s1 +:+ String "-" s2.
Proof.
  intros Heq. destruct (toString36_spec n) as [_ Hparse].
  specialize (Hparse ""). rewrite string_app_nil_r, Heq in Hparse.
  by rewrite parseInt36_from_dash in Hparse.
Qed.

Lemma split_at_last_dash (c1 c2 : string) (n1 n2 : N) :
  c1 +:+ "-" +:+ toString36 n1 = c2 +:+ "-" +:+ toString36 n2 →
  c1 = c2 ∧ toString36 n1 = toString36 n2.
Proof.
  revert c2. induction c1 as [|a c1 IH]; intros [|b c2]; string_simpl; intros Heq.
  - injection Heq as Heq. done.
  - injection Heq as <- Heq. by apply toString36_no_dash in Heq.
  - injection Heq as -> Heq. symmetry in Heq. by apply toString36_no_dash in Heq.
  - injection Heq as -> Heq. destruct (IH c2 Heq) as [-> ?]. done.
Qed.

(** X13: [toString(36)] and [parseInt(_, 36)] are inverse to each other on
    what [toString(36)] writes: the suffix of a return channel is a
    numeral that has at least one digit, has digits and lower-case
    letters only, and reads back as the number drawn; so different
    numbers give different suffixes. *)
Theorem toString36_reads_back (n : N) :
  parseInt36 (toString36 n) = Some n ∧
  toString36 n ≠ "" ∧
  (∀ s1 s2, toString36 n ≠ s1 +:+ String "-" s2) ∧
  (∀ m, toString36 m = toString36 n → m = n).
Proof.
  split_and!.
  - apply parseInt36_toString36.
  - apply toString36_spec.
  - apply toString36_no_dash.
  - intros m Heq. pose proof (parseInt36_toString36 m) as Hm.
    rewrite Heq, parseInt36_toString36 in Hm. congruence.
Qed.

(** X14: The return channel names its request: it is the channel of the
    request, a dash and the numeral of the number drawn, so that two
    waiting calls of [dispatch] get the same return channel only when
    they are on the same channel and draw the same number. *)
Theorem return_channel_names_request (random : nat → N) (w1 w2 : World)
    (c1 c2 : string) :
  next_returnChannel random w1 c1 = next_returnChannel random w2 c2 ↔
  c1 = c2 ∧ random (draws w1) = random (draws w2).
Proof.
  unfold next_returnChannel. split.
  - intros Heq. destruct (split_at_last_dash _ _ _ _ Heq) as [-> Hs].
    split; [done|].
    pose proof (parseInt36_toString36 (random (draws w1))) as Hm.
    rewrite Hs, parseInt36_toString36 in Hm. congruence.
  - intros [-> ->]. done.
Qed.

(** ** The remotes and what is sent to them *)

Import ElectronBus.



Section Bus.

Variable behaviour : nat → list action.
Variable random : nat → N.
Variable isRenderer : bool.

Lemma step_keeps_remotes (fuel : nat) (w : World) (i : input) (w' : World) :
  bus_ok w → (∀ remote, i ≠ IAttach remote) →
  world_of (step behaviour random isRenderer fuel w i) = Some w' →
  remotes w' = remotes w ∧ listeners w' = listeners w.
Proof.
  intros Hok Hi. destruct i as [acts|remote|ob|t|data]; simpl.
  - pose proof (run_with_ok random _ (for_of_ok behaviour random fuel)
                  acts w VUndefined VUndefined Hok) as Hp.
    unfold run. destruct (run_with _ _ _ _ _ _) as [w1|w1 m|]; simpl;
      [| |done]; intros [= <-]; destruct Hp as [_ He];
      split; [apply He|apply He|apply He|apply He].
  - by destruct (Hi remote).
  - by intros [= <-].
  - intros [= <-]. destruct (fire_ok w t Hok) as [_ He]. split; apply He.
  - pose proof (deliver_ok behaviour random fuel data (listeners w) w Hok) as Hp.
    destruct (deliver _ _ _ _ _ _) as [w1|w1 m|]; simpl;
      [| |done]; intros [= <-]; destruct Hp as [_ He];
      split; [apply He|apply He|apply He|apply He].
Qed.

(** X15: The remotes of a bus are what was attached to it.  In a renderer
    process the only remote there ever is is [ipcRenderer], with one
    listener, and [attach] always throws; in the main process the
    remotes are the [webContents] of the windows attached, each of
    them once however often its window was attached, and there is a
    listener for every successful call of [attach]. *)
Theorem remotes_are_what_was_attached (w : World) :
  reachable behaviour random isRenderer w →
  NoDup (remotes w) ∧ length (remotes w) ≤ listeners w ∧
  (isRenderer = true →
   remotes w = [IpcRenderer] ∧ listeners w = 1 ∧
   ∀ remote, attach isRenderer w remote
             = Throw "Remote must be an instance of BrowserWindow") ∧
  (isRenderer = false →
   (∀ r, r ∈ remotes w → ∃ id, r = WebContents id) ∧
   (remotes w = [] → listeners w = 0)).
Proof.
  intros Hr.
  assert (NoDup (remotes w) ∧ length (remotes w) ≤ listeners w ∧
          (isRenderer = true → remotes w = [IpcRenderer] ∧ listeners w = 1) ∧
          (isRenderer = false →
           (∀ r, r ∈ remotes w → ∃ id, r = WebContents id) ∧
           (remotes w = [] → listeners w = 0))) as H.
  { induction Hr as [remote w Hc | w fuel i w' Hr IH Hs].
    - unfold constructor in Hc. destruct isRenderer.
      + injection Hc as <-. simpl. split_and!; try done.
        * apply NoDup_singleton.
      + destruct remote as [wc|v].
        * simpl in Hc. injection Hc as <-. simpl. split_and!; try done.
          -- apply NoDup_singleton.
          -- intros _. split; [|done].
             intros r ->%list_elem_of_singleton. eauto.
        * destruct (truthy v); [done|]. injection Hc as <-. simpl.
          split_and!; try done.
          -- apply NoDup_nil_2.
          -- intros _. split; [|done]. intros r H. by apply elem_of_nil in H.
    - pose proof (reachable_ok _ _ _ _ Hr) as Hok.
      assert ((∃ remote, i = IAttach remote) ∨ ∀ remote, i ≠ IAttach remote)
        as [[remote ->]|Hna] by (destruct i; eauto; right; done).
      + simpl in Hs. unfold attach, isBrowserWindow in Hs.
        destruct isRenderer; simpl in Hs.
        { by injection Hs as <-. }
        destruct remote as [wc|v]; simpl in Hs; [|by injection Hs as <-].
        injection Hs as <-. destruct IH as (Hnd & Hlen & _ & Hmain).
        destruct (Hmain eq_refl) as [Hwc Hempty].
        unfold remotes_add. case_bool_decide as Hin; simpl.
        * split_and!; try done; [lia|]. intros _. split; [done|].
          intros He. rewrite He in Hin. by apply elem_of_nil in Hin.
        * split_and!; try done.
          -- apply NoDup_app. split_and!; [done| |apply NoDup_singleton].
             intros x Hx ->%list_elem_of_singleton. done.
          -- rewrite length_app. simpl. lia.
          -- intros _. split.
             ++ intros r [Hr'| ->%list_elem_of_singleton]%elem_of_app; eauto.
             ++ intros He. by destruct (remotes w).
      + by destruct (step_keeps_remotes fuel w i w' Hok Hna Hs) as [-> ->]. }
  destruct H as (H1 & H2 & H3 & H4). split_and!; try done.
  intros ->. destruct (H3 eq_refl) as [? ?]. split_and!; try done.
Qed.


(** X17: A [dispatch] whose options do not ask to wait: the options may be
    left out, be [null], a primitive, or an object whose [waiting] is
    absent or falsy.  The promise is resolved with [undefined] before
    any subscriber is called and stays so; no return channel and no
    timer are made for it, and no number is drawn; the subscribers
    and the remotes are handed [undefined] for a return channel. *)
Theorem dispatch_without_waiting (fuel : nat) (w : World) (c : string)
    (payload opts : val) (w' : World) :
  reachable behaviour random isRenderer w →
  truthy (waiting (unpack_options (heap w) opts)) = false →
  dispatch_call behaviour random fuel w c payload opts = Done w' →
  let n := length (calls w) in
  ((∀ l, opts ≠ VRef l) →
   unpack_options (heap w) opts = mkOptions VUndefined VUndefined) ∧
  promise w' n = Resolved VUndefined ∧
  (∃ a, calls w' !! n = Some a ∧ returnPath a = None ∧
        returnChannel a = VUndefined ∧ timer a = 0) ∧
  (∃ new, trace w' = trace w ++ EvSettle n (Resolved VUndefined) :: new) ∧
  (∃ w1, localDispatch behaviour random fuel
           (prepare random w c (unpack_options (heap w) opts))
           c payload VUndefined = Done w1 ∧
         w' = relay w1 c payload VUndefined) ∧
  registry (prepare random w c (unpack_options (heap w) opts)) = registry w ∧
  timers (prepare random w c (unpack_options (heap w) opts)) = timers w ∧
  draws (prepare random w c (unpack_options (heap w) opts)) = draws w.
Proof.
  intros Hr Hw Hd n.
  pose proof (reachable_ok _ _ _ _ Hr) as Hok.
  set (o := unpack_options (heap w) opts) in *.
  destruct (prepare_ok random w c o Hok) as [Hok1 Hext1].
  pose proof (prepare_not_waiting random w c o Hw) as Hprep.
  unfold dispatch_call, dispatch, dispatch_with in Hd. fold o in Hd.
  assert (from_option returnChannel VUndefined
            (calls (prepare random w c o) !! length (calls w)) = VUndefined) as Hrc.
  { rewrite Hprep. simpl. by rewrite lookup_snoc_length. }
  rewrite Hrc in Hd.
  pose proof (localDispatch_ok behaviour random fuel (prepare random w c o)
                c payload VUndefined Hok1) as Hp.
  unfold localDispatch in *.
  destruct (localDispatch_with _ _ _ _ _) as [w1|w1 m|] eqn:Hl; try done.
  injection Hd as <-. destruct Hp as [_ Hext2].
  destruct (relay_spec w1 c payload VUndefined) as (R1 & R2 & R3 & R4 & R5 & R6).
  assert (calls (prepare random w c o) !! n
          = Some (mkActivation (Resolved VUndefined) VUndefined None 0)) as Ha.
  { rewrite Hprep. simpl. apply lookup_snoc_length. }
  destruct (ext_calls _ _ Hext2 n _ Ha) as (a' & Ha' & E1 & E2 & E3 & E4).
  destruct (ext_trace _ _ Hext2) as (new & Htr & _).
  split_and!.
  - intros Hl'. subst o. destruct opts as [| | | | | |l]; try done.
    by destruct (Hl' l).
  - unfold promise. rewrite R2, Ha'. simpl. by apply E4.
  - exists a'. rewrite R2. split_and!; done.
  - exists (new ++ relay_events (length (heap w1)) (remotes w1)).
    rewrite R6, Htr, Hprep. simpl. by rewrite <- !app_assoc.
  - by exists w1.
  - by rewrite Hprep.
  - by rewrite Hprep.
  - by rewrite Hprep.
Qed.

End Bus.

(** X18: What [new ElectronBus(remote)] gives.  In a renderer process the
    bus has [ipcRenderer] for its one remote and one listener, whatever
    the argument is, and the constructor does not throw; in the main
    process it has the [webContents] of the window it is given, no
    remote when the argument is left out or falsy, and the constructor
    throws on any other argument.  A new bus has no channel, no request
    and no timer. *)
Theorem new_bus (isRenderer : bool) (remote : remote_arg) :
  (isRenderer = true → constructor isRenderer remote = Normal renderer_bus) ∧
  (isRenderer = false →
   match remote with
   | BrowserWindow wc =>
       constructor isRenderer remote
       = Normal (mkWorld [] empty_registry [WebContents wc] 1 [] [] 0 [])
   | Plain v =>
       constructor isRenderer remote
       = if truthy v then Throw "Remote must be an instance of BrowserWindow"
         else Normal main_bus
   end) ∧
  (∀ w, constructor isRenderer remote = Normal w →
        registry w = empty_registry ∧ calls w = [] ∧ timers w = [] ∧
        trace w = [] ∧ heap w = [] ∧ length (remotes w) = listeners w ∧
        ∀ c, subscribers (registry w) c = []).
Proof.
  split_and!.
  - intros ->. reflexivity.
  - intros ->. destruct remote as [wc|v]; [reflexivity|].
    unfold constructor. simpl. by destruct (truthy v).
  - intros w. unfold constructor. destruct isRenderer.
    + intros [= <-]. split_and!; done.
    + destruct remote as [wc|v]; simpl.
      * intros [= <-]. split_and!; done.
      * destruct (truthy v); [done|]. intros [= <-]. split_and!; done.
Qed.

(** X19: Attaching a window that is attached already adds no remote, so
    that [dispatch] goes on sending it one envelope; but it registers
    the handler of incoming messages once more. *)
Theorem attach_again_listens_again (w : World) (wc : nat) :
  ∃ w1 w2,
    attach false w (BrowserWindow wc) = Normal w1 ∧
    attach false w1 (BrowserWindow wc) = Normal w2 ∧
    WebContents wc ∈ remotes w1 ∧
    remotes w2 = remotes w1 ∧
    listeners w1 = S (listeners w) ∧ listeners w2 = S (S (listeners w)) ∧
    registry w2 = registry w ∧ calls w2 = calls w ∧ timers w2 = timers w ∧
    trace w2 = trace w ∧ heap w2 = heap w.
Proof.
  eexists _, _. split; [reflexivity|]. split; [reflexivity|].
  assert (WebContents wc ∈ remotes (remotes_add w (WebContents wc))) as Hin.
  { unfold remotes_add. case_bool_decide; [done|]. simpl.
    apply elem_of_app. right. by apply list_elem_of_singleton. }
  split_and!; try done.
  - simpl. unfold remotes_add at 1. simpl. by rewrite bool_decide_true.
  - simpl. unfold remotes_add. by repeat case_bool_decide.
  - simpl. unfold remotes_add. by repeat case_bool_decide.
  - simpl. unfold remotes_add. by repeat case_bool_decide.
  - simpl. unfold remotes_add. by repeat case_bool_decide.
  - simpl. unfold remotes_add. by repeat case_bool_decide.
  - simpl. unfold remotes_add. by repeat case_bool_decide.
  - simpl. unfold remotes_add. by repeat case_bool_decide.
Qed.

(** ** Subscribers that unsubscribe themselves while they are served *)

Import ElectronBus.



Lemma length_served (keeps : callback → bool) (idx : nat)
    (d : list (option callback)) :
  length (served keeps idx d) = length d.
Proof. unfold served. by rewrite length_imap. Qed.










Section Once.

Variable behaviour : nat → list action.
Variable random : nat → N.
Variable loop : World → nat → nat → val → val → outcome.



End Once.

Section OnceDelivery.

Variable behaviour : nat → list action.
Variable random : nat → N.



End OnceDelivery.

(** ** Subscribers that subscribe another while they are served *)

Section Added.

Variable behaviour : nat → list action.
Variable random : nat → N.



End Added.

(** ** The properties at work, continued *)

Import ElectronBus.

Ltac not_in_list :=
  let H := fresh in
  intros H; repeat (apply elem_of_cons in H as [H|H]; [discriminate H|]);
  by apply elem_of_nil in H.

Lemma log_registry_ok : registry_ok log_registry.
Proof. apply apply_ops_refines. Qed.

Lemma inbox_bus_reachable :
  reachable example_code example_random true inbox_bus.
Proof. repeat apply after_reachable. apply renderer_bus_reachable. Qed.

Lemma inbox_heap_ok : heap_ok (heap inbox_bus).
Proof.
  change (heap inbox_bus)
    with [[("n", VNum 1)];
          MessageEnvelope.constructor (VStr "news") (VRef 0) VUndefined].
  repeat constructor; simpl; try lia; not_in_list.
Qed.

Lemma reply_heap_ok : heap_ok (heap (news_bus [0])).
Proof.
  change (heap (news_bus [0])) with [[("n", VNum 1)]].
  repeat constructor. by apply not_elem_of_nil.
Qed.

Lemma subscribe_twice_is_once_witness :
  (User 0 ∈ subscribers log_registry "log") ∧
  (subscribe log_registry "log" (User 0)).1 = log_registry.
Proof.
  assert (User 0 ∈ subscribers log_registry "log") as Hin
    by apply list_elem_of_here.
  split; [exact Hin|].
  destruct (subscribe_twice_is_once log_registry "log" (User 0)) as [_ H].
  apply H, Hin.
Defined.

Lemma subscribe_then_unsubscribe_witness :
  registry_ok log_registry ∧
  (User 2 ∉ subscribers log_registry "log") ∧
  subscribers (sub_unsubscribe (subscribe log_registry "log" (User 2)).1
                 (subscribe log_registry "log" (User 2)).2) "log"
  = [User 0; User 1].
Proof.
  assert (User 2 ∉ subscribers log_registry "log") as Hn.
  { change (subscribers log_registry "log") with [User 0; User 1]. not_in_list. }
  split; [apply log_registry_ok|]. split; [exact Hn|].
  destruct (subscribe_then_unsubscribe log_registry "log" (User 2)
              log_registry_ok Hn) as (_ & _ & _ & H).
  apply H.
Defined.

Lemma subscribers_keep_their_order_witness :
  registry_ok log_registry ∧
  subscribers (unsubscribe log_registry "log" (User 0)) "log" = [User 1] ∧
  subscribers (subscribe log_registry "other" (User 0)).1 "log" = [User 0; User 1].
Proof.
  split; [apply log_registry_ok|].
  destruct (subscribers_keep_their_order log_registry "log" (User 0)
              log_registry_ok) as (_ & H & _).
  destruct (subscribers_keep_their_order log_registry "other" (User 0)
              log_registry_ok) as (_ & _ & _ & H').
  split; [rewrite H; reflexivity|]. apply (H' "log"). discriminate.
Defined.

Lemma onRemoteMessage_unpacks_envelope_witness :
  heap inbox_bus !! 1
    = Some (MessageEnvelope.constructor (VStr "news") (VRef 0) VUndefined) ∧
  onRemoteMessage example_code example_random 8 inbox_bus (VRef 1)
  = localDispatch example_code example_random 8 inbox_bus "news" (VRef 0) VUndefined.
Proof.
  split; [reflexivity|].
  apply (onRemoteMessage_unpacks_envelope example_code example_random 8
           inbox_bus 1 "news" (VRef 0) VUndefined eq_refl).
Defined.

Lemma remote_message_stays_local_witness :
  heap_ok (heap inbox_bus) ∧
  subscribers (registry inbox_bus) "news" = [User 2] ∧
  listeners inbox_bus = 1 ∧
  ∃ w' new,
    step example_code example_random true 8 inbox_bus (IMessage (VRef 1)) = Done w' ∧
    trace w' = trace inbox_bus ++ new ∧
    count (is_call (User 2)) new = 1 ∧
    ∀ r m, EvSend r m ∉ new.
Proof.
  split; [apply inbox_heap_ok|]. split; [reflexivity|]. split; [reflexivity|].
  destruct (remote_message_stays_local example_code example_random 8 inbox_bus 1
              "news" (VRef 0) VUndefined (User 2) [] true)
    as (w' & new & Hs & _ & _ & _ & Ht & Hc & Hn & _).
  - reflexivity.
  - apply inbox_heap_ok.
  - reflexivity.
  - apply not_elem_of_nil.
  - intros cb ->%list_elem_of_singleton. exists 2. split; [reflexivity|].
    repeat constructor.
  - vm_compute. lia.
  - exists w', new. split_and!; assumption.
Defined.


Lemma late_response_is_dropped_witness :
  reachable example_code example_random false (asking VUndefined) ∧
  promise (fire (asking VUndefined) 0) 0 = Rejected "Time out" ∧
  localDispatch example_code example_random 8 (fire (asking VUndefined) 0)
    "ask-21i3v9" (VNum 7) VUndefined
  = Done (fire (asking VUndefined) 0).
Proof.
  split; [apply asking_reachable|].
  destruct (late_response_is_dropped example_code example_random false
              (asking VUndefined) 0 0
              (mkActivation Pending (VStr "ask-21i3v9")
                 (Some (mkSubscription "ask-21i3v9" (Responder 0))) 1)
              "ask-21i3v9"
              (asking_reachable VUndefined) eq_refl eq_refl eq_refl eq_refl eq_refl)
    as (Hp & _ & H).
  split; [exact Hp|]. apply (H 8 (VNum 7) VUndefined).
Defined.

Lemma request_answered_locally_witness :
  heap_ok (heap (news_bus [0])) ∧
  subscribers (registry (news_bus [0])) "news" = [User 0] ∧
  example_code 0 = [ADispatch ChReturn EArg (mkOptions VUndefined VUndefined)] ∧
  clone (heap (news_bus [0])) (VRef 0)
    = Some ([[("n", VNum 1)]; [("n", VNum 1)]], VRef 1) ∧
  ∃ w' h2 arg2,
    dispatch example_code example_random 8 (news_bus [0]) "news" (VRef 0)
      (mkOptions (VBool true) VUndefined) = Done w' ∧
    clone [[("n", VNum 1)]; [("n", VNum 1)]] (VRef 1) = Some (h2, arg2) ∧
    promise w' 0 = Resolved arg2.
Proof.
  split; [apply reply_heap_ok|]. split; [reflexivity|]. split; [reflexivity|].
  split; [reflexivity|].
  destruct (request_answered_locally example_code example_random 8
              (news_bus [0]) "news" (VRef 0)
              (mkOptions (VBool true) VUndefined)
              (mkOptions VUndefined VUndefined) 0 EArg
              [[("n", VNum 1)]; [("n", VNum 1)]] (VRef 1) (VRef 1))
    as (w' & h2 & arg2 & Hd & Hcl & Hp & _).
  - apply reply_heap_ok.
  - vm_compute. lia.
  - reflexivity.
  - reflexivity.
  - reflexivity.
  - reflexivity.
  - reflexivity.
  - reflexivity.
  - reflexivity.
  - simpl. lia.
  - lia.
  - exists w', h2, arg2. split_and!; assumption.
Defined.

Lemma remotes_are_what_was_attached_witness :
  reachable example_code example_random true renderer_bus ∧
  NoDup (remotes renderer_bus) ∧ remotes renderer_bus = [IpcRenderer].
Proof.
  split; [apply renderer_bus_reachable|].
  destruct (remotes_are_what_was_attached example_code example_random true
              renderer_bus renderer_bus_reachable) as (Hn & _ & H & _).
  split; [exact Hn|]. apply H. reflexivity.
Defined.


Lemma dispatch_without_waiting_witness :
  reachable example_code example_random false main_bus ∧
  truthy (waiting (unpack_options (heap main_bus) VNull)) = false ∧
  ∃ w', dispatch_call example_code example_random 8 main_bus "void" VNull VNull
        = Done w' ∧
        promise w' 0 = Resolved VUndefined.
Proof.
  split; [apply main_bus_reachable|]. split; [reflexivity|].
  destruct (dispatch_call example_code example_random 8 main_bus "void" VNull VNull)
    as [w'|w' m|] eqn:Hd; [|vm_compute in Hd; discriminate..].
  exists w'. split; [reflexivity|].
  destruct (dispatch_without_waiting example_code example_random false 8 main_bus
              "void" VNull VNull w' main_bus_reachable eq_refl Hd)
    as (_ & Hp & _).
  exact Hp.
Defined.






